(** * openapi3-normalizer: reference resolver and document modeler

    A shallow embedding of the TypeScript sources

      - [object-resolver] ([resolve]: the in-place [$ref] resolver),
      - [modeler.ts] (the draft of [run] with servers, parameters, the
        path/parameter cross-check and responses; module [ModelerA]),
      - the later draft of the modeler with formats, contents, request bodies
        and security (module [ModelerB]),
      - the earlier draft of the modeler, the second program of [modeler.ts]
        (module [ModelerBasic]),

    together with the properties of the specification that are checked
    against them.

    Conventions of the embedding.
      - A JavaScript string is a sequence of code units; the model keeps the
        code units below 256 ([string] of the standard library).  Ordering of
        strings ([Array.prototype.sort] without comparator) is the
        lexicographic order of code units.
      - A thrown exception is a value of [exn]; a function that can throw
        returns a [result].  A function that writes into its argument returns
        the argument as it is after the call next to its result, so that the
        writes performed before an exception are kept.
      - A plain JavaScript object used as a dictionary is the list of its own
        properties in creation order ([JsObject]); [Object_keys] enumerates
        it the way the language does. *)

From Stdlib Require Import Ascii String ZArith Lia Permutation Sorted.
From stdpp Require Import base option list gmap strings pretty.

Local Open Scope string_scope.
Local Open Scope list_scope.

(** ** Exceptions and results *)

Inductive exn : Type :=
| Error (message : string)   (* [throw new Error(message)] *)
| TypeError                  (* raised by the language: property of undefined, ... *)
| RangeError.                (* raised by the language: call stack exhausted *)

Inductive result (A : Type) : Type :=
| Ok (a : A)
| Throw (e : exn).
Arguments Ok {A} a.
Arguments Throw {A} e.

Definition rbind {A B} (r : result A) (k : A -> result B) : result B :=
  match r with
  | Ok a => k a
  | Throw e => Throw e
  end.

Declare Scope result_scope.
Delimit Scope result_scope with result.
Notation "'let*' x ':=' r 'in' k" := (rbind r (fun x => k))
  (at level 10, x name, r at level 100, k at level 200) : result_scope.
Notation "'let*' ' p ':=' r 'in' k" := (rbind r (fun p => k))
  (at level 10, p pattern, r at level 100, k at level 200) : result_scope.

Definition is_ok {A} (r : result A) : bool :=
  match r with Ok _ => true | Throw _ => false end.

(** [xs.map(f)] where [f] may throw: the first exception aborts the map. *)
Fixpoint mapR {A B} (f : A -> result B) (xs : list A) : result (list B) :=
  match xs with
  | [] => Ok []
  | x :: xs' =>
      (let* y := f x in
       let* ys := mapR f xs' in
       Ok (y :: ys))%result
  end.

(** ** Strings *)

(** [s.split(sep)] for a one-character separator. *)
Fixpoint split (sep : ascii) (s : string) : list string :=
  match s with
  | EmptyString => [EmptyString]
  | String c s' =>
      if Ascii.eqb c sep then EmptyString :: split sep s'
      else match split sep s' with
           | [] => [String c EmptyString]
           | p :: ps => String c p :: ps
           end
  end.

(** [parts.join(sep)] *)
Fixpoint join (sep : string) (parts : list string) : string :=
  match parts with
  | [] => ""
  | [p] => p
  | p :: ps => p +:+ sep +:+ join sep ps
  end.

(** [xs.shift()]: the first element ([undefined] on the empty array) and the
    array that is left. *)
Definition shift {A} (xs : list A) : option A * list A :=
  match xs with
  | [] => (None, [])
  | x :: xs' => (Some x, xs')
  end.

(** [v || ""] for [v : string | undefined] *)
Definition or_empty (v : option string) : string :=
  match v with
  | Some s => s
  | None => ""
  end.

Definition startsWith (s prefix : string) : bool := String.prefix prefix s.

(** ** Path templates: [parsePath] *)

Inductive PathComponent : Type :=
| PathComponentConstant (value : string)    (* { type: "const", value } *)
| PathComponentParameter (name : string).   (* { type: "param", name } *)

Definition Path := list PathComponent.

(** The predicate of the final [filter]: [x.type !== "const" || x.value !== ""] *)
Definition keepComponent (x : PathComponent) : bool :=
  match x with
  | PathComponentConstant value => negb (String.eqb value "")
  | PathComponentParameter _ => true
  end.

(** One iteration of [for (const part of parts1)]: the two components pushed
    for [part]. *)
Definition parsePathPart (part : string) : result (list PathComponent) :=
  let parts2 := split "}" part in
  if negb (Nat.eqb (List.length parts2) 2) then Throw (Error "invalid path format")
  else
    let '(name, parts2) := shift parts2 in
    if String.eqb (or_empty name) "" then Throw (Error "empty parameter names not allowed")
    else
      let '(value, _) := shift parts2 in
      Ok [PathComponentParameter (or_empty name); PathComponentConstant (or_empty value)].

Fixpoint parsePathParts (parts1 : list string) : result (list PathComponent) :=
  match parts1 with
  | [] => Ok []
  | part :: rest =>
      (let* cs := parsePathPart part in
       let* cs' := parsePathParts rest in
       Ok (cs ++ cs'))%result
  end.

Definition parsePath (path : string) : result Path :=
  let '(first, parts1) := shift (split "{" path) in
  (let* cs := parsePathParts parts1 in
   Ok (List.filter keepComponent (PathComponentConstant (or_empty first) :: cs)))%result.

(** Re-joining a component sequence as the specification describes it:
    constants verbatim, parameters wrapped in braces. *)
Definition renderComponent (x : PathComponent) : string :=
  match x with
  | PathComponentConstant value => value
  | PathComponentParameter name => "{" +:+ name +:+ "}"
  end.

Fixpoint renderPath (p : Path) : string :=
  match p with
  | [] => ""
  | x :: p' => renderComponent x +:+ renderPath p'
  end.

(** A well-formed template: outside a placeholder no closing brace, inside a
    placeholder no opening brace, every placeholder closed and its name not
    empty.  [inside] is [None] outside a placeholder and [Some n] after [n]
    characters of a placeholder name. *)
Fixpoint wellFormedFrom (inside : option nat) (s : string) : bool :=
  match s, inside with
  | EmptyString, None => true
  | EmptyString, Some _ => false
  | String c s', None =>
      if Ascii.eqb c "{" then wellFormedFrom (Some 0) s'
      else if Ascii.eqb c "}" then false
      else wellFormedFrom None s'
  | String c s', Some n =>
      if Ascii.eqb c "{" then false
      else if Ascii.eqb c "}" then negb (Nat.eqb n 0) && wellFormedFrom None s'
      else wellFormedFrom (Some (S n)) s'
  end.

Definition wellFormedTemplate (t : string) : bool := wellFormedFrom None t.

(** ** Arrays: [sort] *)

(** [Array.prototype.sort] is stable: of two elements that the order does not
    separate, the one that came first stays first.  The model is the stable
    insertion sort for the order [leb]. *)
Section Sort.
Context {A : Type} (leb : A -> A -> bool).

Fixpoint insertSorted (x : A) (l : list A) : list A :=
  match l with
  | [] => [x]
  | y :: l' => if leb x y then x :: l else y :: insertSorted x l'
  end.

Definition sortBy (l : list A) : list A := foldr insertSorted [] l.
End Sort.

(** [strings.sort()]: without a comparator the elements are compared as
    strings, code unit by code unit. *)
Definition sortStrings (l : list string) : list string := sortBy String.leb l.

(** ** Plain objects used as dictionaries *)

(** The own enumerable properties of an object, in the order of their
    creation.  A well-formed object has no key twice ([wfObject]). *)
Definition JsObject (V : Type) : Type := list (string * V).

Definition wfObject {V} (o : JsObject V) : Prop := NoDup (map fst o).

(** [o[k]] ([None] is [undefined]) *)
Fixpoint getProp {V} (k : string) (o : JsObject V) : option V :=
  match o with
  | [] => None
  | (k', v) :: o' => if String.eqb k k' then Some v else getProp k o'
  end.

(** [o[k] = v]: an existing property keeps its place, a new one is created
    last. *)
Fixpoint setProp {V} (k : string) (v : V) (o : JsObject V) : JsObject V :=
  match o with
  | [] => [(k, v)]
  | (k', v') :: o' =>
      if String.eqb k k' then (k, v) :: o' else (k', v') :: setProp k v o'
  end.

Definition isDigit (c : ascii) : bool :=
  (48 <=? N_of_ascii c)%N && (N_of_ascii c <=? 57)%N.

(** The value of a string of decimal digits, read from the left. *)
Fixpoint digitsValue (acc : N) (s : string) : option N :=
  match s with
  | EmptyString => Some acc
  | String c s' =>
      if isDigit c then digitsValue (10 * acc + (N_of_ascii c - 48))%N s'
      else None
  end.

(** A property key is an array index when it is the canonical decimal
    spelling of an integer between 0 and 2^32 - 2. *)
Definition arrayIndex (k : string) : option N :=
  match k with
  | EmptyString => None
  | String c rest =>
      if Ascii.eqb c "0" then
        match rest with EmptyString => Some 0%N | _ => None end
      else
        match digitsValue 0 k with
        | Some n => if (n <=? 4294967294)%N then Some n else None
        | None => None
        end
  end.

Definition isArrayIndex (k : string) : bool :=
  match arrayIndex k with Some _ => true | None => false end.

Definition indexLeb (a b : string) : bool :=
  match arrayIndex a, arrayIndex b with
  | Some m, Some n => (m <=? n)%N
  | _, _ => true
  end.

(** [Object.keys(o)]: the array-index keys in ascending numeric order, then
    the other keys in the order of their creation. *)
Definition Object_keys {V} (o : JsObject V) : list string :=
  sortBy indexLeb (List.filter isArrayIndex (map fst o))
    ++ List.filter (fun k => negb (isArrayIndex k)) (map fst o).

(** ** Untyped values ([any]) *)

(** A value of a part of the document that the modeler passes through
    without looking into it.  The numbers of a document take no part in any
    computation of the modeler but the test [if (v)], which only separates
    zero from the rest. *)
#[warnings="-register-all"]
Inductive Json : Type :=
| JNull
| JBool (b : bool)
| JNumber (n : Z)
| JString (s : string)
| JArray (elements : list Json)
| JObject (properties : list (string * Json)).

(** [if (v)] *)
Definition truthy (v : Json) : bool :=
  match v with
  | JNull => false
  | JBool b => b
  | JNumber n => negb (n =? 0)%Z
  | JString s => negb (String.eqb s "")
  | JArray _ => true
  | JObject _ => true
  end.

(** [if (v)] for [v : any | undefined] *)
Definition truthyOpt (v : option Json) : bool :=
  match v with
  | Some j => truthy j
  | None => false
  end.

(** ** [JSON.stringify] of strings *)

Definition quoteChar : ascii := ascii_of_nat 34.
Definition backslash : ascii := ascii_of_nat 92.

Definition hexDigit (n : N) : ascii :=
  if (n <? 10)%N then ascii_of_N (48 + n) else ascii_of_N (87 + n).

(** The spelling of one code unit inside a JSON string. *)
Definition escapeChar (c : ascii) : string :=
  let n := N_of_ascii c in
  if (n =? 34)%N then String backslash (String quoteChar EmptyString)
  else if (n =? 92)%N then String backslash (String backslash EmptyString)
  else if (n =? 8)%N then String backslash "b"
  else if (n =? 12)%N then String backslash "f"
  else if (n =? 10)%N then String backslash "n"
  else if (n =? 13)%N then String backslash "r"
  else if (n =? 9)%N then String backslash "t"
  else if (n <? 32)%N then
    String backslash
      (String "u" (String "0" (String "0"
        (String (hexDigit (n / 16)) (String (hexDigit (n mod 16)) EmptyString)))))
  else String c EmptyString.

Fixpoint escapeString (s : string) : string :=
  match s with
  | EmptyString => EmptyString
  | String c s' => escapeChar c +:+ escapeString s'
  end.

(** [JSON.stringify(s)] for a string [s] *)
Definition JSON_stringify_string (s : string) : string :=
  String quoteChar (escapeString s +:+ String quoteChar EmptyString).

(** [JSON.stringify(xs)] for an array of strings [xs] *)
Definition JSON_stringify_strings (xs : list string) : string :=
  "[" +:+ join "," (map JSON_stringify_string xs) +:+ "]".

(** ** The OpenAPI document ([types/OpenApi.ts])

    The typed shape of the input.  A field [f?: T] is an [option T]; the
    alternatives [T | ReferenceObject] are [T], since the modeler runs on a
    document whose references have been resolved and casts accordingly.
    Objects that the modeler hands on without reading ([InfoObject],
    [TagObject], schemas, examples, ...) are kept as [Json].  The document is
    a tree: no node is shared between two places. *)

Inductive Location : Type := in_query | in_header | in_path | in_cookie.

Inductive Style : Type :=
| style_matrix | style_label | style_form | style_simple
| style_spaceDelimited | style_pipeDelimited | style_deepObject.

Definition Location_eqb (a b : Location) : bool :=
  match a, b with
  | in_query, in_query | in_header, in_header
  | in_path, in_path | in_cookie, in_cookie => true
  | _, _ => false
  end.

Definition Style_eqb (a b : Style) : bool :=
  match a, b with
  | style_matrix, style_matrix | style_label, style_label
  | style_form, style_form | style_simple, style_simple
  | style_spaceDelimited, style_spaceDelimited
  | style_pipeDelimited, style_pipeDelimited
  | style_deepObject, style_deepObject => true
  | _, _ => false
  end.

(** The string a location is at run time. *)
Definition Location_string (l : Location) : string :=
  match l with
  | in_query => "query"
  | in_header => "header"
  | in_path => "path"
  | in_cookie => "cookie"
  end.

Definition InfoObject := Json.
Definition TagObject := Json.
Definition ExternalDocumentationObject := Json.
Definition SchemaObject := Json.
Definition ExampleObject := Json.
Definition SecuritySchemeObject := Json.
Definition LinkObject := Json.

Record ServerVariableObject : Type := {
  sv_enum : option (list string);
  sv_default : string;
  sv_description : option string
}.

Record ServerObject : Type := {
  so_url : string;
  so_description : option string;
  so_variables : option (JsObject ServerVariableObject)
}.

(** [MediaTypeObject]: its properties ([schema], [example], [examples],
    [encoding] and extensions) by name. *)
Definition MediaTypeObject := JsObject Json.
Definition ContentObject := JsObject MediaTypeObject.

(** The fields of a [ParameterObject] other than [name] and [in]. *)
Record ParameterFields : Type := {
  pf_description : option string;
  pf_required : option bool;
  pf_deprecated : option bool;
  pf_allowEmptyValue : option bool;
  pf_style : option Style;
  pf_explode : option bool;
  pf_allowReserved : option bool;
  pf_schema : option SchemaObject;
  pf_examples : option (JsObject Json);
  pf_example : option Json;
  pf_content : option ContentObject
}.

Record ParameterObject : Type := {
  po_name : string;
  po_in : Location;
  po_fields : ParameterFields
}.

(** [HeaderObject extends ParameterObject]; the header objects of a document
    come without [name] and [in] until the modeler writes them, so both are
    optional here. *)
Record HeaderObject : Type := {
  ho_name : option string;
  ho_in : option Location;
  ho_fields : ParameterFields
}.

Definition HeadersObject := JsObject HeaderObject.

Record RequestBodyObject : Type := {
  rb_description : option string;
  rb_content : ContentObject;
  rb_required : option bool
}.

Record ResponseObject : Type := {
  ro_description : option string;
  ro_headers : option HeadersObject;
  ro_content : option ContentObject;
  ro_links : option (JsObject LinkObject)
}.

Definition ResponsesObject := JsObject ResponseObject.

Definition SecurityRequirementObject := JsObject (list string).

Record OperationObject : Type := {
  oo_tags : option (list string);
  oo_summary : option string;
  oo_description : option string;
  oo_externalDocs : option ExternalDocumentationObject;
  oo_operationId : option string;
  oo_parameters : option (list ParameterObject);
  oo_requestBody : option RequestBodyObject;
  oo_responses : ResponsesObject;
  oo_callbacks : option Json;
  oo_deprecated : option bool;
  oo_security : option (list SecurityRequirementObject);
  oo_servers : option (list ServerObject)
}.

Inductive HttpMethod : Type :=
| GET | PUT | POST | DELETE | OPTIONS | HEAD | PATCH | TRACE.

Definition httpMethods : list HttpMethod :=
  [GET; PUT; POST; DELETE; OPTIONS; HEAD; PATCH; TRACE].

Record PathItemObject : Type := {
  pi_ref : option string;
  pi_summary : option string;
  pi_description : option string;
  pi_get : option OperationObject;
  pi_put : option OperationObject;
  pi_post : option OperationObject;
  pi_delete : option OperationObject;
  pi_options : option OperationObject;
  pi_head : option OperationObject;
  pi_patch : option OperationObject;
  pi_trace : option OperationObject;
  pi_servers : option (list ServerObject);
  pi_parameters : option (list ParameterObject)
}.

(** [pathObject[httpMethod]] *)
Definition getOperation (m : HttpMethod) (p : PathItemObject) : option OperationObject :=
  match m with
  | GET => pi_get p
  | PUT => pi_put p
  | POST => pi_post p
  | DELETE => pi_delete p
  | OPTIONS => pi_options p
  | HEAD => pi_head p
  | PATCH => pi_patch p
  | TRACE => pi_trace p
  end.

Definition PathObject := JsObject PathItemObject.

Record ComponentsObject : Type := {
  co_securitySchemes : option (JsObject SecuritySchemeObject);
  co_others : JsObject Json
}.

Record OpenAPIObject : Type := {
  oa_openapi : string;
  oa_info : InfoObject;
  oa_servers : option (list ServerObject);
  oa_paths : PathObject;
  oa_components : ComponentsObject;
  oa_security : option (list SecurityRequirementObject);
  oa_tags : option (list TagObject);
  oa_externalDocs : option ExternalDocumentationObject
}.

(** ** Functions that write into their argument *)

(** A computation over a mutable object of type [S]: the object as it is
    after the call, and what the call returned or threw. *)
Definition Eff (S A : Type) : Type := S -> result A * S.

Definition eret {S A} (a : A) : Eff S A := fun s => (Ok a, s).
Definition ethrow {S A} (e : exn) : Eff S A := fun s => (Throw e, s).
Definition elift {S A} (r : result A) : Eff S A := fun s => (r, s).
Definition eread {S A} (f : S -> A) : Eff S A := fun s => (Ok (f s), s).

Definition ebind {S A B} (m : Eff S A) (k : A -> Eff S B) : Eff S B :=
  fun s =>
    match m s with
    | (Ok a, s') => k a s'
    | (Throw e, s') => (Throw e, s')
    end.

(** Run a computation on a part of the object and put the part back. *)
Definition zoom {S T A} (get : S -> T) (set : T -> S -> S) (m : Eff T A) : Eff S A :=
  fun s => let '(r, t) := m (get s) in (r, set t s).

Declare Scope eff_scope.
Delimit Scope eff_scope with eff.
Notation "'let*' x ':=' m 'in' k" := (ebind m (fun x => k))
  (at level 10, x name, m at level 100, k at level 200) : eff_scope.
Notation "'let*' ' p ':=' m 'in' k" := (ebind m (fun p => k))
  (at level 10, p pattern, m at level 100, k at level 200) : eff_scope.

(** [xs.map(f)] where [f] writes into the element it is given. *)
Fixpoint mapElements {T B} (f : Eff T B) (xs : list T) : result (list B) * list T :=
  match xs with
  | [] => (Ok [], [])
  | x :: xs' =>
      match f x with
      | (Ok y, x') =>
          match mapElements f xs' with
          | (Ok ys, xs'') => (Ok (y :: ys), x' :: xs'')
          | (Throw e, xs'') => (Throw e, x' :: xs'')
          end
      | (Throw e, x') => (Throw e, x' :: xs')
      end
  end.

(** [names.map(f)] where [f] may write into the object [S]. *)
Fixpoint mapEff {S A B} (f : A -> Eff S B) (xs : list A) : Eff S (list B) :=
  match xs with
  | [] => eret []
  | x :: xs' =>
      (let* y := f x in
       let* ys := mapEff f xs' in
       eret (y :: ys))%eff
  end.

(** The property [k] of an object as the part a computation works on; the
    computation reads or writes a member of [o[k]], which is a [TypeError]
    when [o[k]] is [undefined]. *)
Definition atKey {V A} (k : string) (m : Eff V A) : Eff (JsObject V) A :=
  fun o =>
    match getProp k o with
    | None => (Throw TypeError, o)
    | Some v => let '(r, v') := m v in (r, setProp k v' o)
    end.

(** ** Servers *)

Record Server : Type := {
  urlPrefix : Path;
  server_description : option string;
  variables : JsObject ServerVariableObject
}.

Definition parseServer (server : ServerObject) : result Server :=
  (let* urlPrefix := parsePath (so_url server) in
   Ok {| urlPrefix := urlPrefix;
         server_description := so_description server;
         variables := default [] (so_variables server) |})%result.

Definition parseServers (servers : option (list ServerObject)) : result (option (list Server)) :=
  match servers with
  | Some servers => (let* r := mapR parseServer servers in Ok (Some r))%result
  | None => Ok None
  end.

(** The servers of the document: [parseServers(openapiDefinition.servers) || []]
    followed by the push of the server [/] when that array is empty. *)
Definition documentServers (servers : option (list ServerObject)) : result (list Server) :=
  (let* parsed := parseServers servers in
   let servers := default [] parsed in
   if Nat.eqb (List.length servers) 0 then
     let* root := parsePath "/" in
     Ok (servers ++ [{| urlPrefix := root; server_description := None; variables := [] |}])
   else Ok servers)%result.

(** ** Parameters: keys, uniqueness, merge, cross-check

    These functions and blocks are the same text in both drafts of the
    modeler; they only read the [name] and the [location] of a parameter. *)

Class ParameterLike (P : Type) : Type := {
  parameterName : P -> string;
  parameterLocation : P -> Location
}.

Section Parameters.
Context {P : Type} `{ParameterLike P}.

Definition getParameterKey (parameter : P) : string :=
  JSON_stringify_strings
    [parameterName parameter; Location_string (parameterLocation parameter)].

(** [keys.some((key, index) => index !== 0 && key === keys[index - 1])] *)
Fixpoint someAdjacentEqual (keys : list string) : bool :=
  match keys with
  | k :: ((k' :: _) as rest) => String.eqb k' k || someAdjacentEqual rest
  | _ => false
  end.

Definition checkParameters (parameter : list P) : bool :=
  let keys := sortStrings (map getParameterKey parameter) in
  let unique := negb (someAdjacentEqual keys) in
  unique.

(** One round of [for (const param of operationParameters)]: every
    parameter of the same key is replaced where it stands; without one the
    parameter is pushed. *)
Definition sameKey (param paramTarget : P) : bool :=
  String.eqb (getParameterKey param) (getParameterKey paramTarget).

Definition mergeParameter (parameters : list P) (param : P) : list P :=
  let found := existsb (sameKey param) parameters in
  let parameters :=
    map (fun paramTarget => if sameKey param paramTarget then param else paramTarget)
        parameters in
  if found then parameters else parameters ++ [param].

(** The block [// merge parameters] *)
Definition mergeParameters (pathParameters operationParameters : list P) : list P :=
  fold_left mergeParameter operationParameters pathParameters.

(** [xs.every((x, i) => x === ys[i])] *)
Fixpoint everyEqual (xs ys : list string) : bool :=
  match xs, ys with
  | [], _ => true
  | x :: xs', y :: ys' => String.eqb x y && everyEqual xs' ys'
  | _ :: _, [] => false
  end.

Definition pathParams (parameters : list P) : list string :=
  sortStrings
    (map parameterName
       (List.filter (fun x => Location_eqb (parameterLocation x) in_path) parameters)).

Definition pathParamsExpected (urlSuffix : Path) : list string :=
  sortStrings
    (omap (fun x => match x with
                    | PathComponentParameter name => Some name
                    | PathComponentConstant _ => None
                    end) urlSuffix).

(** The block [// validate path parameters against urlSuffix] *)
Definition validatePathParameters (parameters : list P) (urlSuffix : Path) : result unit :=
  let pathParams := pathParams parameters in
  let pathParamsExpected := pathParamsExpected urlSuffix in
  if negb (Nat.eqb (List.length pathParams) (List.length pathParamsExpected))
     || negb (everyEqual pathParams pathParamsExpected)
  then Throw (Error "path parameters mismatch")
  else Ok tt.
End Parameters.

(** ** Response keys *)

(** [responseKey.match(/^[0-9X]{3}$/)] *)
Definition statusChar (c : ascii) : bool := isDigit c || Ascii.eqb c "X".

Definition matchesStatusPattern (responseKey : string) : bool :=
  match responseKey with
  | String a (String b (String c EmptyString)) =>
      statusChar a && statusChar b && statusChar c
  | _ => false
  end.

(** [if (responseKey === "default") responseKey = "XXX"] *)
Definition normalizeResponseKey (responseKey : string) : string :=
  if String.eqb responseKey "default" then "XXX" else responseKey.

(** [key.split("").filter(c => c === "X").length] *)
Definition wildcards (key : string) : nat :=
  List.length (List.filter (fun c => Ascii.eqb c "X") (list_ascii_of_string key)).

(** [v || d] for an optional string: the empty string is falsy as well. *)
Definition orElseString (v d : option string) : option string :=
  match v with
  | Some s => if String.eqb s "" then d else Some s
  | None => d
  end.

(** ** Writes into the records of the document *)

Definition set_pf_examples (v : option (JsObject Json)) (f : ParameterFields) : ParameterFields :=
  {| pf_description := pf_description f; pf_required := pf_required f;
     pf_deprecated := pf_deprecated f; pf_allowEmptyValue := pf_allowEmptyValue f;
     pf_style := pf_style f; pf_explode := pf_explode f;
     pf_allowReserved := pf_allowReserved f; pf_schema := pf_schema f;
     pf_examples := v; pf_example := pf_example f; pf_content := pf_content f |}.

Definition set_pf_content (v : option ContentObject) (f : ParameterFields) : ParameterFields :=
  {| pf_description := pf_description f; pf_required := pf_required f;
     pf_deprecated := pf_deprecated f; pf_allowEmptyValue := pf_allowEmptyValue f;
     pf_style := pf_style f; pf_explode := pf_explode f;
     pf_allowReserved := pf_allowReserved f; pf_schema := pf_schema f;
     pf_examples := pf_examples f; pf_example := pf_example f; pf_content := v |}.

Definition set_po_fields (v : ParameterFields) (p : ParameterObject) : ParameterObject :=
  {| po_name := po_name p; po_in := po_in p; po_fields := v |}.

Definition set_rb_content (v : ContentObject) (b : RequestBodyObject) : RequestBodyObject :=
  {| rb_description := rb_description b; rb_content := v; rb_required := rb_required b |}.

Definition set_ro_headers (v : option HeadersObject) (r : ResponseObject) : ResponseObject :=
  {| ro_description := ro_description r; ro_headers := v;
     ro_content := ro_content r; ro_links := ro_links r |}.

Definition set_oo_parameters (v : option (list ParameterObject)) (o : OperationObject) : OperationObject :=
  {| oo_tags := oo_tags o; oo_summary := oo_summary o; oo_description := oo_description o;
     oo_externalDocs := oo_externalDocs o; oo_operationId := oo_operationId o;
     oo_parameters := v; oo_requestBody := oo_requestBody o;
     oo_responses := oo_responses o; oo_callbacks := oo_callbacks o;
     oo_deprecated := oo_deprecated o; oo_security := oo_security o;
     oo_servers := oo_servers o |}.

Definition set_oo_requestBody (v : option RequestBodyObject) (o : OperationObject) : OperationObject :=
  {| oo_tags := oo_tags o; oo_summary := oo_summary o; oo_description := oo_description o;
     oo_externalDocs := oo_externalDocs o; oo_operationId := oo_operationId o;
     oo_parameters := oo_parameters o; oo_requestBody := v;
     oo_responses := oo_responses o; oo_callbacks := oo_callbacks o;
     oo_deprecated := oo_deprecated o; oo_security := oo_security o;
     oo_servers := oo_servers o |}.

Definition set_oo_responses (v : ResponsesObject) (o : OperationObject) : OperationObject :=
  {| oo_tags := oo_tags o; oo_summary := oo_summary o; oo_description := oo_description o;
     oo_externalDocs := oo_externalDocs o; oo_operationId := oo_operationId o;
     oo_parameters := oo_parameters o; oo_requestBody := oo_requestBody o;
     oo_responses := v; oo_callbacks := oo_callbacks o;
     oo_deprecated := oo_deprecated o; oo_security := oo_security o;
     oo_servers := oo_servers o |}.

Definition set_pi_parameters (v : option (list ParameterObject)) (p : PathItemObject) : PathItemObject :=
  {| pi_ref := pi_ref p; pi_summary := pi_summary p; pi_description := pi_description p;
     pi_get := pi_get p; pi_put := pi_put p; pi_post := pi_post p;
     pi_delete := pi_delete p; pi_options := pi_options p; pi_head := pi_head p;
     pi_patch := pi_patch p; pi_trace := pi_trace p;
     pi_servers := pi_servers p; pi_parameters := v |}.

(** The operation object [pathObject[httpMethod]] after a call that wrote
    into it. *)
Definition setOperation (m : HttpMethod) (v : OperationObject) (p : PathItemObject) : PathItemObject :=
  let pick (m' : HttpMethod) (old : option OperationObject) : option OperationObject :=
    match m, m' with
    | GET, GET | PUT, PUT | POST, POST | DELETE, DELETE | OPTIONS, OPTIONS
    | HEAD, HEAD | PATCH, PATCH | TRACE, TRACE => Some v
    | _, _ => old
    end in
  {| pi_ref := pi_ref p; pi_summary := pi_summary p; pi_description := pi_description p;
     pi_get := pick GET (pi_get p); pi_put := pick PUT (pi_put p);
     pi_post := pick POST (pi_post p); pi_delete := pick DELETE (pi_delete p);
     pi_options := pick OPTIONS (pi_options p); pi_head := pick HEAD (pi_head p);
     pi_patch := pick PATCH (pi_patch p); pi_trace := pick TRACE (pi_trace p);
     pi_servers := pi_servers p; pi_parameters := pi_parameters p |}.

Definition set_oa_paths (v : PathObject) (d : OpenAPIObject) : OpenAPIObject :=
  {| oa_openapi := oa_openapi d; oa_info := oa_info d; oa_servers := oa_servers d;
     oa_paths := v; oa_components := oa_components d; oa_security := oa_security d;
     oa_tags := oa_tags d; oa_externalDocs := oa_externalDocs d |}.

(** A computation on the headers of a response: [responseObject.headers || {}];
    the empty object made for a response without headers is not part of
    the document. *)
Definition onHeaders {A} (m : Eff HeadersObject A) : Eff ResponseObject A :=
  fun responseObject =>
    match ro_headers responseObject with
    | Some headers =>
        let '(r, headers') := m headers in
        (r, set_ro_headers (Some headers') responseObject)
    | None => (fst (m []), responseObject)
    end.

(** A computation on [pathObject[httpMethod]], run only [if (operationObject)]. *)
Definition onOperation {A} (httpMethod : HttpMethod) (m : Eff OperationObject A)
  : Eff PathItemObject (option A) :=
  fun pathObject =>
    match getOperation httpMethod pathObject with
    | Some operationObject =>
        let '(r, operationObject') := m operationObject in
        (rbind r (fun a => Ok (Some a)), setOperation httpMethod operationObject' pathObject)
    | None => (Ok None, pathObject)
    end.

(** The methods pushed by [for (const httpMethod of httpMethods)]. *)
Fixpoint forMethods {A} (body : HttpMethod -> Eff OperationObject A)
  (methods : list HttpMethod) : Eff PathItemObject (list A) :=
  match methods with
  | [] => eret []
  | httpMethod :: rest =>
      (let* r := onOperation httpMethod (body httpMethod) in
       let* rs := forMethods body rest in
       eret (match r with Some a => a :: rs | None => rs end))%eff
  end.

(** The methods pushed by [for (const rawPath of keys(paths))]; [body] starts
    with [parsePath(rawPath)], which comes before the path item is read. *)
Fixpoint forPaths {A} (body : string -> Path -> Eff PathItemObject (list A))
  (rawPaths : list string) : Eff PathObject (list A) :=
  match rawPaths with
  | [] => eret []
  | rawPath :: rest =>
      (let* path := elift (parsePath rawPath) in
       let* ms := atKey rawPath (body rawPath path) in
       let* ms' := forPaths body rest in
       eret (ms ++ ms'))%eff
  end.

(** * The modeler of [modeler.ts] *)

Module ModelerA.

Record Header : Type := {
  h_name : string;
  h_description : option string;
  h_required : bool;
  h_deprecated : bool;
  h_locationQueryAllowEmptyValue : option bool;
  h_content : JsObject Json
}.

(** [interface Parameter extends Header { location }] ([Parameter] is a
    reserved word here) *)
Record Param : Type := {
  name : string;
  location : Location;
  description : option string;
  required : bool;
  deprecated : bool;
  locationQueryAllowEmptyValue : option bool;
  content : JsObject Json
}.

#[global] Instance Param_like : ParameterLike Param :=
  {| parameterName := name; parameterLocation := location |}.

Record Response : Type := {
  key : string;
  r_description : option string;
  headers : list Header
}.

Record Method : Type := {
  urlSuffix : Path;
  tags : list string;
  summary : option string;
  m_description : option string;
  externalDocs : option ExternalDocumentationObject;
  operationId : option string;
  responses : list Response;
  parameters : list Param;
  m_deprecated : bool;
  servers : list Server
}.

Record Model : Type := {
  operations : list Method;
  model_tags : list TagObject
}.

Definition parseParameter (parameter : ParameterObject) : result Param :=
  let f := po_fields parameter in
  if negb (Location_eqb (po_in parameter) in_query)
     && match pf_allowEmptyValue f with Some _ => true | None => false end
  then Throw (Error "allowEmptyValue only allowed on query parameters")
  else if Location_eqb (po_in parameter) in_path && negb (default false (pf_required f))
  then Throw (Error "expected required=true on path parameter")
  else
    Ok {| name := po_name parameter;
          location := po_in parameter;
          description := pf_description f;
          required := default false (pf_required f);
          deprecated := default false (pf_deprecated f);
          locationQueryAllowEmptyValue := pf_allowEmptyValue f;
          content := [] |}.

Definition parseParameters (parameters : option (list ParameterObject))
  : result (option (list Param)) :=
  match parameters with
  | Some parameters => (let* r := mapR parseParameter parameters in Ok (Some r))%result
  | None => Ok None
  end.

(** [delete result.location; return result as Header] *)
Definition deleteLocation (p : Param) : Header :=
  {| h_name := name p; h_description := description p; h_required := required p;
     h_deprecated := deprecated p;
     h_locationQueryAllowEmptyValue := locationQueryAllowEmptyValue p;
     h_content := content p |}.

(** The function given to [headerNames.map]: it writes [name] and [in]
    into the header object of the document before it parses it. *)
Definition headerAsParam (name : string) : Eff HeaderObject Header :=
  fun headerObject =>
    let param := {| po_name := name; po_in := in_header;
                    po_fields := ho_fields headerObject |} in
    ((let* result := parseParameter param in Ok (deleteLocation result))%result,
     {| ho_name := Some name; ho_in := Some in_header;
        ho_fields := ho_fields headerObject |}).

(** One round of [for (let responseKey of responseKeys)] *)
Definition parseResponse (responseKey : string) : Eff ResponsesObject Response :=
  let declaredKey := responseKey in
  let responseKey := normalizeResponseKey responseKey in
  if negb (matchesStatusPattern responseKey) then
    ethrow (Error ("invalid HTTP status code pattern '" +:+ responseKey +:+ "'"))
  else
    atKey declaredKey
      (let* headersAsParams :=
         onHeaders (fun headers =>
           mapEff (fun name => atKey name (headerAsParam name))
                  (Object_keys headers) headers) in
       let* description := eread ro_description in
       eret {| key := responseKey;
               r_description := description;
               headers := headersAsParams |})%eff.

(** The block [// responses]: the loop and the sort. *)
Definition parseResponses : Eff ResponsesObject (list Response) :=
  fun responsesObject =>
    (let* responses := mapEff parseResponse (Object_keys responsesObject) in
     eret (sortBy (fun a b => Nat.leb (wildcards (key a)) (wildcards (key b))) responses))%eff
      responsesObject.

(** The body of [if (operationObject)] *)
Definition runOperation (path : Path)
  (pathSummary pathDescription : option string)
  (pathServers : list Server) (pathParameters : list Param)
  : Eff OperationObject Method :=
  (let* operationServers' := eread (fun o => parseServers (oo_servers o)) in
   let* operationServers' := elift operationServers' in
   let operationServers := default pathServers operationServers' in
   let* operationParameters' := eread (fun o => parseParameters (oo_parameters o)) in
   let* operationParameters' := elift operationParameters' in
   let operationParameters := default [] operationParameters' in
   if negb (checkParameters pathParameters) then
     ethrow (Error "invalid operation parameters")
   else
     let parameters := mergeParameters pathParameters operationParameters in
     let* _ := elift (validatePathParameters parameters path) in
     let* responses := zoom oo_responses set_oo_responses parseResponses in
     let* operationObject := eread id in
     eret {| urlSuffix := path;
             tags := default [] (oo_tags operationObject);
             summary := orElseString (oo_summary operationObject) pathSummary;
             m_description := orElseString (oo_description operationObject) pathDescription;
             externalDocs := oo_externalDocs operationObject;
             operationId := oo_operationId operationObject;
             parameters := parameters;
             responses := responses;
             m_deprecated := default false (oo_deprecated operationObject);
             servers := operationServers |})%eff.

(** The body of [for (const rawPath of Object.keys(openapiDefinition.paths))]
    after [parsePath(rawPath)] *)
Definition runPath (servers : list Server) (rawPath : string) (path : Path)
  : Eff PathItemObject (list Method) :=
  (let* pathSummary := eread pi_summary in
   let* pathDescription := eread pi_description in
   let* pathServers' := eread (fun p => parseServers (pi_servers p)) in
   let* pathServers' := elift pathServers' in
   let pathServers := default servers pathServers' in
   let* pathParameters' := eread (fun p => parseParameters (pi_parameters p)) in
   let* pathParameters' := elift pathParameters' in
   let pathParameters := default [] pathParameters' in
   if negb (checkParameters pathParameters) then
     ethrow (Error "invalid path parameters")
   else
     forMethods
       (fun _ => runOperation path pathSummary pathDescription
                   pathServers pathParameters)
       httpMethods)%eff.

Definition run : Eff OpenAPIObject Model :=
  fun openapiDefinition =>
    (if negb (String.eqb (oa_openapi openapiDefinition) "3.0.0") then
       ethrow (Error ("this modeler is for OpenAPI 3.0.0, found "
                        +:+ oa_openapi openapiDefinition))
     else
       let* servers := elift (documentServers (oa_servers openapiDefinition)) in
       let* operations :=
         zoom oa_paths set_oa_paths
           (fun paths => forPaths (runPath servers) (Object_keys paths) paths) in
       eret {| operations := operations;
               model_tags := default [] (oa_tags openapiDefinition) |})%eff
      openapiDefinition.

(** [pushes doc rawPath item op m]: [m] is the method that [run] pushes for
    the operation [op] of the path item [item] at [rawPath] in [doc]. *)
Definition pushes (doc : OpenAPIObject) (rawPath : string) (item : PathItemObject)
  (op : OperationObject) (m : Method) : Prop :=
  exists servers path pathServers pathParameters op',
    documentServers (oa_servers doc) = Ok servers
    /\ parsePath rawPath = Ok path
    /\ parseServers (pi_servers item) = Ok pathServers
    /\ parseParameters (pi_parameters item) = Ok pathParameters
    /\ runOperation path (pi_summary item) (pi_description item)
         (default servers pathServers) (default [] pathParameters) op = (Ok m, op').

End ModelerA.

(** * The later draft of the modeler (formats, contents, security) *)

Module ModelerB.

Definition Schema := Json.

Record Format : Type := {
  style : Style;
  explode : bool
}.

(** [encoding] is the empty object in this draft ([// TODO]). *)
Record MediaTypeContent : Type := {
  schema : option Schema;
  examples : JsObject ExampleObject;
  encoding : JsObject Json
}.

Definition Content := JsObject MediaTypeContent.

Record ParameterBase : Type := {
  name : string;
  description : option string;
  required : bool;
  deprecated : bool;
  content : Content;
  format : Format
}.

Definition Header := ParameterBase.

(** [type Parameter = ParameterQuery | ParameterHeader | ParameterPath |
    ParameterCookie] ([Parameter] is a reserved word here) *)
Inductive Param : Type :=
| ParameterQuery (base : ParameterBase) (allowEmptyValue allowReserved : bool)
| ParameterHeader (base : ParameterBase)
| ParameterPath (base : ParameterBase)
| ParameterCookie (base : ParameterBase).

Definition base (p : Param) : ParameterBase :=
  match p with
  | ParameterQuery b _ _ | ParameterHeader b | ParameterPath b | ParameterCookie b => b
  end.

Definition location (p : Param) : Location :=
  match p with
  | ParameterQuery _ _ _ => in_query
  | ParameterHeader _ => in_header
  | ParameterPath _ => in_path
  | ParameterCookie _ => in_cookie
  end.

#[global] Instance Param_like : ParameterLike Param :=
  {| parameterName := fun p => name (base p); parameterLocation := location |}.

Record ParameterBody : Type := {
  body_description : option string;
  body_content : Content;
  body_required : bool
}.

Record SecurityRequirement : Type := {
  scheme : SecuritySchemeObject;
  scopes : list string
}.
Definition SecurityRequirements := list SecurityRequirement.
Definition SecurityRequirementsAlternatives := list SecurityRequirements.

Record Response : Type := {
  key : string;
  r_description : option string;
  headers : list Header
}.

Record Method : Type := {
  urlSuffix : Path;
  tags : list string;
  summary : option string;
  m_description : option string;
  externalDocs : option ExternalDocumentationObject;
  operationId : option string;
  parameters : list Param;
  requestBody : option ParameterBody;
  responses : list Response;
  m_deprecated : bool;
  security : SecurityRequirementsAlternatives;
  servers : list Server
}.

Record Model : Type := {
  operations : list Method;
  model_tags : list TagObject;
  info : InfoObject
}.

(** [keys(o)]: [Object.keys(o).filter(x => true)] *)
Definition keys {V} (o : JsObject V) : list string :=
  List.filter (fun _ => true) (Object_keys o).

(** [normalizeExamples(obj)], as a computation on [obj.examples] given
    [obj.example]: with a truthy [example] the entry of the empty key is
    written into the examples, which are the ones of the document when it
    declares some. *)
Definition normalizeExamples (example : option Json)
  : Eff (option (JsObject Json)) (JsObject ExampleObject) :=
  fun declared =>
    let examples := default [] declared in
    if truthyOpt example then
      let examples := setProp "" (JObject [("value", default JNull example)]) examples in
      (Ok examples, match declared with Some _ => Some examples | None => None end)
    else (Ok examples, declared).

Definition parseSchema (schema : SchemaObject) : Schema := schema.

Definition defaultStyle (location : Location) : Style :=
  if Location_eqb location in_query || Location_eqb location in_cookie
  then style_form else style_simple.

Definition normalizeFormat (location : Location)
  (obj_style : option Style) (obj_explode : option bool) : Format :=
  let style := default (defaultStyle location) obj_style in
  let explode := default false obj_explode || Style_eqb style style_form in
  {| style := style; explode := explode |}.

(** [normalizeExamples(content)] inside [parseContent]: the object given is
    the content map itself, whose property [examples] is the media type of
    that name, and [example] likewise. *)
Definition normalizeContentExamples : Eff ContentObject (JsObject ExampleObject) :=
  fun content =>
    zoom (getProp "examples")
         (fun v content =>
            match v with
            | Some examples => setProp "examples" examples content
            | None => content
            end)
         (normalizeExamples (option_map JObject (getProp "example" content)))
         content.

(** One round of [for (const mediaType of keys(content))] *)
Definition parseMediaType (mediaType : string) : Eff ContentObject MediaTypeContent :=
  (let* contentObj' := eread (getProp mediaType) in
   match contentObj' with
   | None => ethrow TypeError
   | Some contentObj =>
       let declared := getProp "schema" contentObj in
       let schema := parseSchema (if truthyOpt declared then default JNull declared
                                  else JObject []) in
       let* examples := normalizeContentExamples in
       eret {| schema := Some schema; encoding := []; examples := examples |}
   end)%eff.

Fixpoint parseContentLoop (mediaTypes : list string) (result : Content)
  : Eff ContentObject Content :=
  match mediaTypes with
  | [] => eret result
  | mediaType :: rest =>
      (let* entry := parseMediaType mediaType in
       parseContentLoop rest (setProp mediaType entry result))%eff
  end.

Definition parseContent : Eff ContentObject Content :=
  fun content => parseContentLoop (keys content) [] content.

Definition parseParameterBase : Eff ParameterObject ParameterBase :=
  fun parameter =>
    let location := po_in parameter in
    let f := po_fields parameter in
    if Location_eqb location in_path && negb (default false (pf_required f)) then
      (Throw (Error "expected required=true on path parameter"), parameter)
    else
      let style := default (defaultStyle location) (pf_style f) in
      let explode := default false (pf_explode f) || Style_eqb style style_form in
      (let* examples :=
         zoom po_fields set_po_fields
           (zoom pf_examples set_pf_examples (normalizeExamples (pf_example f))) in
       let* content :=
         zoom po_fields set_po_fields
           (fun f =>
              match pf_content f with
              | Some declared =>
                  let '(r, declared') := parseContent declared in
                  (r, set_pf_content (Some declared') f)
              | None => (Ok [], f)
              end) in
       let content :=
         setProp ""
           {| schema := if truthyOpt (pf_schema f)
                        then option_map parseSchema (pf_schema f) else None;
              examples := examples;
              encoding := [] |} content in
       eret {| name := po_name parameter;
               description := pf_description f;
               required := default false (pf_required f);
               deprecated := default false (pf_deprecated f);
               content := content;
               format := {| style := style; explode := explode |} |})%eff parameter.

(** [parseHeader(name, header)] writes [name] and [in] into the header
    object of the document before it parses it. *)
Definition parseHeader (name : string) : Eff HeaderObject Header :=
  fun headerObject =>
    let param := {| po_name := name; po_in := in_header;
                    po_fields := ho_fields headerObject |} in
    let '(r, param') := parseParameterBase param in
    (r, {| ho_name := Some name; ho_in := Some in_header;
           ho_fields := po_fields param' |}).

Definition parseParameter : Eff ParameterObject Param :=
  fun parameter =>
    let location := po_in parameter in
    (let* base := parseParameterBase in
     eret match location with
          | in_query =>
              ParameterQuery base
                (default false (pf_allowEmptyValue (po_fields parameter)))
                (default false (pf_allowReserved (po_fields parameter)))
          | in_header => ParameterHeader base
          | in_path => ParameterPath base
          | in_cookie => ParameterCookie base
          end)%eff parameter.

Definition parseParameters : Eff (option (list ParameterObject)) (option (list Param)) :=
  fun parameters =>
    match parameters with
    | Some parameters =>
        let '(r, parameters') := mapElements parseParameter parameters in
        ((let* r := r in Ok (Some r))%result, Some parameters')
    | None => (Ok None, None)
    end.

(** The inner loop of [parseSecurityRequirements] *)
Definition parseSecurityRequirement
  (securitySchemes : JsObject SecuritySchemeObject) (sec : SecurityRequirementObject)
  : result SecurityRequirements :=
  mapR (fun name =>
          let securityScheme := getProp name securitySchemes in
          if negb (truthyOpt securityScheme) then
            Throw (Error ("security scheme '" +:+ name +:+ "' not found"))
          else
            Ok {| scheme := default JNull securityScheme;
                  scopes := default [] (getProp name sec) |})
       (keys sec).

Definition parseSecurityRequirements
  (securitySchemes : JsObject SecuritySchemeObject)
  (security : option (list SecurityRequirementObject))
  : result (option SecurityRequirementsAlternatives) :=
  match security with
  | None => Ok None
  | Some security =>
      (let* securityAlternatives :=
         mapR (parseSecurityRequirement securitySchemes) security in
       Ok (Some securityAlternatives))%result
  end.

(** One round of [for (let responseKey of responseKeys)] *)
Definition parseResponse (responseKey : string) : Eff ResponsesObject Response :=
  let declaredKey := responseKey in
  let responseKey := normalizeResponseKey responseKey in
  if negb (matchesStatusPattern responseKey) then
    ethrow (Error ("invalid HTTP status code pattern '" +:+ responseKey +:+ "'"))
  else
    atKey declaredKey
      (let* headersAsParams :=
         onHeaders (fun headers =>
           mapEff (fun name => atKey name (parseHeader name))
                  (keys headers) headers) in
       let* description := eread ro_description in
       eret {| key := responseKey;
               r_description := description;
               headers := headersAsParams |})%eff.

(** The block [// responses]: the loop and the sort. *)
Definition parseResponses : Eff ResponsesObject (list Response) :=
  fun responsesObject =>
    (let* responses := mapEff parseResponse (keys responsesObject) in
     eret (sortBy (fun a b => Nat.leb (wildcards (key a)) (wildcards (key b))) responses))%eff
      responsesObject.

(** The block [// request body] *)
Definition parseRequestBody : Eff OperationObject (option ParameterBody) :=
  fun operationObject =>
    match oo_requestBody operationObject with
    | Some body =>
        let '(r, declared') := parseContent (rb_content body) in
        ((let* content := r in
          Ok (Some {| body_description := rb_description body;
                      body_content := content;
                      body_required := default false (rb_required body) |}))%result,
         set_oo_requestBody (Some (set_rb_content declared' body)) operationObject)
    | None => (Ok None, operationObject)
    end.

(** The body of [if (operationObject)] *)
Definition runOperation
  (securitySchemes : JsObject SecuritySchemeObject)
  (security : SecurityRequirementsAlternatives)
  (path : Path)
  (pathSummary pathDescription : option string)
  (pathServers : list Server) (pathParameters : list Param)
  : Eff OperationObject Method :=
  (let* operationServers' := eread (fun o => parseServers (oo_servers o)) in
   let* operationServers' := elift operationServers' in
   let operationServers := default pathServers operationServers' in
   let* operationParameters' := zoom oo_parameters set_oo_parameters parseParameters in
   let operationParameters := default [] operationParameters' in
   if negb (checkParameters pathParameters) then
     ethrow (Error "invalid operation parameters")
   else
     let parameters := mergeParameters pathParameters operationParameters in
     let* _ := elift (validatePathParameters parameters path) in
     let* requestBody := parseRequestBody in
     let* operationSecurity' :=
       eread (fun o => parseSecurityRequirements securitySchemes (oo_security o)) in
     let* operationSecurity' := elift operationSecurity' in
     let operationSecurity := default security operationSecurity' in
     let* responses := zoom oo_responses set_oo_responses parseResponses in
     let* operationObject := eread id in
     eret {| urlSuffix := path;
             tags := default [] (oo_tags operationObject);
             summary := orElseString (oo_summary operationObject) pathSummary;
             m_description := orElseString (oo_description operationObject) pathDescription;
             externalDocs := oo_externalDocs operationObject;
             operationId := oo_operationId operationObject;
             parameters := parameters;
             requestBody := requestBody;
             responses := responses;
             m_deprecated := default false (oo_deprecated operationObject);
             security := operationSecurity;
             servers := operationServers |})%eff.

(** The body of [for (const rawPath of keys(openapiDefinition.paths))] after
    [parsePath(rawPath)] *)
Definition runPath
  (securitySchemes : JsObject SecuritySchemeObject)
  (security : SecurityRequirementsAlternatives)
  (servers : list Server) (rawPath : string) (path : Path)
  : Eff PathItemObject (list Method) :=
  (let* pathSummary := eread pi_summary in
   let* pathDescription := eread pi_description in
   let* pathServers' := eread (fun p => parseServers (pi_servers p)) in
   let* pathServers' := elift pathServers' in
   let pathServers := default servers pathServers' in
   let* pathParameters' := zoom pi_parameters set_pi_parameters parseParameters in
   let pathParameters := default [] pathParameters' in
   if negb (checkParameters pathParameters) then
     ethrow (Error "invalid path parameters")
   else
     forMethods
       (fun _ => runOperation securitySchemes security path
                   pathSummary pathDescription pathServers pathParameters)
       httpMethods)%eff.

Definition run : Eff OpenAPIObject Model :=
  fun openapiDefinition =>
    (if negb (String.eqb (oa_openapi openapiDefinition) "3.0.0") then
       ethrow (Error ("this modeler is for OpenAPI 3.0.0, found "
                        +:+ oa_openapi openapiDefinition))
     else
       let securitySchemes :=
         default [] (co_securitySchemes (oa_components openapiDefinition)) in
       let* servers := elift (documentServers (oa_servers openapiDefinition)) in
       let* security' :=
         elift (parseSecurityRequirements securitySchemes (oa_security openapiDefinition)) in
       let security := default [] security' in
       let* operations :=
         zoom oa_paths set_oa_paths
           (fun paths => forPaths (runPath securitySchemes security servers)
                           (keys paths) paths) in
       eret {| operations := operations;
               model_tags := default [] (oa_tags openapiDefinition);
               info := oa_info openapiDefinition |})%eff
      openapiDefinition.

(** [pushes doc rawPath item op m]: [m] is the method that [run] pushes for
    the operation [op] of the path item [item] at [rawPath] in [doc]. *)
Definition pushes (doc : OpenAPIObject) (rawPath : string) (item : PathItemObject)
  (op : OperationObject) (m : Method) : Prop :=
  exists servers security path pathServers pathParameters parameters' op',
    documentServers (oa_servers doc) = Ok servers
    /\ parseSecurityRequirements
         (default [] (co_securitySchemes (oa_components doc))) (oa_security doc)
       = Ok security
    /\ parsePath rawPath = Ok path
    /\ parseServers (pi_servers item) = Ok pathServers
    /\ parseParameters (pi_parameters item) = (Ok pathParameters, parameters')
    /\ runOperation (default [] (co_securitySchemes (oa_components doc)))
         (default [] security) path (pi_summary item) (pi_description item)
         (default servers pathServers) (default [] pathParameters) op = (Ok m, op').

End ModelerB.

(** * The reference resolver ([object-resolver]) *)

Module Resolver.

(** The object graph [resolve] works on is a store of objects with
    identity: two places of the graph can hold the same object, and after a
    resolution they do.  Arrays are objects whose elements are the
    properties of their index keys.  Only own data properties are
    modelled (no prototype members, no [length]). *)
Definition loc := positive.

Inductive value : Type :=
| VUndefined
| VNull
| VBoolean (b : bool)
| VNumber (n : Z)
| VString (s : string)
| VObject (l : loc).

Record object : Type := {
  isArray : bool;
  props : JsObject value
}.

(** The store and the variable [$] of [resolve]. *)
Record state : Type := {
  st_heap : gmap loc object;
  st_root : value
}.

(** An element of the result of [nodes]: [hit.path] without its first
    element [$], an array index spelled as the property key it is, and
    [hit.value]. *)
Record hit : Type := {
  hit_path : list string;
  hit_value : value
}.

(** [v[k]] *)
Definition getMember (h : gmap loc object) (v : value) (k : string) : result value :=
  match v with
  | VUndefined | VNull => Throw TypeError
  | VObject l =>
      match h !! l with
      | Some o => Ok (default VUndefined (getProp k (props o)))
      | None => Throw TypeError
      end
  | _ => Ok VUndefined
  end.

(** [v[k] = x] in strict code *)
Definition setMember (h : gmap loc object) (v : value) (k : string) (x : value)
  : result (gmap loc object) :=
  match v with
  | VObject l =>
      match h !! l with
      | Some o => Ok (<[l := {| isArray := isArray o; props := setProp k x (props o) |}]> h)
      | None => Throw TypeError
      end
  | _ => Throw TypeError
  end.

(** The value of the expression [$[k1][k2]...] *)
Fixpoint evalPath (h : gmap loc object) (v : value) (ks : list string) : result value :=
  match ks with
  | [] => Ok v
  | k :: ks' => (let* v' := getMember h v k in evalPath h v' ks')%result
  end.

(** The array object of the literal [JSON.stringify(parts)] *)
Definition arrayOfStrings (parts : list string) : object :=
  {| isArray := true;
     props := imap (fun i part => (pretty i, VString part)) parts |}.

(** [s.replace(/ab/g, c)] for the two-character pattern [ab] *)
Fixpoint replaceAll (a b : ascii) (c : ascii) (s : string) : string :=
  match s with
  | EmptyString => EmptyString
  | String x s' =>
      match s' with
      | String y rest =>
          if Ascii.eqb x a && Ascii.eqb y b then String c (replaceAll a b c rest)
          else String x (replaceAll a b c s')
      | EmptyString => s
      end
  end.

(** [part.replace(/~1/g, "/").replace(/~0/g, "~")] *)
Definition decodePart (part : string) : string :=
  replaceAll "~" "0" "~" (replaceAll "~" "1" "/" part).

(** [eval(`${sourcePath}.$path = ${JSON.stringify(sourceRefPartsDecoded)}`)] *)
Definition evalTagSource (sourceRefPartsDecoded : list string) : Eff state unit :=
  fun st =>
    match evalPath (st_heap st) (st_root st) sourceRefPartsDecoded with
    | Throw e => (Throw e, st)
    | Ok source =>
        let l := fresh (dom (st_heap st)) in
        let h := <[l := arrayOfStrings sourceRefPartsDecoded]> (st_heap st) in
        match setMember h source "$path" (VObject l) with
        | Throw e => (Throw e, st)
        | Ok h' => (Ok tt, {| st_heap := h'; st_root := st_root st |})
        end
    end.

(** [eval(`${targetPath} = ${sourcePath}`)] *)
Definition evalAssign (targetPath sourceRefPartsDecoded : list string) : Eff state unit :=
  fun st =>
    let h := st_heap st in
    match List.rev targetPath with
    | [] =>
        match evalPath h (st_root st) sourceRefPartsDecoded with
        | Throw e => (Throw e, st)
        | Ok source => (Ok tt, {| st_heap := h; st_root := source |})
        end
    | k :: parent =>
        match evalPath h (st_root st) (List.rev parent) with
        | Throw e => (Throw e, st)
        | Ok target =>
            match evalPath h (st_root st) sourceRefPartsDecoded with
            | Throw e => (Throw e, st)
            | Ok source =>
                match setMember h target k source with
                | Throw e => (Throw e, st)
                | Ok h' => (Ok tt, {| st_heap := h'; st_root := st_root st |})
                end
            end
        end
    end.

(** The body of [for (const hit of nodes(...))] *)
Definition resolveHit (hit : hit) : Eff state unit :=
  fun st =>
    match getMember (st_heap st) (hit_value hit) "$ref" with
    | Ok (VString sourceRef) =>
        let targetPath := hit_path hit in
        let '(first, sourceRefParts) := shift (split "/" sourceRef) in
        if negb (startsWith (or_empty first) "#") then
          (Throw (Error "invalid syntax of local reference"), st)
        else
          let sourceRefPartsDecoded := map decodePart sourceRefParts in
          (let* _ := evalTagSource sourceRefPartsDecoded in
           evalAssign targetPath sourceRefPartsDecoded)%eff st
    | Ok _ => (Throw TypeError, st)
    | Throw e => (Throw e, st)
    end.

Fixpoint resolveHits (hits : list hit) : Eff state unit :=
  match hits with
  | [] => eret tt
  | hit :: rest => (let* _ := resolveHit hit in resolveHits rest)%eff
  end.

(** [resolve($)]; [nodes] is the query [nodes($, "$..*[?(@.$ref)]")] of the
    jsonpath package. *)
Definition resolve (nodes : gmap loc object -> value -> result (list hit)) : Eff state unit :=
  fun st =>
    match nodes (st_heap st) (st_root st) with
    | Throw e => (Throw e, st)
    | Ok hits => resolveHits hits st
    end.

(** The objects of the graph: what can be reached from a value. *)
Inductive reachable (h : gmap loc object) : value -> loc -> Prop :=
| reachable_here (l : loc) : reachable h (VObject l) l
| reachable_member (l : loc) (o : object) (k : string) (v : value) (l' : loc) :
    h !! l = Some o ->
    getProp k (props o) = Some v ->
    reachable h v l' ->
    reachable h (VObject l) l'.

(** An object that has a [$ref] property. *)
Definition carriesRef (h : gmap loc object) (v : value) : bool :=
  match v with
  | VObject l =>
      match h !! l with
      | Some o => match getProp "$ref" (props o) with Some _ => true | None => false end
      | None => false
      end
  | _ => false
  end.

(** What the resolver relies on from the query: each hit is an object of
    the graph that has a [$ref] property. *)
Definition nodesSound (nodes : gmap loc object -> value -> result (list hit)) : Prop :=
  forall h root hits x,
    nodes h root = Ok hits -> In x hits ->
    carriesRef h (hit_value x) = true /\
    exists l, hit_value x = VObject l /\ reachable h root l.

(** Modelled from the spec: the [nodes] function of the jsonpath package is
    not part of the sources.  The specification has the resolver traverse
    the entire graph and collect every descendant node that carries a
    [$ref] field; this traversal visits the members of an object in the
    order of [Object.keys] and gives up with a [RangeError] when the
    nesting is deeper than [depth] (a graph with a cycle, or the end of the
    call stack). *)
Fixpoint collectRefs (depth : nat) (h : gmap loc object) (path : list string) (v : value)
  : result (list hit) :=
  match depth with
  | O => Throw RangeError
  | S depth' =>
      match v with
      | VObject l =>
          match h !! l with
          | Some o =>
              let members :=
                map (fun k => (k, default VUndefined (getProp k (props o))))
                    (Object_keys (props o)) in
              let here :=
                map (fun '(k, child) => {| hit_path := path ++ [k]; hit_value := child |})
                    (List.filter (fun '(_, child) => carriesRef h child) members) in
              (let* below :=
                 mapR (fun '(k, child) => collectRefs depth' h (path ++ [k]) child) members in
               Ok (here ++ concat below))%result
          | None => Ok []
          end
      | _ => Ok []
      end
  end.

Definition nodes (depth : nat) (h : gmap loc object) (root : value) : result (list hit) :=
  collectRefs depth h [] root.

End Resolver.

(** ** Auxiliary definitions of the proofs *)

(** The parts of a template after its first opening brace, each with the
    brace that [split] removed in front of it. *)
Fixpoint openParts (parts : list string) : string :=
  match parts with
  | [] => ""
  | part :: rest => "{" +:+ part +:+ openParts rest
  end.

(** The keys of the responses of an operation in the order in which the
    document declares them. *)
Definition declaredResponseKeys (op : OperationObject) : list string :=
  map fst (oo_responses op).

(** Ascending numeric order of two array-index keys. *)
Definition indexLe (a b : string) : Prop :=
  exists m n, arrayIndex a = Some m /\ arrayIndex b = Some n /\ (m <= n)%N.

(** Two lists of keys have the keys of each number of wildcards in the same
    relative order. *)
Definition sameOrderPerWildcards (final declared : list string) : Prop :=
  forall n, List.filter (fun k => Nat.eqb (wildcards k) n) final
            = List.filter (fun k => Nat.eqb (wildcards k) n) declared.

(** The exception of the path/parameter cross-check. *)
Definition mismatch : exn := Error "path parameters mismatch".

(** Every exception that a computation can end with satisfies [Q]. *)
Definition throwsOnly {S A} (Q : exn -> Prop) (m : Eff S A) : Prop :=
  forall s e s', m s = (Throw e, s') -> Q e.

(** A computation leaves the object [s] as it is. *)
Definition keeps {S A} (m : Eff S A) (s : S) : Prop := snd (m s) = s.

(** ** Documents into which [run] writes nothing

    [run] writes [name] and [in] into the header objects of the responses,
    and the entry of the empty key into an [examples] object that stands
    next to a truthy [example].  A document is quiet when every response
    header carries its key as [name] and [header] as [in] already (as when
    no response declares a header), and no [examples] stands next to a
    truthy [example]: in a parameter, in a header, or, for [parseContent],
    as the media types of these two names in a content map. *)

Definition isSome {A} (v : option A) : bool :=
  match v with Some _ => true | None => false end.

Definition quietContent (content : ContentObject) : bool :=
  negb (isSome (getProp "examples" content) && isSome (getProp "example" content)).

Definition quietFields (f : ParameterFields) : bool :=
  negb (isSome (pf_examples f) && truthyOpt (pf_example f))
  && match pf_content f with
     | Some content => quietContent content
     | None => true
     end.

Definition quietParameters (parameters : option (list ParameterObject)) : bool :=
  match parameters with
  | Some parameters => forallb (fun p => quietFields (po_fields p)) parameters
  | None => true
  end.

Definition quietHeader (name : string) (h : HeaderObject) : bool :=
  match ho_name h, ho_in h with
  | Some n, Some in_header => String.eqb n name
  | _, _ => false
  end && quietFields (ho_fields h).

Definition quietResponse (r : ResponseObject) : bool :=
  match ro_headers r with
  | Some headers => forallb (fun '(name, h) => quietHeader name h) headers
  | None => true
  end.

Definition quietOperation (op : OperationObject) : bool :=
  quietParameters (oo_parameters op)
  && match oo_requestBody op with
     | Some body => quietContent (rb_content body)
     | None => true
     end
  && forallb (fun '(_, r) => quietResponse r) (oo_responses op).

Definition quietPathItem (item : PathItemObject) : bool :=
  quietParameters (pi_parameters item)
  && forallb (fun httpMethod =>
                match getOperation httpMethod item with
                | Some op => quietOperation op
                | None => true
                end) httpMethods.

Definition quietDocument (doc : OpenAPIObject) : bool :=
  forallb (fun '(_, item) => quietPathItem item) (oa_paths doc).

(** Reading a JSON string back: the code unit that starts [s] when [s] goes
    on from inside a string literal, and what follows it; [None] at the
    closing quote. *)
Definition unhex (c : ascii) : N :=
  let n := N_of_ascii c in
  if (n <? 58)%N then (n - 48)%N else (n - 87)%N.

Definition readChar (s : string) : option (ascii * string) :=
  match s with
  | EmptyString => None
  | String c rest =>
      if Ascii.eqb c quoteChar then None
      else if Ascii.eqb c backslash then
        match rest with
        | String d rest' =>
            if Ascii.eqb d "u" then
              match rest' with
              | String _ (String _ (String h (String l rest''))) =>
                  Some (ascii_of_N (16 * unhex h + unhex l), rest'')
              | _ => None
              end
            else if Ascii.eqb d "b" then Some (ascii_of_N 8, rest')
            else if Ascii.eqb d "f" then Some (ascii_of_N 12, rest')
            else if Ascii.eqb d "n" then Some (ascii_of_N 10, rest')
            else if Ascii.eqb d "r" then Some (ascii_of_N 13, rest')
            else if Ascii.eqb d "t" then Some (ascii_of_N 9, rest')
            else Some (d, rest')
        | EmptyString => None
        end
      else Some (c, rest)
  end.

(** The (name, location) pair that the key of a parameter spells. *)
Definition keyPair {P : Type} `{ParameterLike P} (p : P) : string * Location :=
  (parameterName p, parameterLocation p).

(** ** Sample documents *)

Definition sampleFields : ParameterFields :=
  {| pf_description := None; pf_required := None; pf_deprecated := None;
     pf_allowEmptyValue := None; pf_style := None; pf_explode := None;
     pf_allowReserved := None; pf_schema := None; pf_examples := None;
     pf_example := None; pf_content := None |}.

Definition sampleParameter (name : string) (location : Location) (required : option bool)
  : ParameterObject :=
  {| po_name := name; po_in := location;
     po_fields :=
       {| pf_description := None; pf_required := required; pf_deprecated := None;
          pf_allowEmptyValue := None; pf_style := None; pf_explode := None;
          pf_allowReserved := None; pf_schema := None; pf_examples := None;
          pf_example := None; pf_content := None |} |}.

Definition sampleResponse (headers : option HeadersObject) : ResponseObject :=
  {| ro_description := None; ro_headers := headers;
     ro_content := None; ro_links := None |}.

Definition sampleOperation (parameters : option (list ParameterObject))
  (responses : ResponsesObject) (servers : option (list ServerObject)) : OperationObject :=
  {| oo_tags := None; oo_summary := None; oo_description := None;
     oo_externalDocs := None; oo_operationId := None;
     oo_parameters := parameters; oo_requestBody := None;
     oo_responses := responses; oo_callbacks := None; oo_deprecated := None;
     oo_security := None; oo_servers := servers |}.

(** A path item with the one operation [get]. *)
Definition samplePathItem (parameters : option (list ParameterObject))
  (servers : option (list ServerObject)) (get : OperationObject) : PathItemObject :=
  {| pi_ref := None; pi_summary := None; pi_description := None;
     pi_get := Some get; pi_put := None; pi_post := None; pi_delete := None;
     pi_options := None; pi_head := None; pi_patch := None; pi_trace := None;
     pi_servers := servers; pi_parameters := parameters |}.

Definition sampleDocument (paths : PathObject) : OpenAPIObject :=
  {| oa_openapi := "3.0.0"; oa_info := JObject [("title", JString "sample")];
     oa_servers := None; oa_paths := paths;
     oa_components := {| co_securitySchemes := None; co_others := [] |};
     oa_security := None; oa_tags := None; oa_externalDocs := None |}.

(** [GET /search] declares the query parameter [q] twice. *)
Definition duplicateOperation : OperationObject :=
  sampleOperation
    (Some [sampleParameter "q" in_query None; sampleParameter "q" in_query None])
    [("200", sampleResponse None)] None.

Definition duplicateDocument : OpenAPIObject :=
  sampleDocument [("/search", samplePathItem None None duplicateOperation)].

(** [GET /limits] answers [200] with the header [X-Rate-Limit]. *)
Definition headerOperation : OperationObject :=
  sampleOperation None
    [("200", sampleResponse
               (Some [("X-Rate-Limit",
                       {| ho_name := None; ho_in := None; ho_fields := sampleFields |})]))]
    None.

Definition headerDocument : OpenAPIObject :=
  sampleDocument [("/limits", samplePathItem None None headerOperation)].

(** [GET /pets] declares its responses in the order [404], [default], [200],
    [2XX]. *)
Definition statusOperation : OperationObject :=
  sampleOperation None
    [("404", sampleResponse None); ("default", sampleResponse None);
     ("200", sampleResponse None); ("2XX", sampleResponse None)] None.

Definition statusPathItem : PathItemObject := samplePathItem None None statusOperation.

Definition statusDocument : OpenAPIObject := sampleDocument [("/pets", statusPathItem)].

(** [GET /pets/{id}] with the path parameter [id]. *)
Definition petOperation : OperationObject :=
  sampleOperation (Some [sampleParameter "id" in_path (Some true)])
    [("200", sampleResponse None)] None.

Definition petPathItem : PathItemObject := samplePathItem None None petOperation.

Definition petDocument : OpenAPIObject := sampleDocument [("/pets/{id}", petPathItem)].

(** [GET /ping] declares an empty list of servers. *)
Definition noServersOperation : OperationObject :=
  sampleOperation None [("200", sampleResponse None)] (Some []).

Definition noServersPathItem : PathItemObject := samplePathItem None None noServersOperation.

Definition noServersDocument : OpenAPIObject :=
  sampleDocument [("/ping", noServersPathItem)].

(** The path template [/pets/{id}] without a declared parameter. *)
Definition undeclaredOperation : OperationObject :=
  sampleOperation None [("200", sampleResponse None)] None.

Definition undeclaredDocument : OpenAPIObject :=
  sampleDocument [("/pets/{id}", samplePathItem None None undeclaredOperation)].

(** The query parameter [tags] with [explode: false]. *)
Definition explodeFalseParameter : ParameterObject :=
  {| po_name := "tags"; po_in := in_query;
     po_fields :=
       {| pf_description := None; pf_required := None; pf_deprecated := None;
          pf_allowEmptyValue := None; pf_style := None; pf_explode := Some false;
          pf_allowReserved := None; pf_schema := None; pf_examples := None;
          pf_example := None; pf_content := None |} |}.

(** The exception of the resolver for a reference that is not local. *)
Definition notLocal : exn := Error "invalid syntax of local reference".

(** A graph  { paths: { pet: { $ref: "other.yaml#/Pet" } } }  and a graph
    without any reference  { openapi: "3.0.0", info: { title: "sample" } }. *)
Definition remoteRefHeap : gmap Resolver.loc Resolver.object :=
  <[1%positive := {| Resolver.isArray := false;
                     Resolver.props := [("paths", Resolver.VObject 2%positive)] |}]>
  (<[2%positive := {| Resolver.isArray := false;
                      Resolver.props := [("pet", Resolver.VObject 3%positive)] |}]>
  (<[3%positive := {| Resolver.isArray := false;
                      Resolver.props := [("$ref", Resolver.VString "other.yaml#/Pet")] |}]>
   ∅)).

Definition remoteRefState : Resolver.state :=
  {| Resolver.st_heap := remoteRefHeap; Resolver.st_root := Resolver.VObject 1%positive |}.

Definition plainHeap : gmap Resolver.loc Resolver.object :=
  <[1%positive := {| Resolver.isArray := false;
                     Resolver.props := [("openapi", Resolver.VString "3.0.0");
                                        ("info", Resolver.VObject 2%positive)] |}]>
  (<[2%positive := {| Resolver.isArray := false;
                      Resolver.props := [("title", Resolver.VString "sample")] |}]>
   ∅).

Definition plainState : Resolver.state :=
  {| Resolver.st_heap := plainHeap; Resolver.st_root := Resolver.VObject 1%positive |}.

(** * Further definitions

    What the later properties of the code are stated with: the templates
    that [parsePath] accepts, declared URLs, the last declaration of a key,
    placeholder names, the shape of the responses, and the earlier draft of
    the modeler. *)

(** [s.includes(c)] for a character [c] *)
Fixpoint hasChar (c : ascii) (s : string) : bool :=
  match s with
  | EmptyString => false
  | String x s' => Ascii.eqb x c || hasChar c s'
  end.

(** A component as [parsePath] returns them: a constant is not empty and has
    no opening brace, a parameter name is not empty and has no brace. *)
Definition properComponent (x : PathComponent) : bool :=
  match x with
  | PathComponentConstant value =>
      negb (String.eqb value "") && negb (hasChar "{" value)
  | PathComponentParameter name =>
      negb (String.eqb name "") && negb (hasChar "{" name) && negb (hasChar "}" name)
  end.

(** Where a reader of a template stands: before the first opening brace,
    inside a placeholder after [n] characters of its name, or after a
    placeholder. *)
Inductive TemplatePosition : Type :=
| BeforePlaceholders
| InsidePlaceholder (n : nat)
| AfterPlaceholder.

(** The templates that [parsePath] accepts, read from the left: every
    opening brace starts a placeholder, which a closing brace ends after a
    name that is not empty; after the first placeholder a closing brace
    stands nowhere else. *)
Fixpoint acceptedFrom (position : TemplatePosition) (s : string) : bool :=
  match s with
  | EmptyString =>
      match position with InsidePlaceholder _ => false | _ => true end
  | String c s' =>
      if Ascii.eqb c "{" then
        match position with
        | InsidePlaceholder _ => false
        | _ => acceptedFrom (InsidePlaceholder 0) s'
        end
      else if Ascii.eqb c "}" then
        match position with
        | BeforePlaceholders => acceptedFrom BeforePlaceholders s'
        | InsidePlaceholder n => negb (Nat.eqb n 0) && acceptedFrom AfterPlaceholder s'
        | AfterPlaceholder => false
        end
      else
        match position with
        | InsidePlaceholder n => acceptedFrom (InsidePlaceholder (S n)) s'
        | _ => acceptedFrom position s'
        end
  end.

Definition acceptedTemplate (t : string) : bool := acceptedFrom BeforePlaceholders t.

(** The URLs of the servers that apply to an operation: the ones it
    declares, else the ones its path item declares, else the ones of the
    document, else [/]. *)
Definition declaredServerUrls (doc : OpenAPIObject) (item : PathItemObject)
  (op : OperationObject) : list string :=
  match oo_servers op with
  | Some servers => map so_url servers
  | None =>
      match pi_servers item with
      | Some servers => map so_url servers
      | None =>
          match oa_servers doc with
          | Some (server :: servers) => map so_url (server :: servers)
          | _ => ["/"]
          end
      end
  end.

(** The URL that a parsed server stands for. *)
Definition serverUrl (server : Server) : string := renderPath (urlPrefix server).

(** [GET /ping], which declares no servers, in a document with the server
    [https://example.org/{stage}]. *)
Definition exampleServer : ServerObject :=
  {| so_url := "https://example.org/{stage}"; so_description := None;
     so_variables := None |}.

Definition pingPathItem : PathItemObject := samplePathItem None None undeclaredOperation.

Definition serverDocument : OpenAPIObject :=
  {| oa_openapi := "3.0.0"; oa_info := JObject [("title", JString "sample")];
     oa_servers := Some [exampleServer];
     oa_paths := [("/ping", pingPathItem)];
     oa_components := {| co_securitySchemes := None; co_others := [] |};
     oa_security := None; oa_tags := None; oa_externalDocs := None |}.

#[global] Instance Location_eq_dec : EqDecision Location.
Proof. solve_decision. Defined.

(** The last parameter of [parameters] that has the key of [q]. *)
Definition lastWithKey {P : Type} `{ParameterLike P} (q : P) (parameters : list P)
  : option P :=
  List.find (sameKey q) (List.rev parameters).

Definition modelParameter (name : string) (location : Location) (required : bool)
  : ModelerA.Param :=
  {| ModelerA.name := name; ModelerA.location := location;
     ModelerA.description := None; ModelerA.required := required;
     ModelerA.deprecated := false; ModelerA.locationQueryAllowEmptyValue := None;
     ModelerA.content := [] |}.

Definition mergePathParameters : list ModelerA.Param :=
  [modelParameter "limit" in_query true; modelParameter "id" in_path true].

Definition mergeOperationParameters : list ModelerA.Param :=
  [modelParameter "limit" in_query false; modelParameter "tag" in_query false;
   modelParameter "limit" in_query true; modelParameter "tag" in_query true].

(** The names of the placeholders of a parsed template, from the left. *)
Definition placeholderNames (path : Path) : list string :=
  omap (fun x => match x with
                 | PathComponentParameter name => Some name
                 | PathComponentConstant _ => None
                 end) path.

(** The names of the parameters of location [path], in the order of the
    list. *)
Definition pathParameterNames {P : Type} `{ParameterLike P} (parameters : list P)
  : list string :=
  map parameterName
    (List.filter (fun x => Location_eqb (parameterLocation x) in_path) parameters).

(** What the writes of [run] leave alone in a response object: its
    description and the keys of its headers. *)
Definition responseShape (responseObject : ResponseObject)
  : option string * option (list string) :=
  (ro_description responseObject, option_map (map fst) (ro_headers responseObject)).

(** Two objects of responses with the same keys and, key by key, the same
    [responseShape]. *)
Definition sameResponses (a b : ResponsesObject) : Prop :=
  forall k, option_map responseShape (getProp k b) = option_map responseShape (getProp k a).

(** [parseSchema(contentObj.schema || {})] *)
Definition mediaTypeSchema (contentObj : MediaTypeObject) : ModelerB.Schema :=
  ModelerB.parseSchema
    (if truthyOpt (getProp "schema" contentObj)
     then default JNull (getProp "schema" contentObj) else JObject []).

(** The entry that [parseContent] makes for a media type, given the examples
    that [normalizeExamples] returned. *)
Definition mediaTypeEntry (examples : JsObject ExampleObject)
  (contentObj : MediaTypeObject) : ModelerB.MediaTypeContent :=
  {| ModelerB.schema := Some (mediaTypeSchema contentObj);
     ModelerB.examples := examples;
     ModelerB.encoding := [] |}.



(** [GET /open] declares [security: []] in a document whose requirement is
    the scheme [apiKey]; [GET /ping] declares none. *)
Definition openOperation : OperationObject :=
  {| oo_tags := None; oo_summary := Some ""; oo_description := None;
     oo_externalDocs := None; oo_operationId := Some "open";
     oo_parameters := None; oo_requestBody := None;
     oo_responses := [("200", sampleResponse None)]; oo_callbacks := None;
     oo_deprecated := None; oo_security := Some []; oo_servers := None |}.

Definition openPathItem : PathItemObject :=
  {| pi_ref := None; pi_summary := Some "Open endpoints"; pi_description := None;
     pi_get := Some openOperation; pi_put := None; pi_post := None; pi_delete := None;
     pi_options := None; pi_head := None; pi_patch := None; pi_trace := None;
     pi_servers := None; pi_parameters := None |}.

Definition securedDocument : OpenAPIObject :=
  {| oa_openapi := "3.0.0"; oa_info := JObject [("title", JString "sample")];
     oa_servers := None;
     oa_paths := [("/open", openPathItem); ("/ping", pingPathItem)];
     oa_components :=
       {| co_securitySchemes := Some [("apiKey", JObject [("type", JString "apiKey")])];
          co_others := [] |};
     oa_security := Some [[("apiKey", [])]];
     oa_tags := None; oa_externalDocs := None |}.

(** The number of operations that a path item declares. *)
Definition declaredOperations (item : PathItemObject) : nat :=
  List.length (List.filter (fun httpMethod => isSome (getOperation httpMethod item))
                 httpMethods).

(** The raw path of every operation of the document, in the order of the
    loops of [run]: path by path as [Object.keys] enumerates them. *)
Definition operationPaths (paths : PathObject) : list string :=
  flat_map (fun rawPath =>
              repeat rawPath
                (match getProp rawPath paths with
                 | Some item => declaredOperations item
                 | None => 0
                 end))
           (Object_keys paths).

(** [GET /pets] with a request body of the media type [application/json]. *)
Definition bodyOperation : OperationObject :=
  {| oo_tags := None; oo_summary := None; oo_description := None;
     oo_externalDocs := None; oo_operationId := None;
     oo_parameters := None;
     oo_requestBody :=
       Some {| rb_description := Some "a pet"; 
               rb_content := [("application/json",
                               [("schema", JObject [("type", JString "object")])])];
               rb_required := None |};
     oo_responses := [("200", sampleResponse None)]; oo_callbacks := None;
     oo_deprecated := None; oo_security := None; oo_servers := None |}.

Definition bodyPathItem : PathItemObject := samplePathItem None None bodyOperation.

Definition bodyDocument : OpenAPIObject := sampleDocument [("/pets", bodyPathItem)].

(** The reference token that stands for a property name in a JSON pointer:
    [~] is written [~0] and [/] is written [~1]. *)
Fixpoint escapePart (name : string) : string :=
  match name with
  | EmptyString => EmptyString
  | String c rest =>
      if Ascii.eqb c "~" then String "~" (String "0" (escapePart rest))
      else if Ascii.eqb c "/" then String "~" (String "1" (escapePart rest))
      else String c (escapePart rest)
  end.

(** An escaped name after the first replacement of [decodePart]: only the
    [~0] are left. *)
Fixpoint escapeTilde (name : string) : string :=
  match name with
  | EmptyString => EmptyString
  | String c rest =>
      if Ascii.eqb c "~" then String "~" (String "0" (escapeTilde rest))
      else String c (escapeTilde rest)
  end.

(** A value that is no dangling pointer: an object it names is in the
    store. *)
Definition closedValue (h : gmap Resolver.loc Resolver.object) (v : Resolver.value) : bool :=
  match v with
  | Resolver.VObject l => isSome (h !! l)
  | _ => true
  end.

(** A graph without dangling pointers. *)
Definition closedState (st : Resolver.state) : bool :=
  closedValue (Resolver.st_heap st) (Resolver.st_root st)
  && forallb (fun '(_, o) =>
                forallb (fun '(_, v) => closedValue (Resolver.st_heap st) v)
                        (Resolver.props o))
             (map_to_list (Resolver.st_heap st)).

(** A graph  { paths: { pet: { $ref: "#/components/Pet" } },
               components: { Pet: { type: "object" } } }. *)
Definition localRefHeap : gmap Resolver.loc Resolver.object :=
  <[1%positive := {| Resolver.isArray := false;
                     Resolver.props := [("paths", Resolver.VObject 2%positive);
                                        ("components", Resolver.VObject 4%positive)] |}]>
  (<[2%positive := {| Resolver.isArray := false;
                      Resolver.props := [("pet", Resolver.VObject 3%positive)] |}]>
  (<[3%positive := {| Resolver.isArray := false;
                      Resolver.props := [("$ref", Resolver.VString "#/components/Pet")] |}]>
  (<[4%positive := {| Resolver.isArray := false;
                      Resolver.props := [("Pet", Resolver.VObject 5%positive)] |}]>
  (<[5%positive := {| Resolver.isArray := false;
                      Resolver.props := [("type", Resolver.VString "object")] |}]>
   ∅)))).

Definition localRefState : Resolver.state :=
  {| Resolver.st_heap := localRefHeap; Resolver.st_root := Resolver.VObject 1%positive |}.





(** The document whose version is [2.0]. *)
Definition swaggerDocument : OpenAPIObject :=
  {| oa_openapi := "2.0"; oa_info := JObject [("title", JString "sample")];
     oa_servers := None; oa_paths := [];
     oa_components := {| co_securitySchemes := None; co_others := [] |};
     oa_security := None; oa_tags := None; oa_externalDocs := None |}.

(** * The earlier draft of the modeler (servers and parameters only)

    [modeler.ts] holds a second program: the modeler as it was before the
    path summaries, the cross-check of the path parameters, the responses and
    the tags were added.  Its types [Path], [Parameter] and [Server] and its
    functions [parsePath], [parseServer], [parseServers], [parseParameter],
    [parseParameters], [getParameterKey] and [checkParameters] are those of
    the first program, word for word, and so are the servers of the
    document and the merge of the parameters; their definitions are shared. *)

Module ModelerBasic.

Record Method : Type := {
  servers : list Server;
  urlSuffix : Path;
  parameters : list ModelerA.Param
}.

Record Model : Type := {
  operations : list Method
}.

(** The body of [if (operationObject)] *)
Definition runOperation (path : Path)
  (pathServers : list Server) (pathParameters : list ModelerA.Param)
  : Eff OperationObject Method :=
  (let* operationServers' := eread (fun o => parseServers (oo_servers o)) in
   let* operationServers' := elift operationServers' in
   let operationServers := default pathServers operationServers' in
   let* operationParameters' :=
     eread (fun o => ModelerA.parseParameters (oo_parameters o)) in
   let* operationParameters' := elift operationParameters' in
   let operationParameters := default [] operationParameters' in
   if negb (checkParameters pathParameters) then
     ethrow (Error "invalid operation parameters")
   else
     let parameters := mergeParameters pathParameters operationParameters in
     eret {| urlSuffix := path;
             servers := operationServers;
             parameters := parameters |})%eff.

(** The body of [for (const rawPath of Object.keys(openapiDefinition.paths))]
    after [parsePath(rawPath)] *)
Definition runPath (servers : list Server) (rawPath : string) (path : Path)
  : Eff PathItemObject (list Method) :=
  (let* pathServers' := eread (fun p => parseServers (pi_servers p)) in
   let* pathServers' := elift pathServers' in
   let pathServers := default servers pathServers' in
   let* pathParameters' := eread (fun p => ModelerA.parseParameters (pi_parameters p)) in
   let* pathParameters' := elift pathParameters' in
   let pathParameters := default [] pathParameters' in
   if negb (checkParameters pathParameters) then
     ethrow (Error "invalid path parameters")
   else
     forMethods
       (fun _ => runOperation path pathServers pathParameters)
       httpMethods)%eff.

Definition run : Eff OpenAPIObject Model :=
  fun openapiDefinition =>
    (if negb (String.eqb (oa_openapi openapiDefinition) "3.0.0") then
       ethrow (Error ("this modeler is for OpenAPI 3.0.0, found "
                        +:+ oa_openapi openapiDefinition))
     else
       let* servers := elift (documentServers (oa_servers openapiDefinition)) in
       let* operations :=
         zoom oa_paths set_oa_paths
           (fun paths => forPaths (runPath servers) (Object_keys paths) paths) in
       eret {| operations := operations |})%eff
      openapiDefinition.

End ModelerBasic.

(** What the earlier draft has of a method of [modeler.ts]. *)
Definition basicMethod (m : ModelerA.Method) : ModelerBasic.Method :=
  {| ModelerBasic.servers := ModelerA.servers m;
     ModelerBasic.urlSuffix := ModelerA.urlSuffix m;
     ModelerBasic.parameters := ModelerA.parameters m |}.

(** The exceptions of what [modeler.ts] added to the earlier draft: the
    cross-check of the path parameters and the responses with their headers. *)
Definition addedError (e : exn) : Prop :=
  e = Error "path parameters mismatch"
  \/ (exists key, e = Error ("invalid HTTP status code pattern '" +:+ key +:+ "'"))
  \/ e = Error "allowEmptyValue only allowed on query parameters".

(** The exceptions that [run] of the earlier draft ends with. *)
Definition ModelerBasic_error (e : exn) : Prop :=
  (exists version, e = Error ("this modeler is for OpenAPI 3.0.0, found " +:+ version))
  \/ e = Error "invalid path format"
  \/ e = Error "empty parameter names not allowed"
  \/ e = Error "allowEmptyValue only allowed on query parameters"
  \/ e = Error "expected required=true on path parameter"
  \/ e = Error "invalid path parameters".

(** [follows pr Q r r0]: the outcome [r0] is the outcome [r] seen through
    [pr], unless [r] is an exception of [Q]. *)
Definition follows {A B} (pr : A -> B) (Q : exn -> Prop) (r : result A) (r0 : result B)
  : Prop :=
  match r with
  | Ok a => r0 = Ok (pr a)
  | Throw e => Q e \/ r0 = Throw e
  end.

Definition optionRel {T} (R : T -> T -> Prop) (a b : option T) : Prop :=
  match a, b with
  | Some x, Some y => R x y
  | None, None => True
  | _, _ => False
  end.

(** Two states of a document that differ only in what the earlier draft
    does not read. *)
Definition sameOperation (a b : OperationObject) : Prop :=
  oo_servers a = oo_servers b /\ oo_parameters a = oo_parameters b.

Definition sameOperations (a b : PathItemObject) : Prop :=
  forall httpMethod,
    optionRel sameOperation (getOperation httpMethod a) (getOperation httpMethod b).

Definition samePathItem (a b : PathItemObject) : Prop :=
  pi_servers a = pi_servers b /\ pi_parameters a = pi_parameters b
  /\ sameOperations a b.

Definition samePaths (a b : PathObject) : Prop :=
  forall rawPath, optionRel samePathItem (getProp rawPath a) (getProp rawPath b).

(** * Properties *)

(** ** Strings and [split] *)

Lemma append_nil_l (s : string) : "" +:+ s = s.
Proof. reflexivity. Qed.

Lemma append_cons (c : ascii) (s t : string) : String c s +:+ t = String c (s +:+ t).
Proof. reflexivity. Qed.

Lemma append_empty_r (s : string) : s +:+ "" = s.
Proof.
  induction s as [|c s IH]; [reflexivity |].
  now rewrite append_cons, IH.
Qed.

Lemma append_assoc (a b c : string) : (a +:+ b) +:+ c = a +:+ (b +:+ c).
Proof.
  induction a as [|x a IH]; [reflexivity |].
  now rewrite !append_cons, IH.
Qed.

Lemma split_not_nil (sep : ascii) (s : string) : split sep s <> [].
Proof.
  induction s as [|c s IH]; simpl; [discriminate |].
  destruct (Ascii.eqb c sep); [discriminate |].
  destruct (split sep s); [contradiction | discriminate].
Qed.

Lemma split_cons_sep (sep : ascii) (s : string) :
  split sep (String sep s) = "" :: split sep s.
Proof. simpl. now rewrite Ascii.eqb_refl. Qed.

Lemma split_cons_other (sep c : ascii) (s p : string) (ps : list string) :
  c <> sep -> split sep s = p :: ps -> split sep (String c s) = String c p :: ps.
Proof.
  intros Hc Hs. simpl.
  destruct (Ascii.eqb_spec c sep) as [->|_]; [contradiction |].
  now rewrite Hs.
Qed.

(** Joining what [split] produced gives the string back. *)
Lemma join_split (sep : ascii) (s : string) :
  join (String sep "") (split sep s) = s.
Proof.
  induction s as [|c s IH]; [reflexivity |].
  simpl split. destruct (Ascii.eqb_spec c sep) as [->|Hc].
  - pose proof (split_not_nil sep s) as Hn.
    destruct (split sep s) as [|p ps] eqn:E; [contradiction |].
    change (join (String sep "") ("" :: p :: ps))
      with ("" +:+ String sep "" +:+ join (String sep "") (p :: ps)).
    rewrite IH. reflexivity.
  - pose proof (split_not_nil sep s) as Hn.
    destruct (split sep s) as [|p ps] eqn:E; [contradiction |].
    destruct ps as [|q qs].
    + simpl in *. now rewrite IH.
    + change (join (String sep "") (String c p :: q :: qs))
        with (String c (p +:+ String sep "" +:+ join (String sep "") (q :: qs))).
      change (join (String sep "") (p :: q :: qs))
        with (p +:+ String sep "" +:+ join (String sep "") (q :: qs)) in IH.
      now rewrite IH.
Qed.

(** ** [parsePath] *)

Lemma renderPath_app (p q : Path) :
  renderPath (p ++ q) = renderPath p +:+ renderPath q.
Proof.
  induction p as [|x p IH]; simpl; [reflexivity |].
  now rewrite IH, append_assoc.
Qed.

(** Dropping the empty constants does not change what a path renders to. *)
Lemma renderPath_filter (p : Path) :
  renderPath (List.filter keepComponent p) = renderPath p.
Proof.
  induction p as [|x p IH]; simpl; [reflexivity |].
  destruct x as [value|name]; simpl.
  - destruct (String.eqb_spec value "") as [->|_]; simpl; now rewrite IH.
  - now rewrite IH.
Qed.


Lemma join_open (first : string) (parts : list string) :
  join "{" (first :: parts) = first +:+ openParts parts.
Proof.
  revert first. induction parts as [|part rest IH]; intros first.
  - simpl. now rewrite append_empty_r.
  - change (join "{" (first :: part :: rest))
      with (first +:+ "{" +:+ join "{" (part :: rest)).
    rewrite IH. reflexivity.
Qed.

(** What a successful round of the loop of [parsePath] pushed. *)
Lemma parsePathPart_ok (part : string) (cs : list PathComponent) :
  parsePathPart part = Ok cs ->
  exists name value,
    cs = [PathComponentParameter name; PathComponentConstant value]
    /\ part = name +:+ "}" +:+ value /\ name <> "".
Proof.
  unfold parsePathPart. intros H.
  pose proof (join_split "}" part) as Hj.
  destruct (split "}" part) as [|a [|b [|c l]]]; simpl in H; try discriminate.
  destruct (String.eqb_spec a "") as [->|Ha]; [discriminate |].
  injection H as <-. exists a, b. repeat split; [|assumption].
  symmetry. exact Hj.
Qed.

Lemma parsePathParts_render (parts : list string) (cs : list PathComponent) :
  parsePathParts parts = Ok cs -> renderPath cs = openParts parts.
Proof.
  revert cs. induction parts as [|part rest IH]; intros cs H; simpl in H.
  - now injection H as <-.
  - destruct (parsePathPart part) as [cs1|e] eqn:E1; simpl in H; [|discriminate].
    destruct (parsePathParts rest) as [cs2|e] eqn:E2; simpl in H; [|discriminate].
    injection H as <-.
    apply parsePathPart_ok in E1 as (name & value & -> & -> & _).
    rewrite renderPath_app, (IH cs2 eq_refl). simpl.
    rewrite append_empty_r, !append_assoc. reflexivity.
Qed.

(** Whenever [parsePath] returns, re-joining its components gives the
    template back. *)
Lemma parsePath_render (t : string) (p : Path) :
  parsePath t = Ok p -> renderPath p = t.
Proof.
  unfold parsePath. intros H.
  pose proof (join_split "{" t) as Hj.
  pose proof (split_not_nil "{" t) as Hn.
  destruct (split "{" t) as [|first parts]; [contradiction |].
  cbn [shift or_empty] in H.
  destruct (parsePathParts parts) as [cs|e] eqn:E; cbn [rbind] in H; [|discriminate].
  assert (Hp : List.filter keepComponent ([PathComponentConstant first] ++ cs) = p)
    by (injection H as H; exact H).
  rewrite <- Hp.
  rewrite renderPath_filter, renderPath_app, (parsePathParts_render _ _ E).
  simpl. rewrite append_empty_r, <- join_open. exact Hj.
Qed.

(** On a well-formed template the loop of [parsePath] finds, in every part
    after an opening brace, one closing brace after a name. *)
Lemma wellFormed_parts (s : string) :
  (wellFormedFrom None s = true ->
     is_ok (parsePathParts (tail (split "{" s))) = true
     /\ split "}" (hd "" (split "{" s)) = [hd "" (split "{" s)])
  /\ (forall n, wellFormedFrom (Some n) s = true ->
     is_ok (parsePathParts (tail (split "{" s))) = true
     /\ exists a b, split "}" (hd "" (split "{" s)) = [a; b] /\ (n = 0 -> a <> "")).
Proof.
  induction s as [|c s [IHout IHin]].
  - split; [intros _; now split | intros n H; discriminate].
  - pose proof (split_not_nil "{" s) as Hn.
    destruct (split "{" s) as [|p0 ps] eqn:Es; [contradiction |].
    simpl hd in IHout, IHin. simpl tail in IHout, IHin.
    destruct (Ascii.eqb_spec c "{") as [->|Hopen].
    + rewrite split_cons_sep, Es. simpl hd. simpl tail. split.
      * simpl. intros H. destruct (IHin 0 H) as [Hok (a & b & Hab & Ha)].
        split; [|reflexivity].
        simpl. unfold parsePathPart. rewrite Hab. simpl.
        destruct (String.eqb_spec a "") as [->|_]; [now elim Ha |].
        simpl. destruct (parsePathParts ps); [reflexivity | discriminate].
      * intros n H. simpl in H. discriminate.
    + rewrite (split_cons_other "{" c s p0 ps Hopen Es). simpl hd. simpl tail.
      destruct (Ascii.eqb_spec c "}") as [->|Hclose].
      * split; [intros H; simpl in H; discriminate |].
        intros n H. simpl in H.
        apply andb_prop in H as [Hnz Hrest].
        destruct (IHout Hrest) as [Hok Hp0]. split; [assumption |].
        exists "", p0. split.
        -- rewrite split_cons_sep, Hp0. reflexivity.
        -- intros ->. discriminate.
      * split.
        -- intros H. simpl in H.
           destruct (Ascii.eqb_spec c "{") as [?|_]; [contradiction |].
           destruct (Ascii.eqb_spec c "}") as [?|_]; [contradiction |].
           destruct (IHout H) as [Hok Hp0]. split; [assumption |].
           now rewrite (split_cons_other "}" c p0 p0 [] Hclose Hp0).
        -- intros n H. simpl in H.
           destruct (Ascii.eqb_spec c "{") as [?|_]; [contradiction |].
           destruct (Ascii.eqb_spec c "}") as [?|_]; [contradiction |].
           destruct (IHin (S n) H) as [Hok (a & b & Hab & _)]. split; [assumption |].
           exists (String c a), b. split; [|discriminate].
           now rewrite (split_cons_other "}" c p0 a [b] Hclose Hab).
Qed.

Lemma wellFormed_parsePath (t : string) :
  wellFormedTemplate t = true -> is_ok (parsePath t) = true.
Proof.
  intros H. destruct (wellFormed_parts t) as [Hout _].
  destruct (Hout H) as [Hok _].
  unfold parsePath.
  pose proof (split_not_nil "{" t) as Hn.
  destruct (split "{" t) as [|first parts]; [contradiction |].
  simpl in *. destruct (parsePathParts parts); [reflexivity | discriminate].
Qed.

(** The result of [parsePath] holds no empty constant. *)
Lemma parsePath_kept (t : string) (p : Path) :
  parsePath t = Ok p -> forallb keepComponent p = true.
Proof.
  unfold parsePath. destruct (shift (split "{" t)) as [first parts1].
  destruct (parsePathParts parts1) as [cs|e]; cbn [rbind]; [|discriminate].
  intros H.
  assert (Hp : List.filter keepComponent (PathComponentConstant (or_empty first) :: cs) = p)
    by (injection H as H; exact H).
  rewrite <- Hp. clear H Hp.
  generalize (PathComponentConstant (or_empty first) :: cs). intros l.
  induction l as [|x l IH]; [reflexivity |].
  cbn [List.filter]. destruct (keepComponent x) eqn:Ex; [|exact IH].
  cbn [forallb]. now rewrite Ex, IH.
Qed.

(** C5. For every well-formed path template [t] (every opening brace matched
    by one closing brace, with a non-empty parameter name between them),
    [parsePath t] returns, and concatenating its components in order --
    constants verbatim, parameters as the name in braces -- gives [t] back,
    although the empty constants were dropped from the result. *)
Theorem parsePath_roundtrip (t : string) :
  wellFormedTemplate t = true ->
  exists p, parsePath t = Ok p /\ renderPath p = t
            /\ forallb keepComponent p = true.
Proof.
  intros H. apply wellFormed_parsePath in H.
  destruct (parsePath t) as [p|e] eqn:E; [|discriminate].
  exists p. split; [reflexivity |].
  split; [now apply parsePath_render | now apply (parsePath_kept t)].
Qed.

Lemma parsePath_roundtrip_witness :
  wellFormedTemplate "/pets/{id}/toys/{toy}" = true
  /\ exists p, parsePath "/pets/{id}/toys/{toy}" = Ok p
               /\ renderPath p = "/pets/{id}/toys/{toy}"
               /\ forallb keepComponent p = true.
Proof.
  split; [reflexivity |].
  apply (parsePath_roundtrip "/pets/{id}/toys/{toy}"). reflexivity.
Defined.

(** ** [sortBy]: a stable sort *)

Lemma insertSorted_Permutation {A : Type} (leb : A -> A -> bool) (x : A) (l : list A) :
  Permutation (insertSorted leb x l) (x :: l).
Proof.
  induction l as [|y l IH]; simpl; [reflexivity |].
  destruct (leb x y); [reflexivity |].
  rewrite IH. apply perm_swap.
Qed.

Lemma sortBy_Permutation {A : Type} (leb : A -> A -> bool) (l : list A) :
  Permutation (sortBy leb l) l.
Proof.
  induction l as [|x l IH]; simpl; [reflexivity |].
  unfold sortBy in IH. rewrite insertSorted_Permutation. now constructor.
Qed.

Section SortFacts.
Context {A : Type} (f : A -> nat).

Lemma insertSorted_sorted (x : A) (l : list A) :
  StronglySorted (fun a b => f a <= f b) l ->
  StronglySorted (fun a b => f a <= f b) (insertSorted (fun a b => Nat.leb (f a) (f b)) x l).
Proof.
  induction l as [|y l IH]; intros Hs; simpl.
  - repeat constructor.
  - inversion Hs as [|? ? Hl Hy]; subst.
    destruct (Nat.leb_spec (f x) (f y)) as [Hle|Hgt].
    + constructor; [assumption |]. constructor; [assumption |].
      eapply Forall_impl; [exact Hy |]. simpl. intros; lia.
    + constructor; [now apply IH |].
      apply (Permutation_Forall (Permutation_sym (insertSorted_Permutation _ x l))).
      constructor; [lia | assumption].
Qed.

(** The sorted array is ascending in [f]. *)
Lemma sortBy_sorted (l : list A) :
  StronglySorted (fun a b => f a <= f b) (sortBy (fun a b => Nat.leb (f a) (f b)) l).
Proof.
  induction l as [|x l IH]; simpl; [constructor |].
  now apply insertSorted_sorted.
Qed.

Lemma insertSorted_filter (n : nat) (x : A) (l : list A) :
  List.filter (fun a => Nat.eqb (f a) n) (insertSorted (fun a b => Nat.leb (f a) (f b)) x l)
  = List.filter (fun a => Nat.eqb (f a) n) (x :: l).
Proof.
  induction l as [|y l IH]; [reflexivity |].
  simpl insertSorted.
  destruct (Nat.leb_spec (f x) (f y)) as [Hle|Hgt]; [reflexivity |].
  simpl in *. rewrite IH.
  destruct (Nat.eqb_spec (f x) n) as [Hx|Hx];
    destruct (Nat.eqb_spec (f y) n) as [Hy|Hy]; try reflexivity.
  lia.
Qed.

(** The sort is stable: the elements of one value of [f] keep their relative
    order. *)
Lemma sortBy_stable (n : nat) (l : list A) :
  List.filter (fun a => Nat.eqb (f a) n) (sortBy (fun a b => Nat.leb (f a) (f b)) l)
  = List.filter (fun a => Nat.eqb (f a) n) l.
Proof.
  induction l as [|x l IH]; [reflexivity |].
  change (sortBy (fun a b => Nat.leb (f a) (f b)) (x :: l))
    with (insertSorted (fun a b => Nat.leb (f a) (f b)) x
            (sortBy (fun a b => Nat.leb (f a) (f b)) l)).
  rewrite insertSorted_filter. simpl. now rewrite IH.
Qed.
End SortFacts.

Lemma map_insertSorted {A B : Type} (g : A -> B) (f : B -> nat) (x : A) (l : list A) :
  map g (insertSorted (fun a b => Nat.leb (f (g a)) (f (g b))) x l)
  = insertSorted (fun a b => Nat.leb (f a) (f b)) (g x) (map g l).
Proof.
  induction l as [|y l IH]; [reflexivity |].
  simpl. destruct (Nat.leb (f (g x)) (f (g y))); simpl; [reflexivity |].
  now rewrite IH.
Qed.

Lemma map_sortBy {A B : Type} (g : A -> B) (f : B -> nat) (l : list A) :
  map g (sortBy (fun a b => Nat.leb (f (g a)) (f (g b))) l)
  = sortBy (fun a b => Nat.leb (f a) (f b)) (map g l).
Proof.
  induction l as [|x l IH]; [reflexivity |].
  change (sortBy (fun a b => Nat.leb (f (g a)) (f (g b))) (x :: l))
    with (insertSorted (fun a b => Nat.leb (f (g a)) (f (g b))) x
            (sortBy (fun a b => Nat.leb (f (g a)) (f (g b))) l)).
  rewrite map_insertSorted, IH. reflexivity.
Qed.

(** ** Objects *)

Lemma getProp_setProp_eq {V} (k : string) (v : V) (o : JsObject V) :
  getProp k (setProp k v o) = Some v.
Proof.
  induction o as [|[k' v'] o IH]; simpl.
  - now rewrite String.eqb_refl.
  - destruct (String.eqb_spec k k') as [->|Hk]; simpl.
    + now rewrite String.eqb_refl.
    + destruct (String.eqb_spec k k'); [contradiction | assumption].
Qed.

Lemma getProp_setProp_ne {V} (k k' : string) (v : V) (o : JsObject V) :
  k <> k' -> getProp k' (setProp k v o) = getProp k' o.
Proof.
  intros Hk. induction o as [|[k0 v0] o IH]; simpl.
  - destruct (String.eqb_spec k' k) as [->|_]; [contradiction | reflexivity].
  - destruct (String.eqb_spec k k0) as [->|Hk0]; simpl.
    + destruct (String.eqb_spec k' k0) as [->|_]; [contradiction | reflexivity].
    + destruct (String.eqb_spec k' k0); [reflexivity | assumption].
Qed.

(** Writing back the value a property has leaves the object as it is. *)
Lemma setProp_same {V} (k : string) (v : V) (o : JsObject V) :
  getProp k o = Some v -> setProp k v o = o.
Proof.
  induction o as [|[k' v'] o IH]; simpl; [discriminate |].
  destruct (String.eqb_spec k k') as [->|Hk].
  - now intros [= ->].
  - intros H. now rewrite IH.
Qed.

Lemma getProp_In {V} (k : string) (v : V) (o : JsObject V) :
  getProp k o = Some v -> In (k, v) o.
Proof.
  induction o as [|[k' v'] o IH]; simpl; [discriminate |].
  destruct (String.eqb_spec k k') as [->|Hk].
  - intros [= ->]. now left.
  - intros H. right. now apply IH.
Qed.

Lemma In_getProp {V} (k : string) (o : JsObject V) :
  In k (map fst o) -> exists v, getProp k o = Some v.
Proof.
  induction o as [|[k' v'] o IH]; simpl; [contradiction |].
  destruct (String.eqb_spec k k') as [->|Hk]; [now eexists |].
  intros [H|H]; [congruence | now apply IH].
Qed.

(** [Object.keys] lists the keys of the object, each as often as it is
    there. *)
Lemma Object_keys_Permutation {V} (o : JsObject V) :
  Permutation (Object_keys o) (map fst o).
Proof.
  unfold Object_keys. rewrite sortBy_Permutation.
  induction (map fst o) as [|k ks IH]; simpl; [reflexivity |].
  destruct (isArrayIndex k); simpl.
  - now constructor.
  - rewrite <- Permutation_middle. now constructor.
Qed.

Lemma Object_keys_In {V} (k : string) (o : JsObject V) :
  In k (Object_keys o) <-> In k (map fst o).
Proof.
  split; apply Permutation_in;
    [apply Object_keys_Permutation | symmetry; apply Object_keys_Permutation].
Qed.

Lemma getProp_Object_keys {V} (k : string) (v : V) (o : JsObject V) :
  getProp k o = Some v -> In k (Object_keys o).
Proof.
  intros H. apply Object_keys_In.
  apply getProp_In in H. now apply (in_map fst) in H.
Qed.

(** The keys that are no array indices are enumerated in the order of their
    creation, after the array indices. *)
Lemma Object_keys_names {V} (o : JsObject V) :
  List.filter (fun k => negb (isArrayIndex k)) (Object_keys o)
  = List.filter (fun k => negb (isArrayIndex k)) (map fst o).
Proof.
  unfold Object_keys. rewrite List.filter_app.
  assert (Hidx : forall l : list string,
             Forall (fun k => isArrayIndex k = true) l ->
             List.filter (fun k => negb (isArrayIndex k)) l = []).
  { induction l as [|k l IH]; intros Hl; [reflexivity |].
    inversion Hl as [|? ? Hk Hl']; subst. simpl. rewrite Hk. simpl. now apply IH. }
  rewrite Hidx.
  - simpl. induction (map fst o) as [|k ks IH]; [reflexivity |].
    simpl. destruct (isArrayIndex k) eqn:E; simpl; [assumption |].
    rewrite E. simpl. now rewrite IH.
  - apply (Permutation_Forall (Permutation_sym (sortBy_Permutation _ _))).
    apply Forall_forall. intros k Hk%list_elem_of_In.
    apply List.filter_In in Hk. tauto.
Qed.

(** ** Computations that write into their argument *)

Lemma ebind_Ok {S A B} (m : Eff S A) (k : A -> Eff S B) (s s' : S) (b : B) :
  ebind m k s = (Ok b, s') ->
  exists a s1, m s = (Ok a, s1) /\ k a s1 = (Ok b, s').
Proof.
  unfold ebind. destruct (m s) as [[a|e] s1]; [|discriminate].
  intros H. now exists a, s1.
Qed.

Lemma elift_Ok {S A} (r : result A) (s s' : S) (a : A) :
  elift r s = (Ok a, s') -> r = Ok a /\ s' = s.
Proof. unfold elift. now intros [= -> ->]. Qed.

Lemma eread_Ok {S A} (f : S -> A) (s s' : S) (a : A) :
  eread f s = (Ok a, s') -> a = f s /\ s' = s.
Proof. unfold eread. now intros [= <- <-]. Qed.

Lemma eret_Ok {S A} (x : A) (s s' : S) (a : A) :
  @eret S A x s = (Ok a, s') -> a = x /\ s' = s.
Proof. unfold eret. now intros [= <- <-]. Qed.

Lemma zoom_Ok {S T A} (get : S -> T) (set : T -> S -> S) (m : Eff T A)
  (s s' : S) (a : A) :
  zoom get set m s = (Ok a, s') ->
  exists t, m (get s) = (Ok a, t) /\ s' = set t s.
Proof.
  unfold zoom. destruct (m (get s)) as [r t]. intros [= -> <-]. now exists t.
Qed.

(** Take a successful sequence of steps apart. *)
Ltac eff_inv H :=
  repeat match type of H with
    | ebind _ _ _ = (Ok _, _) =>
        let a := fresh "a" in let s := fresh "s" in
        let H1 := fresh "Hstep" in
        apply ebind_Ok in H as (a & s & H1 & H)
    end.

Ltac eff_step :=
  match goal with
  | H : ebind _ _ _ = (Ok _, _) |- _ =>
      let a := fresh "a" in let s := fresh "s" in
      let H1 := fresh "Hstep" in
      apply ebind_Ok in H as (a & s & H1 & H)
  | H : eread _ _ = (Ok _, _) |- _ => apply eread_Ok in H as [-> ->]
  | H : eret _ _ = (Ok _, _) |- _ => apply eret_Ok in H as [-> ->]
  | H : elift _ _ = (Ok _, _) |- _ => apply elift_Ok in H as [H ->]
  end.

Lemma HttpMethod_eq_dec (a b : HttpMethod) : {a = b} + {a <> b}.
Proof. decide equality. Qed.

Lemma getOperation_setOperation_eq (m : HttpMethod) (v : OperationObject) (p : PathItemObject) :
  getOperation m (setOperation m v p) = Some v.
Proof. now destruct m. Qed.

Lemma getOperation_setOperation_ne (m m' : HttpMethod) (v : OperationObject) (p : PathItemObject) :
  m <> m' -> getOperation m' (setOperation m v p) = getOperation m' p.
Proof. intros H. destruct m, m'; try reflexivity; now elim H. Qed.

(** When the loop over the methods completes, the body has returned for every
    operation of the path item, on the operation as the document has it, and
    what it returned is among the results. *)
Lemma forMethods_In {A} (body : HttpMethod -> Eff OperationObject A)
  (methods : list HttpMethod) (item item' : PathItemObject) (rs : list A) :
  forMethods body methods item = (Ok rs, item') ->
  forall httpMethod op,
    In httpMethod methods -> getOperation httpMethod item = Some op ->
    exists r op', body httpMethod op = (Ok r, op') /\ In r rs.
Proof.
  revert item rs. induction methods as [|h0 rest IH]; intros item rs H h op Hin Hop.
  - contradiction.
  - simpl in H. eff_inv H. apply eret_Ok in H as [-> ->].
    unfold onOperation in Hstep.
    destruct (HttpMethod_eq_dec h0 h) as [->|Hne].
    + rewrite Hop in Hstep.
      destruct (body h op) as [[r|e] op'] eqn:Eb; simpl in Hstep; [|discriminate].
      injection Hstep as <- <-. exists r, op'. split; [reflexivity | now left].
    + assert (Hop1 : getOperation h s = Some op).
      { destruct (getOperation h0 item) as [op0|] eqn:E0.
        - destruct (body h0 op0) as [r0 op0']. injection Hstep as _ <-.
          now rewrite getOperation_setOperation_ne.
        - now injection Hstep as _ <-. }
      destruct Hin as [->|Hin]; [now elim Hne |].
      destruct (IH _ _ Hstep0 h op Hin Hop1) as (r & op' & Hb & Hr).
      exists r, op'. split; [assumption |].
      destruct a; [now right | assumption].
Qed.

(** The same for the loop over the paths: the body has returned for every
    path item, on the item as the document has it. *)
Lemma forPaths_In {A} (body : string -> Path -> Eff PathItemObject (list A))
  (rawPaths : list string) (paths paths' : PathObject) (ms : list A) :
  forPaths body rawPaths paths = (Ok ms, paths') ->
  forall rawPath item,
    In rawPath rawPaths -> getProp rawPath paths = Some item ->
    exists path ms0 item',
      parsePath rawPath = Ok path
      /\ body rawPath path item = (Ok ms0, item')
      /\ incl ms0 ms.
Proof.
  revert paths ms. induction rawPaths as [|k0 rest IH]; intros paths ms H k item Hin Hk.
  - contradiction.
  - simpl in H. eff_inv H. apply eret_Ok in H as [-> ->].
    apply elift_Ok in Hstep as [Hpath ->].
    unfold atKey in Hstep0.
    destruct (String.eqb_spec k0 k) as [->|Hne].
    + rewrite Hk in Hstep0.
      destruct (body k a item) as [r item1] eqn:Eb.
      injection Hstep0 as -> <-.
      exists a, a0, item1. repeat split; try assumption.
      now apply incl_appl.
    + assert (Hk1 : getProp k s0 = Some item).
      { destruct (getProp k0 paths) as [item0|] eqn:E0; [|discriminate].
        destruct (body k0 a item0) as [r0 item0']. injection Hstep0 as _ <-.
        now rewrite getProp_setProp_ne. }
      destruct Hin as [->|Hin]; [now elim Hne |].
      destruct (IH _ _ Hstep1 k item Hin Hk1) as (path & ms0 & item' & Hp & Hb & Hi).
      exists path, ms0, item'. repeat split; try assumption.
      now apply incl_appr.
Qed.

(** ** [run] and the operations of the document *)

(** When [run] of [modeler.ts] returns a model, it has pushed a method for
    every operation of the document. *)
Lemma ModelerA_run_pushes (doc doc' : OpenAPIObject) (model : ModelerA.Model)
  (rawPath : string) (item : PathItemObject) (httpMethod : HttpMethod)
  (op : OperationObject) :
  ModelerA.run doc = (Ok model, doc') ->
  getProp rawPath (oa_paths doc) = Some item ->
  getOperation httpMethod item = Some op ->
  exists m, In m (ModelerA.operations model) /\ ModelerA.pushes doc rawPath item op m.
Proof.
  intros Hrun Hitem Hop. unfold ModelerA.run in Hrun.
  destruct (negb (oa_openapi doc =? "3.0.0")%string); [discriminate |].
  apply ebind_Ok in Hrun as (servers & s1 & Hservers & Hrun).
  apply elift_Ok in Hservers as [Hservers ->].
  apply ebind_Ok in Hrun as (operations & s2 & Hloop & Hrun).
  apply eret_Ok in Hrun as [-> _].
  apply zoom_Ok in Hloop as (paths' & Hloop & _).
  destruct (forPaths_In _ _ _ _ _ Hloop rawPath item
              (getProp_Object_keys _ _ _ Hitem) Hitem)
    as (path & ms0 & item' & Hpath & Hbody & Hincl).
  unfold ModelerA.runPath in Hbody. repeat eff_step.
  destruct (negb (checkParameters _)); [discriminate |].
  assert (Hin : In httpMethod httpMethods) by (destruct httpMethod; simpl; tauto).
  destruct (forMethods_In _ _ _ _ _ Hbody httpMethod op Hin Hop)
    as (m & op' & Hm & Hinm).
  exists m. split; [now apply Hincl |].
  unfold ModelerA.pushes. do 5 eexists. repeat split; eassumption.
Qed.

(** What a successful round of the body of [if (operationObject)] went
    through, in [modeler.ts]. *)
Lemma ModelerA_runOperation_Ok (path : Path)
  (pathSummary pathDescription : option string)
  (pathServers : list Server) (pathParameters : list ModelerA.Param)
  (op op' : OperationObject) (m : ModelerA.Method) :
  ModelerA.runOperation path pathSummary pathDescription
    pathServers pathParameters op = (Ok m, op') ->
  exists operationServers operationParameters responses responses',
    parseServers (oo_servers op) = Ok operationServers
    /\ ModelerA.parseParameters (oo_parameters op) = Ok operationParameters
    /\ checkParameters pathParameters = true
    /\ validatePathParameters
         (mergeParameters pathParameters (default [] operationParameters)) path = Ok tt
    /\ ModelerA.parseResponses (oo_responses op) = (Ok responses, responses')
    /\ ModelerA.urlSuffix m = path
    /\ ModelerA.operationId m = oo_operationId op
    /\ ModelerA.parameters m
       = mergeParameters pathParameters (default [] operationParameters)
    /\ ModelerA.responses m = responses
    /\ ModelerA.servers m = default pathServers operationServers.
Proof.
  unfold ModelerA.runOperation. intros H. repeat eff_step.
  destruct (checkParameters pathParameters) eqn:Hcheck; [|discriminate].
  simpl in H. repeat eff_step.
  match goal with
  | Hz : zoom _ _ _ _ = _ |- _ => apply zoom_Ok in Hz as (responses' & Hresponses & ->)
  end.
  repeat eff_step.
  match goal with
  | Hv : validatePathParameters _ _ = Ok ?u |- _ => destruct u
  end.
  simpl. eauto 20.
Qed.

Lemma parseRequestBody_frame (op : OperationObject) :
  let op' := snd (ModelerB.parseRequestBody op) in
  oo_responses op' = oo_responses op
  /\ oo_security op' = oo_security op
  /\ oo_operationId op' = oo_operationId op
  /\ oo_parameters op' = oo_parameters op.
Proof.
  unfold ModelerB.parseRequestBody.
  destruct (oo_requestBody op) as [body|]; [|now repeat split].
  destruct (ModelerB.parseContent (rb_content body)) as [r declared'].
  now repeat split.
Qed.

(** When [run] of the later draft returns a model, it has pushed a method
    for every operation of the document. *)
Lemma ModelerB_run_pushes (doc doc' : OpenAPIObject) (model : ModelerB.Model)
  (rawPath : string) (item : PathItemObject) (httpMethod : HttpMethod)
  (op : OperationObject) :
  ModelerB.run doc = (Ok model, doc') ->
  getProp rawPath (oa_paths doc) = Some item ->
  getOperation httpMethod item = Some op ->
  exists m, In m (ModelerB.operations model) /\ ModelerB.pushes doc rawPath item op m.
Proof.
  intros Hrun Hitem Hop. unfold ModelerB.run in Hrun.
  destruct (negb (oa_openapi doc =? "3.0.0")%string); [discriminate |].
  apply ebind_Ok in Hrun as (servers & s1 & Hservers & Hrun).
  apply elift_Ok in Hservers as [Hservers ->].
  apply ebind_Ok in Hrun as (security & s2 & Hsecurity & Hrun).
  apply elift_Ok in Hsecurity as [Hsecurity ->].
  apply ebind_Ok in Hrun as (operations & s3 & Hloop & Hrun).
  apply eret_Ok in Hrun as [-> _].
  apply zoom_Ok in Hloop as (paths' & Hloop & _).
  assert (Hkey : In rawPath (ModelerB.keys (oa_paths doc))).
  { unfold ModelerB.keys. apply List.filter_In. split; [|reflexivity].
    eapply getProp_Object_keys; eassumption. }
  destruct (forPaths_In _ _ _ _ _ Hloop rawPath item Hkey Hitem)
    as (path & ms0 & item' & Hpath & Hbody & Hincl).
  unfold ModelerB.runPath in Hbody. repeat eff_step.
  match goal with
  | Hz : zoom _ _ _ _ = _ |- _ => apply zoom_Ok in Hz as (parameters' & Hparameters & ->)
  end.
  destruct (negb (checkParameters _)); [discriminate |].
  assert (Hin : In httpMethod httpMethods) by (destruct httpMethod; simpl; tauto).
  assert (Hop' : getOperation httpMethod (set_pi_parameters parameters' item) = Some op)
    by (destruct httpMethod; exact Hop).
  destruct (forMethods_In _ _ _ _ _ Hbody httpMethod op Hin Hop')
    as (m & op' & Hm & Hinm).
  exists m. split; [now apply Hincl |].
  unfold ModelerB.pushes. do 7 eexists. repeat split; eassumption.
Qed.

(** What a successful round of the body of [if (operationObject)] went
    through, in the later draft. *)
Lemma ModelerB_runOperation_Ok
  (securitySchemes : JsObject SecuritySchemeObject)
  (security : ModelerB.SecurityRequirementsAlternatives)
  (path : Path)
  (pathSummary pathDescription : option string)
  (pathServers : list Server) (pathParameters : list ModelerB.Param)
  (op op' : OperationObject) (m : ModelerB.Method) :
  ModelerB.runOperation securitySchemes security path pathSummary
    pathDescription pathServers pathParameters op = (Ok m, op') ->
  exists operationServers operationParameters parameters' responses responses',
    parseServers (oo_servers op) = Ok operationServers
    /\ ModelerB.parseParameters (oo_parameters op) = (Ok operationParameters, parameters')
    /\ checkParameters pathParameters = true
    /\ validatePathParameters
         (mergeParameters pathParameters (default [] operationParameters)) path = Ok tt
    /\ ModelerB.parseResponses (oo_responses op) = (Ok responses, responses')
    /\ ModelerB.urlSuffix m = path
    /\ ModelerB.operationId m = oo_operationId op
    /\ ModelerB.parameters m
       = mergeParameters pathParameters (default [] operationParameters)
    /\ ModelerB.responses m = responses
    /\ ModelerB.servers m = default pathServers operationServers.
Proof.
  unfold ModelerB.runOperation. intros H. repeat eff_step.
  match goal with
  | Hz : zoom _ _ _ _ = _ |- _ => apply zoom_Ok in Hz as (parameters' & Hparameters & ->)
  end.
  destruct (checkParameters pathParameters) eqn:Hcheck; [|discriminate].
  simpl in H. repeat eff_step.
  match goal with
  | Hz : zoom _ _ _ _ = _ |- _ => apply zoom_Ok in Hz as (responses' & Hresponses & ->)
  end.
  repeat eff_step.
  match goal with
  | Hv : validatePathParameters _ _ = Ok ?u |- _ => destruct u
  end.
  match goal with
  | Hb : ModelerB.parseRequestBody ?o = (_, ?o') |- _ =>
      pose proof (parseRequestBody_frame o) as (Hf1 & Hf2 & Hf3 & Hf4);
      rewrite Hb in Hf1, Hf2, Hf3, Hf4; simpl in Hf1, Hf2, Hf3, Hf4
  end.
  rewrite Hf1 in Hresponses. simpl. rewrite Hf3.
  eauto 20.
Qed.

(** ** Responses *)

Lemma mapEff_Ok {S A B} (f : A -> Eff S B) (xs : list A) (s s' : S) (ys : list B) :
  mapEff f xs s = (Ok ys, s') ->
  Forall2 (fun x y => exists s1 s2, f x s1 = (Ok y, s2)) xs ys.
Proof.
  revert s ys. induction xs as [|x xs IH]; intros s ys H; simpl in H.
  - apply eret_Ok in H as [-> _]. constructor.
  - repeat eff_step. constructor; [do 2 eexists; eassumption | eauto].
Qed.

Lemma ModelerA_parseResponse_Ok (responseKey : string)
  (responses responses' : ResponsesObject) (r : ModelerA.Response) :
  ModelerA.parseResponse responseKey responses = (Ok r, responses') ->
  ModelerA.key r = normalizeResponseKey responseKey
  /\ matchesStatusPattern (normalizeResponseKey responseKey) = true.
Proof.
  unfold ModelerA.parseResponse.
  destruct (matchesStatusPattern (normalizeResponseKey responseKey)); [|discriminate].
  simpl. unfold atKey.
  destruct (getProp responseKey responses) as [responseObject|]; [|discriminate].
  match goal with
  | |- (let '(_, _) := ?m ?x in _) = _ -> _ => destruct (m x) as [[r0|e] v'] eqn:E
  end; [|discriminate].
  intros [= <- _]. repeat eff_step. now split.
Qed.

Lemma ModelerB_parseResponse_Ok (responseKey : string)
  (responses responses' : ResponsesObject) (r : ModelerB.Response) :
  ModelerB.parseResponse responseKey responses = (Ok r, responses') ->
  ModelerB.key r = normalizeResponseKey responseKey
  /\ matchesStatusPattern (normalizeResponseKey responseKey) = true.
Proof.
  unfold ModelerB.parseResponse.
  destruct (matchesStatusPattern (normalizeResponseKey responseKey)); [|discriminate].
  simpl. unfold atKey.
  destruct (getProp responseKey responses) as [responseObject|]; [|discriminate].
  match goal with
  | |- (let '(_, _) := ?m ?x in _) = _ -> _ => destruct (m x) as [[r0|e] v'] eqn:E
  end; [|discriminate].
  intros [= <- _]. repeat eff_step. now split.
Qed.

Lemma Forall2_keys {A} (key : A -> string) (ks : list string) (rs : list A) :
  Forall2 (fun k r => key r = normalizeResponseKey k
                      /\ matchesStatusPattern (normalizeResponseKey k) = true) ks rs ->
  map key rs = map normalizeResponseKey ks
  /\ Forall (fun k => matchesStatusPattern (normalizeResponseKey k) = true) ks.
Proof.
  induction 1 as [|k r ks rs [Hk Hm] _ [IH1 IH2]]; [now split |].
  simpl. rewrite Hk, IH1. split; [reflexivity | now constructor].
Qed.

(** The block [// responses] of [modeler.ts], when it completes: the keys of
    the responses are the normalized keys of the operation, in the order of
    [Object.keys] and then sorted by their wildcards, and each of them has
    the form of a status pattern. *)
Lemma ModelerA_parseResponses_Ok (responses responses' : ResponsesObject)
  (rs : list ModelerA.Response) :
  ModelerA.parseResponses responses = (Ok rs, responses') ->
  map ModelerA.key rs
  = sortBy (fun a b => Nat.leb (wildcards a) (wildcards b))
      (map normalizeResponseKey (Object_keys responses))
  /\ Forall (fun k => matchesStatusPattern (normalizeResponseKey k) = true)
       (Object_keys responses).
Proof.
  unfold ModelerA.parseResponses. intros H. repeat eff_step.
  match goal with
  | Hm : mapEff _ _ _ = _ |- _ => apply mapEff_Ok in Hm
  end.
  match goal with
  | Hm : Forall2 _ _ ?l |- _ =>
      assert (Hks : Forall2 (fun k r => ModelerA.key r = normalizeResponseKey k
                 /\ matchesStatusPattern (normalizeResponseKey k) = true)
                (Object_keys responses) l)
  end.
  { eapply Forall2_impl; [eassumption |].
    intros k r (s1 & s2 & Hr). eapply ModelerA_parseResponse_Ok; eassumption. }
  apply Forall2_keys in Hks as [Hmap Hall]. split; [|assumption].
  rewrite (map_sortBy ModelerA.key wildcards). now rewrite Hmap.
Qed.

Lemma ModelerB_parseResponses_Ok (responses responses' : ResponsesObject)
  (rs : list ModelerB.Response) :
  ModelerB.parseResponses responses = (Ok rs, responses') ->
  map ModelerB.key rs
  = sortBy (fun a b => Nat.leb (wildcards a) (wildcards b))
      (map normalizeResponseKey (Object_keys responses))
  /\ Forall (fun k => matchesStatusPattern (normalizeResponseKey k) = true)
       (Object_keys responses).
Proof.
  unfold ModelerB.parseResponses. intros H. repeat eff_step.
  match goal with
  | Hm : mapEff _ _ _ = _ |- _ => apply mapEff_Ok in Hm
  end.
  assert (Hkeys : ModelerB.keys responses = Object_keys responses).
  { unfold ModelerB.keys. induction (Object_keys responses) as [|k ks IH];
      simpl; [reflexivity | now rewrite IH]. }
  rewrite Hkeys in *.
  match goal with
  | Hm : Forall2 _ _ ?l |- _ =>
      assert (Hks : Forall2 (fun k r => ModelerB.key r = normalizeResponseKey k
                 /\ matchesStatusPattern (normalizeResponseKey k) = true)
                (Object_keys responses) l)
  end.
  { eapply Forall2_impl; [eassumption |].
    intros k r (s1 & s2 & Hr). eapply ModelerB_parseResponse_Ok; eassumption. }
  apply Forall2_keys in Hks as [Hmap Hall]. split; [|assumption].
  rewrite (map_sortBy ModelerB.key wildcards). now rewrite Hmap.
Qed.

Lemma normalizeResponseKey_other (k : string) :
  k <> "default" -> normalizeResponseKey k = k.
Proof.
  unfold normalizeResponseKey. now destruct (String.eqb_spec k "default").
Qed.

Lemma Forall_normalized (ks : list string) :
  Forall (fun k => matchesStatusPattern (normalizeResponseKey k) = true) ks ->
  Forall (fun k => matchesStatusPattern k = true) (map normalizeResponseKey ks).
Proof.
  intros H. apply Forall_forall. intros k Hk%list_elem_of_In.
  apply in_map_iff in Hk as (k0 & <- & Hk0).
  rewrite Forall_forall in H. apply H. now apply list_elem_of_In.
Qed.

(** What the responses of a pushed method are, given what the block
    [// responses] computes. *)
Lemma sorted_response_keys (op : OperationObject) (keys : list string) :
  keys = sortBy (fun a b => Nat.leb (wildcards a) (wildcards b))
           (map normalizeResponseKey (Object_keys (oo_responses op))) ->
  Forall (fun k => matchesStatusPattern (normalizeResponseKey k) = true)
    (Object_keys (oo_responses op)) ->
  Permutation keys (map normalizeResponseKey (declaredResponseKeys op))
  /\ Forall (fun k => matchesStatusPattern k = true) keys
  /\ StronglySorted (fun a b => wildcards a <= wildcards b) keys.
Proof.
  intros -> Hall. split; [|split].
  - rewrite sortBy_Permutation. apply Permutation_map, Object_keys_Permutation.
  - apply (Permutation_Forall (Permutation_sym (sortBy_Permutation _ _))).
    now apply Forall_normalized.
  - apply (sortBy_sorted wildcards).
Qed.

Lemma ModelerA_pushes_responses (doc : OpenAPIObject) (rawPath : string)
  (item : PathItemObject) (op : OperationObject) (m : ModelerA.Method) :
  ModelerA.pushes doc rawPath item op m ->
  map ModelerA.key (ModelerA.responses m)
  = sortBy (fun a b => Nat.leb (wildcards a) (wildcards b))
      (map normalizeResponseKey (Object_keys (oo_responses op)))
  /\ Forall (fun k => matchesStatusPattern (normalizeResponseKey k) = true)
       (Object_keys (oo_responses op)).
Proof.
  intros (servers & path & pathServers & pathParameters & op' & _ & _ & _ & _ & Hop).
  apply ModelerA_runOperation_Ok in Hop
    as (? & ? & rs & rs' & _ & _ & _ & _ & Hrs & _ & _ & _ & -> & _).
  now apply ModelerA_parseResponses_Ok in Hrs.
Qed.

Lemma ModelerB_pushes_responses (doc : OpenAPIObject) (rawPath : string)
  (item : PathItemObject) (op : OperationObject) (m : ModelerB.Method) :
  ModelerB.pushes doc rawPath item op m ->
  map ModelerB.key (ModelerB.responses m)
  = sortBy (fun a b => Nat.leb (wildcards a) (wildcards b))
      (map normalizeResponseKey (Object_keys (oo_responses op)))
  /\ Forall (fun k => matchesStatusPattern (normalizeResponseKey k) = true)
       (Object_keys (oo_responses op)).
Proof.
  intros (servers & security & path & pathServers & pathParameters & ps' & op'
          & _ & _ & _ & _ & _ & Hop).
  apply ModelerB_runOperation_Ok in Hop
    as (? & ? & ? & rs & rs' & _ & _ & _ & _ & Hrs & _ & _ & _ & -> & _).
  now apply ModelerB_parseResponses_Ok in Hrs.
Qed.

(** A declared key that is neither [default] nor a status pattern stops
    [run]. *)
Lemma bad_key_not_all (op : OperationObject) (k : string) :
  In k (declaredResponseKeys op) -> k <> "default" -> matchesStatusPattern k = false ->
  ~ Forall (fun k => matchesStatusPattern (normalizeResponseKey k) = true)
      (Object_keys (oo_responses op)).
Proof.
  intros Hin Hk Hbad Hall. rewrite Forall_forall in Hall.
  apply Object_keys_In in Hin. apply list_elem_of_In in Hin.
  specialize (Hall k Hin). rewrite normalizeResponseKey_other in Hall by assumption.
  congruence.
Qed.

(** C4. For every operation of a document: when [run] returns (in either
    draft), the keys of the responses of the method pushed for the operation
    are the declared keys with [default] rewritten to [XXX], every one of them
    matches the three-character pattern of digits and [X], and the list is
    ascending in the number of [X] characters; a declared key other than
    [default] that does not match the pattern makes [run] throw. *)
Theorem response_keys_normalized_and_sorted
  (doc : OpenAPIObject) (rawPath : string) (item : PathItemObject)
  (httpMethod : HttpMethod) (op : OperationObject) :
  getProp rawPath (oa_paths doc) = Some item ->
  getOperation httpMethod item = Some op ->
  normalizeResponseKey "default" = "XXX"
  /\ (forall k, k <> "default" -> normalizeResponseKey k = k)
  /\ (forall model doc', ModelerA.run doc = (Ok model, doc') ->
        exists m, In m (ModelerA.operations model)
          /\ ModelerA.pushes doc rawPath item op m
          /\ Permutation (map ModelerA.key (ModelerA.responses m))
               (map normalizeResponseKey (declaredResponseKeys op))
          /\ Forall (fun k => matchesStatusPattern k = true)
               (map ModelerA.key (ModelerA.responses m))
          /\ StronglySorted (fun a b => wildcards a <= wildcards b)
               (map ModelerA.key (ModelerA.responses m)))
  /\ (forall model doc', ModelerB.run doc = (Ok model, doc') ->
        exists m, In m (ModelerB.operations model)
          /\ ModelerB.pushes doc rawPath item op m
          /\ Permutation (map ModelerB.key (ModelerB.responses m))
               (map normalizeResponseKey (declaredResponseKeys op))
          /\ Forall (fun k => matchesStatusPattern k = true)
               (map ModelerB.key (ModelerB.responses m))
          /\ StronglySorted (fun a b => wildcards a <= wildcards b)
               (map ModelerB.key (ModelerB.responses m)))
  /\ (forall k, In k (declaredResponseKeys op) -> k <> "default" ->
        matchesStatusPattern k = false ->
        (exists e, fst (ModelerA.run doc) = Throw e)
        /\ (exists e, fst (ModelerB.run doc) = Throw e)).
Proof.
  intros Hitem Hop. split; [reflexivity |].
  split; [exact normalizeResponseKey_other |].
  split; [|split].
  - intros model doc' Hrun.
    destruct (ModelerA_run_pushes _ _ _ _ _ _ _ Hrun Hitem Hop) as (m & Hin & Hm).
    exists m. split; [assumption |]. split; [assumption |].
    destruct (ModelerA_pushes_responses _ _ _ _ _ Hm) as [Hkeys Hall].
    now apply sorted_response_keys.
  - intros model doc' Hrun.
    destruct (ModelerB_run_pushes _ _ _ _ _ _ _ Hrun Hitem Hop) as (m & Hin & Hm).
    exists m. split; [assumption |]. split; [assumption |].
    destruct (ModelerB_pushes_responses _ _ _ _ _ Hm) as [Hkeys Hall].
    now apply sorted_response_keys.
  - intros k Hk Hdefault Hbad.
    pose proof (bad_key_not_all op k Hk Hdefault Hbad) as Hnot. split.
    + destruct (ModelerA.run doc) as [[model|e] doc'] eqn:Hrun; [|now exists e].
      destruct (ModelerA_run_pushes _ _ _ _ _ _ _ Hrun Hitem Hop) as (m & _ & Hm).
      now destruct (ModelerA_pushes_responses _ _ _ _ _ Hm).
    + destruct (ModelerB.run doc) as [[model|e] doc'] eqn:Hrun; [|now exists e].
      destruct (ModelerB_run_pushes _ _ _ _ _ _ _ Hrun Hitem Hop) as (m & _ & Hm).
      now destruct (ModelerB_pushes_responses _ _ _ _ _ Hm).
Qed.

Lemma response_keys_normalized_and_sorted_witness :
  getProp "/pets" (oa_paths statusDocument) = Some statusPathItem
  /\ getOperation GET statusPathItem = Some statusOperation
  /\ exists model doc' m,
       ModelerB.run statusDocument = (Ok model, doc')
       /\ In m (ModelerB.operations model)
       /\ Permutation (map ModelerB.key (ModelerB.responses m))
            (map normalizeResponseKey (declaredResponseKeys statusOperation))
       /\ StronglySorted (fun a b => wildcards a <= wildcards b)
            (map ModelerB.key (ModelerB.responses m)).
Proof.
  split; [reflexivity |]. split; [reflexivity |].
  destruct (ModelerB.run statusDocument) as [[model|e] doc'] eqn:E;
    [|vm_compute in E; discriminate].
  destruct (response_keys_normalized_and_sorted statusDocument "/pets"
              statusPathItem GET statusOperation eq_refl eq_refl)
    as (_ & _ & _ & HB & _).
  destruct (HB model doc' E) as (m & Hin & _ & Hperm & _ & Hsorted).
  exists model, doc', m. repeat split; assumption || reflexivity.
Defined.

(** The order of the example of the specification: [200] before [2XX]
    before [XXX]. *)
Example wildcards_example :
  wildcards "200" = 0 /\ wildcards "2XX" = 2 /\ wildcards "XXX" = 3.
Proof. repeat split. Qed.

Example statusDocument_keys :
  match fst (ModelerB.run statusDocument) with
  | Ok model => map (fun m => map ModelerB.key (ModelerB.responses m))
                    (ModelerB.operations model)
  | Throw _ => []
  end = [["200"; "404"; "2XX"; "XXX"]].
Proof. reflexivity. Qed.

(** ** Servers *)

Lemma documentServers_not_empty (declared : option (list ServerObject))
  (servers : list Server) :
  documentServers declared = Ok servers -> servers <> [].
Proof.
  unfold documentServers.
  destruct (parseServers declared) as [parsed|e]; simpl; [|discriminate].
  destruct (default [] parsed) as [|server rest]; simpl.
  - intros [= <-]. discriminate.
  - intros [= <-]. discriminate.
Qed.

Lemma empty_servers_default (op : OperationObject) (item : PathItemObject)
  (servers : list Server) (pathServers operationServers : option (list Server)) :
  oo_servers op = Some [] \/ (oo_servers op = None /\ pi_servers item = Some []) ->
  parseServers (pi_servers item) = Ok pathServers ->
  parseServers (oo_servers op) = Ok operationServers ->
  default (default servers pathServers) operationServers = [].
Proof.
  intros [Hop|[Hop Hitem]] Hps Hos.
  - rewrite Hop in Hos. now injection Hos as <-.
  - rewrite Hop in Hos. injection Hos as <-.
    rewrite Hitem in Hps. now injection Hps as <-.
Qed.

(** C8. If an operation declares an empty list of servers, or declares none
    while its path item declares an empty list, the method that [run] pushes
    for it has no servers: an empty array is truthy, so the fallback to the
    enclosing level is taken for an absent field only.  The servers of the
    document itself are never empty. *)
Theorem empty_servers_list_is_kept
  (doc : OpenAPIObject) (rawPath : string) (item : PathItemObject)
  (httpMethod : HttpMethod) (op : OperationObject) :
  getProp rawPath (oa_paths doc) = Some item ->
  getOperation httpMethod item = Some op ->
  oo_servers op = Some [] \/ (oo_servers op = None /\ pi_servers item = Some []) ->
  (forall model doc', ModelerA.run doc = (Ok model, doc') ->
     exists m, In m (ModelerA.operations model)
       /\ ModelerA.pushes doc rawPath item op m
       /\ ModelerA.servers m = [])
  /\ (forall model doc', ModelerB.run doc = (Ok model, doc') ->
     exists m, In m (ModelerB.operations model)
       /\ ModelerB.pushes doc rawPath item op m
       /\ ModelerB.servers m = [])
  /\ (forall servers, documentServers (oa_servers doc) = Ok servers -> servers <> []).
Proof.
  intros Hitem Hop Hempty. split; [|split].
  - intros model doc' Hrun.
    destruct (ModelerA_run_pushes _ _ _ _ _ _ _ Hrun Hitem Hop) as (m & Hin & Hm).
    exists m. split; [assumption |]. split; [assumption |].
    destruct Hm as (servers & path & pathServers & pathParameters & op'
                    & _ & _ & Hps & _ & Hm).
    apply ModelerA_runOperation_Ok in Hm
      as (operationServers & ? & ? & ? & Hos & _ & _ & _ & _ & _ & _ & _ & _ & ->).
    eapply empty_servers_default; eassumption.
  - intros model doc' Hrun.
    destruct (ModelerB_run_pushes _ _ _ _ _ _ _ Hrun Hitem Hop) as (m & Hin & Hm).
    exists m. split; [assumption |]. split; [assumption |].
    destruct Hm as (servers & security & path & pathServers & pathParameters & ps' & op'
                    & _ & _ & _ & Hps & _ & Hm).
    apply ModelerB_runOperation_Ok in Hm
      as (operationServers & ? & ? & ? & ? & Hos & _ & _ & _ & _ & _ & _ & _ & _ & ->).
    eapply empty_servers_default; eassumption.
  - intros servers. apply documentServers_not_empty.
Qed.

Lemma empty_servers_list_is_kept_witness :
  getProp "/ping" (oa_paths noServersDocument) = Some noServersPathItem
  /\ getOperation GET noServersPathItem = Some noServersOperation
  /\ oo_servers noServersOperation = Some []
  /\ exists model doc' m,
       ModelerA.run noServersDocument = (Ok model, doc')
       /\ In m (ModelerA.operations model)
       /\ ModelerA.servers m = [].
Proof.
  split; [reflexivity |]. split; [reflexivity |]. split; [reflexivity |].
  destruct (ModelerA.run noServersDocument) as [[model|e] doc'] eqn:E;
    [|vm_compute in E; discriminate].
  destruct (empty_servers_list_is_kept noServersDocument "/ping"
              noServersPathItem GET noServersOperation eq_refl eq_refl
              (or_introl eq_refl))
    as (HA & _ & _).
  destruct (HA model doc' E) as (m & Hin & _ & Hservers).
  exists model, doc', m. repeat split; assumption || reflexivity.
Defined.

(** ** The order of [Object.keys] *)

Lemma insertSorted_sorted_on {A : Type} (leb : A -> A -> bool) (P : A -> Prop)
  (Htotal : forall a b, P a -> P b -> leb a b = false -> leb b a = true)
  (Htrans : forall a b c, P a -> P b -> P c ->
                          leb a b = true -> leb b c = true -> leb a c = true)
  (x : A) (l : list A) :
  P x -> Forall P l ->
  StronglySorted (fun a b => leb a b = true) l ->
  StronglySorted (fun a b => leb a b = true) (insertSorted leb x l).
Proof.
  intros Hx. induction l as [|y l IH]; intros HP Hs; simpl.
  - repeat constructor.
  - inversion HP as [|? ? Hy HPl]; subst.
    inversion Hs as [|? ? Hsl Hyl]; subst.
    destruct (leb x y) eqn:Hxy.
    + constructor; [assumption |]. constructor; [assumption |].
      rewrite Forall_forall in Hyl, HPl. apply Forall_forall. intros z Hz.
      apply (Htrans x y z); auto.
    + constructor; [now apply IH |].
      apply (Permutation_Forall (Permutation_sym (insertSorted_Permutation _ x l))).
      constructor; [now apply Htotal | assumption].
Qed.

Lemma sortBy_sorted_on {A : Type} (leb : A -> A -> bool) (P : A -> Prop)
  (Htotal : forall a b, P a -> P b -> leb a b = false -> leb b a = true)
  (Htrans : forall a b c, P a -> P b -> P c ->
                          leb a b = true -> leb b c = true -> leb a c = true)
  (l : list A) :
  Forall P l -> StronglySorted (fun a b => leb a b = true) (sortBy leb l).
Proof.
  induction l as [|x l IH]; intros HP; simpl; [constructor |].
  inversion HP as [|? ? Hx HPl]; subst.
  apply (insertSorted_sorted_on leb P Htotal Htrans); [assumption | | now apply IH].
  apply (Permutation_Forall (Permutation_sym (sortBy_Permutation _ _))). assumption.
Qed.

Lemma StronglySorted_on {A : Type} (R R' : A -> A -> Prop) (P : A -> Prop) (l : list A) :
  (forall a b, P a -> P b -> R a b -> R' a b) ->
  Forall P l -> StronglySorted R l -> StronglySorted R' l.
Proof.
  intros HR. induction l as [|x l IH]; intros HP Hs; [constructor |].
  inversion HP as [|? ? Hx HPl]; subst. inversion Hs as [|? ? Hsl Hxl]; subst.
  constructor; [now apply IH |].
  rewrite Forall_forall in Hxl, HPl. apply Forall_forall. intros z Hz.
  apply HR; auto.
Qed.

(** [Object.keys] is the array-index keys in ascending numeric order, then
    the other keys in the order of their declaration. *)
Lemma Object_keys_order {V} (o : JsObject V) :
  exists indices,
    Object_keys o
    = indices ++ List.filter (fun k => negb (isArrayIndex k)) (map fst o)
    /\ Permutation indices (List.filter isArrayIndex (map fst o))
    /\ StronglySorted indexLe indices.
Proof.
  exists (sortBy indexLeb (List.filter isArrayIndex (map fst o))).
  split; [reflexivity |]. split; [apply sortBy_Permutation |].
  assert (HP : Forall (fun k => isArrayIndex k = true)
                 (List.filter isArrayIndex (map fst o))).
  { apply Forall_forall. intros k Hk%list_elem_of_In.
    apply List.filter_In in Hk. tauto. }
  apply (StronglySorted_on (fun a b => indexLeb a b = true) indexLe
           (fun k => isArrayIndex k = true)).
  - unfold isArrayIndex, indexLeb, indexLe. intros a b Ha Hb Hab.
    destruct (arrayIndex a) as [m|]; [|discriminate].
    destruct (arrayIndex b) as [n|]; [|discriminate].
    exists m, n. repeat split. now apply N.leb_le.
  - apply (Permutation_Forall (Permutation_sym (sortBy_Permutation _ _))). exact HP.
  - apply (sortBy_sorted_on indexLeb (fun k => isArrayIndex k = true)); [| |exact HP].
    + unfold isArrayIndex, indexLeb. intros a b Ha Hb Hab.
      destruct (arrayIndex a) as [m|]; [|discriminate].
      destruct (arrayIndex b) as [n|]; [|discriminate].
      apply N.leb_le. apply N.leb_gt in Hab. lia.
    + unfold isArrayIndex, indexLeb. intros a b c Ha Hb Hc Hab Hbc.
      destruct (arrayIndex a) as [m|]; [|discriminate].
      destruct (arrayIndex b) as [n|]; [|discriminate].
      destruct (arrayIndex c) as [p|]; [|discriminate].
      apply N.leb_le. apply N.leb_le in Hab, Hbc. lia.
Qed.

Lemma declaration_order_counterexample :
  (exists model doc' m,
     ModelerA.run statusDocument = (Ok model, doc')
     /\ ModelerA.operations model = [m]
     /\ declaredResponseKeys statusOperation = ["404"; "default"; "200"; "2XX"]
     /\ map ModelerA.key (ModelerA.responses m) = ["200"; "404"; "2XX"; "XXX"]
     /\ ~ sameOrderPerWildcards (map ModelerA.key (ModelerA.responses m))
            (map normalizeResponseKey (declaredResponseKeys statusOperation)))
  /\ (exists model doc' m,
     ModelerB.run statusDocument = (Ok model, doc')
     /\ ModelerB.operations model = [m]
     /\ declaredResponseKeys statusOperation = ["404"; "default"; "200"; "2XX"]
     /\ map ModelerB.key (ModelerB.responses m) = ["200"; "404"; "2XX"; "XXX"]
     /\ ~ sameOrderPerWildcards (map ModelerB.key (ModelerB.responses m))
            (map normalizeResponseKey (declaredResponseKeys statusOperation))).
Proof.
  split.
  - do 3 eexists. split; [vm_compute; reflexivity |].
    split; [reflexivity |]. split; [reflexivity |]. split; [reflexivity |].
    intros H. specialize (H 0). vm_compute in H. discriminate.
  - do 3 eexists. split; [vm_compute; reflexivity |].
    split; [reflexivity |]. split; [reflexivity |]. split; [reflexivity |].
    intros H. specialize (H 0). vm_compute in H. discriminate.
Qed.

(** C9, as amended.  For every operation of a document: when [run] returns
    (in either draft), the responses of the pushed method whose keys have the
    same number of [X] characters stand in the order in which [Object.keys]
    enumerates the declared keys -- the sort is stable and compares the
    number of wildcards only.  That order is the declaration order for the
    keys that are no array indices ([default], [2XX], ...); the keys that are
    array indices, such as [200] and [404], come first and in ascending
    numeric order, wherever the document declares them. *)
Theorem equal_wildcards_keep_enumeration_order
  (doc : OpenAPIObject) (rawPath : string) (item : PathItemObject)
  (httpMethod : HttpMethod) (op : OperationObject) :
  getProp rawPath (oa_paths doc) = Some item ->
  getOperation httpMethod item = Some op ->
  (forall model doc', ModelerA.run doc = (Ok model, doc') ->
     exists m, In m (ModelerA.operations model)
       /\ ModelerA.pushes doc rawPath item op m
       /\ sameOrderPerWildcards (map ModelerA.key (ModelerA.responses m))
            (map normalizeResponseKey (Object_keys (oo_responses op))))
  /\ (forall model doc', ModelerB.run doc = (Ok model, doc') ->
     exists m, In m (ModelerB.operations model)
       /\ ModelerB.pushes doc rawPath item op m
       /\ sameOrderPerWildcards (map ModelerB.key (ModelerB.responses m))
            (map normalizeResponseKey (Object_keys (oo_responses op))))
  /\ exists indices,
       Object_keys (oo_responses op)
       = indices ++ List.filter (fun k => negb (isArrayIndex k)) (declaredResponseKeys op)
       /\ Permutation indices (List.filter isArrayIndex (declaredResponseKeys op))
       /\ StronglySorted indexLe indices.
Proof.
  intros Hitem Hop. split; [|split].
  - intros model doc' Hrun.
    destruct (ModelerA_run_pushes _ _ _ _ _ _ _ Hrun Hitem Hop) as (m & Hin & Hm).
    exists m. split; [assumption |]. split; [assumption |].
    destruct (ModelerA_pushes_responses _ _ _ _ _ Hm) as [-> _].
    intros n. apply (sortBy_stable wildcards).
  - intros model doc' Hrun.
    destruct (ModelerB_run_pushes _ _ _ _ _ _ _ Hrun Hitem Hop) as (m & Hin & Hm).
    exists m. split; [assumption |]. split; [assumption |].
    destruct (ModelerB_pushes_responses _ _ _ _ _ Hm) as [-> _].
    intros n. apply (sortBy_stable wildcards).
  - apply Object_keys_order.
Qed.

Lemma equal_wildcards_keep_enumeration_order_witness :
  getProp "/pets" (oa_paths statusDocument) = Some statusPathItem
  /\ getOperation GET statusPathItem = Some statusOperation
  /\ exists model doc' m,
       ModelerA.run statusDocument = (Ok model, doc')
       /\ In m (ModelerA.operations model)
       /\ sameOrderPerWildcards (map ModelerA.key (ModelerA.responses m))
            (map normalizeResponseKey (Object_keys (oo_responses statusOperation))).
Proof.
  split; [reflexivity |]. split; [reflexivity |].
  destruct (ModelerA.run statusDocument) as [[model|e] doc'] eqn:E;
    [|vm_compute in E; discriminate].
  destruct (equal_wildcards_keep_enumeration_order statusDocument "/pets"
              statusPathItem GET statusOperation eq_refl eq_refl)
    as (HA & _ & _).
  destruct (HA model doc' E) as (m & Hin & _ & Hsame).
  exists model, doc', m. repeat split; assumption || reflexivity.
Defined.

(** ** Where exceptions come from *)

Lemma throwsOnly_eret {S A} (Q : exn -> Prop) (a : A) : throwsOnly Q (@eret S A a).
Proof. intros s e s'. discriminate. Qed.

Lemma throwsOnly_eread {S A} (Q : exn -> Prop) (f : S -> A) : throwsOnly Q (eread f).
Proof. intros s e s'. discriminate. Qed.

Lemma throwsOnly_ethrow {S A} (Q : exn -> Prop) (e : exn) :
  Q e -> throwsOnly Q (@ethrow S A e).
Proof. intros He s e' s'. now intros [= <- _]. Qed.

Lemma throwsOnly_elift {S A} (Q : exn -> Prop) (r : result A) :
  (forall e, r = Throw e -> Q e) -> throwsOnly Q (@elift S A r).
Proof. intros Hr s e s'. unfold elift. intros [= -> _]. now apply Hr. Qed.

Lemma throwsOnly_ebind {S A B} (Q : exn -> Prop) (m : Eff S A) (k : A -> Eff S B) :
  throwsOnly Q m -> (forall a, throwsOnly Q (k a)) -> throwsOnly Q (ebind m k).
Proof.
  intros Hm Hk s e s'. unfold ebind.
  destruct (m s) as [[a|e0] s1] eqn:E.
  - apply Hk.
  - intros [= <- _]. eapply Hm; eassumption.
Qed.

Lemma throwsOnly_zoom {S T A} (Q : exn -> Prop) (get : S -> T) (set : T -> S -> S)
  (m : Eff T A) :
  throwsOnly Q m -> throwsOnly Q (zoom get set m).
Proof.
  intros Hm s e s'. unfold zoom.
  destruct (m (get s)) as [r t] eqn:E. intros [= -> _]. eapply Hm; eassumption.
Qed.

Lemma throwsOnly_atKey {V A} (Q : exn -> Prop) (k : string) (m : Eff V A) :
  Q TypeError -> throwsOnly Q m -> throwsOnly Q (atKey k m).
Proof.
  intros HT Hm o e o'. unfold atKey.
  destruct (getProp k o) as [v|]; [|now intros [= <- _]].
  destruct (m v) as [r v'] eqn:E. intros [= -> _]. eapply Hm; eassumption.
Qed.

Lemma throwsOnly_mapEff {S A B} (Q : exn -> Prop) (f : A -> Eff S B) (xs : list A) :
  (forall x, throwsOnly Q (f x)) -> throwsOnly Q (mapEff f xs).
Proof.
  intros Hf. induction xs as [|x xs IH]; simpl.
  - apply throwsOnly_eret.
  - apply throwsOnly_ebind; [apply Hf |]. intros y.
    apply throwsOnly_ebind; [apply IH |]. intros ys. apply throwsOnly_eret.
Qed.

Lemma throwsOnly_mapElements {T B} (Q : exn -> Prop) (f : Eff T B) :
  throwsOnly Q f -> throwsOnly Q (mapElements f).
Proof.
  intros Hf xs. induction xs as [|x xs IH]; intros e s'; simpl; [discriminate |].
  destruct (f x) as [[y|e0] x'] eqn:Ex.
  - destruct (mapElements f xs) as [[ys|e1] xs''] eqn:Exs; [discriminate |].
    intros [= <- _]. eapply IH. reflexivity.
  - intros [= <- _]. eapply Hf; eassumption.
Qed.

Lemma throwsOnly_onHeaders {A} (Q : exn -> Prop) (m : Eff HeadersObject A) :
  throwsOnly Q m -> throwsOnly Q (onHeaders m).
Proof.
  intros Hm ro e ro'. unfold onHeaders.
  destruct (ro_headers ro) as [headers|].
  - destruct (m headers) as [r headers'] eqn:E. intros [= -> _].
    eapply Hm; eassumption.
  - destruct (m []) as [r headers'] eqn:E. simpl. intros [= -> _].
    eapply Hm; eassumption.
Qed.

Lemma mapR_Throw {A B} (Q : exn -> Prop) (f : A -> result B) (xs : list A) (e : exn) :
  (forall x e, f x = Throw e -> Q e) -> mapR f xs = Throw e -> Q e.
Proof.
  intros Hf. induction xs as [|x xs IH]; simpl; [discriminate |].
  destruct (f x) as [y|e0] eqn:Ex; simpl.
  - destruct (mapR f xs) as [ys|e1]; simpl; [discriminate |].
    intros [= <-]. now apply IH.
  - intros [= <-]. eapply Hf; eassumption.
Qed.

(** The exceptions of the steps that follow the cross-check are not the one
    of the cross-check. *)
Lemma ModelerA_parseParameter_Throw (parameter : ParameterObject) (e : exn) :
  ModelerA.parseParameter parameter = Throw e -> e <> mismatch.
Proof.
  unfold ModelerA.parseParameter, mismatch.
  destruct (_ && _); [intros [= <-]; discriminate |].
  destruct (_ && _); [intros [= <-]; discriminate | discriminate].
Qed.

Lemma ModelerA_parseResponses_Throw :
  throwsOnly (fun e => e <> mismatch) ModelerA.parseResponses.
Proof.
  intros responses. unfold ModelerA.parseResponses.
  apply throwsOnly_ebind; [|intros; apply throwsOnly_eret].
  apply throwsOnly_mapEff. intros k. unfold ModelerA.parseResponse.
  destruct (negb _).
  - apply throwsOnly_ethrow. unfold mismatch. discriminate.
  - apply throwsOnly_atKey; [discriminate |].
    apply throwsOnly_ebind; [|intros; apply throwsOnly_ebind;
                                [apply throwsOnly_eread | intros; apply throwsOnly_eret]].
    apply throwsOnly_onHeaders. intros headers.
    apply throwsOnly_mapEff. intros name.
    apply throwsOnly_atKey; [discriminate |].
    intros h e h'. unfold ModelerA.headerAsParam.
    destruct (ModelerA.parseParameter _) as [p|e0] eqn:E; simpl; [discriminate |].
    intros [= <- _]. eapply ModelerA_parseParameter_Throw; eassumption.
Qed.

Lemma ModelerB_normalizeExamples_Throw (Q : exn -> Prop) (example : option Json) :
  throwsOnly Q (ModelerB.normalizeExamples example).
Proof.
  intros declared e s'. unfold ModelerB.normalizeExamples.
  destruct (truthyOpt example); discriminate.
Qed.

Lemma ModelerB_parseContent_Throw (Q : exn -> Prop) :
  Q TypeError -> throwsOnly Q ModelerB.parseContent.
Proof.
  intros HT content. unfold ModelerB.parseContent.
  generalize (@nil (string * ModelerB.MediaTypeContent)) as result.
  generalize content at 2 as state.
  induction (ModelerB.keys content) as [|mediaType rest IH]; intros state result; simpl.
  - apply throwsOnly_eret.
  - apply throwsOnly_ebind; [|intros entry st; apply IH].
    unfold ModelerB.parseMediaType.
    apply throwsOnly_ebind; [apply throwsOnly_eread |].
    intros [contentObj|]; [|now apply throwsOnly_ethrow].
    apply throwsOnly_ebind; [|intros; apply throwsOnly_eret].
    intros c. unfold ModelerB.normalizeContentExamples.
    apply throwsOnly_zoom, ModelerB_normalizeExamples_Throw.
Qed.

Lemma ModelerB_parseParameterBase_Throw :
  throwsOnly (fun e => e <> mismatch) ModelerB.parseParameterBase.
Proof.
  intros parameter. unfold ModelerB.parseParameterBase.
  destruct (_ && _); [intros e s' [= <- _]; discriminate |].
  apply throwsOnly_ebind.
  - apply throwsOnly_zoom, throwsOnly_zoom, ModelerB_normalizeExamples_Throw.
  - intros examples. apply throwsOnly_ebind; [|intros; apply throwsOnly_eret].
    apply throwsOnly_zoom. intros f e f'.
    destruct (pf_content f) as [declared|]; [|discriminate].
    destruct (ModelerB.parseContent declared) as [r declared'] eqn:E.
    intros [= -> _].
    eapply (ModelerB_parseContent_Throw (fun e => e <> mismatch)); [discriminate | eassumption].
Qed.

Lemma ModelerB_parseResponses_Throw :
  throwsOnly (fun e => e <> mismatch) ModelerB.parseResponses.
Proof.
  intros responses. unfold ModelerB.parseResponses.
  apply throwsOnly_ebind; [|intros; apply throwsOnly_eret].
  apply throwsOnly_mapEff. intros k. unfold ModelerB.parseResponse.
  destruct (negb _).
  - apply throwsOnly_ethrow. unfold mismatch. discriminate.
  - apply throwsOnly_atKey; [discriminate |].
    apply throwsOnly_ebind; [|intros; apply throwsOnly_ebind;
                                [apply throwsOnly_eread | intros; apply throwsOnly_eret]].
    apply throwsOnly_onHeaders. intros headers.
    apply throwsOnly_mapEff. intros name.
    apply throwsOnly_atKey; [discriminate |].
    intros h e h'. unfold ModelerB.parseHeader.
    destruct (ModelerB.parseParameterBase _) as [r param'] eqn:E.
    intros [= -> _]. eapply ModelerB_parseParameterBase_Throw; eassumption.
Qed.

Lemma ModelerB_parseRequestBody_Throw :
  throwsOnly (fun e => e <> mismatch) ModelerB.parseRequestBody.
Proof.
  intros op e op'. unfold ModelerB.parseRequestBody.
  destruct (oo_requestBody op) as [body|]; [|discriminate].
  destruct (ModelerB.parseContent (rb_content body)) as [[content|e0] declared'] eqn:E;
    simpl; [discriminate |].
  intros [= <- _].
  eapply (ModelerB_parseContent_Throw (fun e => e <> mismatch)); [discriminate | eassumption].
Qed.

Lemma ModelerB_parseSecurityRequirements_Throw
  (securitySchemes : JsObject SecuritySchemeObject)
  (security : option (list SecurityRequirementObject)) (e : exn) :
  ModelerB.parseSecurityRequirements securitySchemes security = Throw e -> e <> mismatch.
Proof.
  unfold ModelerB.parseSecurityRequirements.
  destruct security as [security|]; [|discriminate].
  destruct (mapR _ security) as [alternatives|e0] eqn:E; simpl; [discriminate |].
  intros [= <-]. eapply (mapR_Throw (fun e => e <> mismatch)); [|exact E].
  intros sec e. unfold ModelerB.parseSecurityRequirement.
  apply (mapR_Throw (fun e => e <> mismatch)). intros name e'.
  destruct (negb _); [|discriminate]. intros [= <-]. unfold mismatch. discriminate.
Qed.

(** ** The cross-check of path parameters *)

Lemma everyEqual_eq (xs ys : list string) :
  Nat.eqb (List.length xs) (List.length ys) && everyEqual xs ys = true <-> xs = ys.
Proof.
  revert ys. induction xs as [|x xs IH]; intros [|y ys]; simpl; try (split; discriminate).
  - split; reflexivity.
  - destruct (String.eqb_spec x y) as [->|Hxy]; simpl.
    + rewrite IH. split; [now intros -> | now intros [= ->]].
    + rewrite Bool.andb_false_r. split; [discriminate | now intros [= -> _]].
Qed.

Section CrossCheck.
Context {P : Type} `{ParameterLike P}.

(** The block throws exactly when the two sorted lists of names differ. *)
Lemma validatePathParameters_Throw (parameters : list P) (urlSuffix : Path) :
  validatePathParameters parameters urlSuffix = Throw mismatch
  <-> pathParams parameters <> pathParamsExpected urlSuffix.
Proof.
  unfold validatePathParameters.
  pose proof (everyEqual_eq (pathParams parameters) (pathParamsExpected urlSuffix)) as Heq.
  destruct (Nat.eqb _ _); simpl in *.
  - destruct (everyEqual _ _); simpl.
    + split; [discriminate | intros Hne; elim Hne; now apply Heq].
    + split; [intros _ Hx; apply Heq in Hx; discriminate | reflexivity].
  - split; [intros _ Hx; apply Heq in Hx; discriminate | reflexivity].
Qed.

Lemma validatePathParameters_Ok (parameters : list P) (urlSuffix : Path) :
  validatePathParameters parameters urlSuffix = Ok tt
  <-> pathParams parameters = pathParamsExpected urlSuffix.
Proof.
  unfold validatePathParameters.
  pose proof (everyEqual_eq (pathParams parameters) (pathParamsExpected urlSuffix)) as Heq.
  destruct (Nat.eqb _ _); simpl in *.
  - destruct (everyEqual _ _); simpl.
    + split; [intros _; now apply Heq | reflexivity].
    + split; [discriminate | intros Hx; apply Heq in Hx; discriminate].
  - split; [discriminate | intros Hx; apply Heq in Hx; discriminate].
Qed.
End CrossCheck.

Lemma validatePathParameters_cases {P : Type} `{ParameterLike P}
  (parameters : list P) (urlSuffix : Path) :
  validatePathParameters parameters urlSuffix = Ok tt
  \/ validatePathParameters parameters urlSuffix = Throw mismatch.
Proof.
  unfold validatePathParameters. destruct (_ || _); [now right | now left].
Qed.

Lemma ModelerA_cross_check (path : Path)
  (pathSummary pathDescription : option string)
  (pathServers : list Server) (pathParameters : list ModelerA.Param)
  (op : OperationObject)
  (operationServers : option (list Server))
  (operationParameters : option (list ModelerA.Param)) :
  parseServers (oo_servers op) = Ok operationServers ->
  ModelerA.parseParameters (oo_parameters op) = Ok operationParameters ->
  checkParameters pathParameters = true ->
  fst (ModelerA.runOperation path pathSummary pathDescription
         pathServers pathParameters op) = Throw mismatch
  <-> pathParams (mergeParameters pathParameters (default [] operationParameters))
      <> pathParamsExpected path.
Proof.
  intros Hservers Hparameters Hcheck.
  rewrite <- validatePathParameters_Throw.
  unfold ModelerA.runOperation, ebind, eread, elift.
  rewrite Hservers, Hparameters, Hcheck. cbn [negb].
  destruct (validatePathParameters_cases
              (mergeParameters pathParameters (default [] operationParameters)) path)
    as [Hv|Hv]; rewrite Hv.
  - unfold zoom.
    destruct (ModelerA.parseResponses (oo_responses op)) as [[rs|e] responses'] eqn:Hr.
    + simpl. split; discriminate.
    + simpl. split; [|discriminate]. intros [= ->].
      now apply ModelerA_parseResponses_Throw in Hr.
  - simpl. split; reflexivity.
Qed.

Lemma ModelerB_cross_check
  (securitySchemes : JsObject SecuritySchemeObject)
  (security : ModelerB.SecurityRequirementsAlternatives)
  (path : Path)
  (pathSummary pathDescription : option string)
  (pathServers : list Server) (pathParameters : list ModelerB.Param)
  (op : OperationObject)
  (operationServers : option (list Server))
  (operationParameters : option (list ModelerB.Param))
  (parameters' : option (list ParameterObject)) :
  parseServers (oo_servers op) = Ok operationServers ->
  ModelerB.parseParameters (oo_parameters op) = (Ok operationParameters, parameters') ->
  checkParameters pathParameters = true ->
  fst (ModelerB.runOperation securitySchemes security path pathSummary
         pathDescription pathServers pathParameters op) = Throw mismatch
  <-> pathParams (mergeParameters pathParameters (default [] operationParameters))
      <> pathParamsExpected path.
Proof.
  intros Hservers Hparameters Hcheck.
  rewrite <- validatePathParameters_Throw.
  unfold ModelerB.runOperation, ebind, eread, elift.
  rewrite Hservers. unfold zoom at 1. rewrite Hparameters, Hcheck. cbn [negb].
  destruct (validatePathParameters_cases
              (mergeParameters pathParameters (default [] operationParameters)) path)
    as [Hv|Hv]; rewrite Hv.
  - destruct (ModelerB.parseRequestBody _) as [[body|e] op1] eqn:Hb.
    + destruct (ModelerB.parseSecurityRequirements securitySchemes (oo_security op1))
        as [operationSecurity|e] eqn:Hs.
      * unfold zoom.
        destruct (ModelerB.parseResponses (oo_responses op1)) as [[rs|e] responses'] eqn:Hr.
        -- simpl. split; discriminate.
        -- simpl. split; [|discriminate]. intros [= ->].
           now apply ModelerB_parseResponses_Throw in Hr.
      * simpl. split; [|discriminate]. intros [= ->].
        now apply ModelerB_parseSecurityRequirements_Throw in Hs.
    + simpl. split; [|discriminate]. intros [= ->].
      now apply ModelerB_parseRequestBody_Throw in Hb.
  - simpl. split; reflexivity.
Qed.

(** C6. For every operation, once the path-level and the operation-level
    parameters are merged, the body of [run] throws the error of the
    cross-check if and only if the sorted list of the names of the merged
    parameters of location [path] differs from the sorted list of the
    placeholder names of the parsed path template; when the two lists are
    equal the assembly goes on without this error.  In both drafts. *)
Theorem path_parameters_cross_check :
  (forall path pathSummary pathDescription pathServers pathParameters
          op operationServers operationParameters,
     parseServers (oo_servers op) = Ok operationServers ->
     ModelerA.parseParameters (oo_parameters op) = Ok operationParameters ->
     checkParameters pathParameters = true ->
     let parameters := mergeParameters pathParameters (default [] operationParameters) in
     (fst (ModelerA.runOperation path pathSummary pathDescription
             pathServers pathParameters op) = Throw (Error "path parameters mismatch")
      <-> pathParams parameters <> pathParamsExpected path)
     /\ (pathParams parameters = pathParamsExpected path ->
         validatePathParameters parameters path = Ok tt))
  /\ (forall securitySchemes security path pathSummary pathDescription
             pathServers pathParameters op operationServers operationParameters
             parameters',
     parseServers (oo_servers op) = Ok operationServers ->
     ModelerB.parseParameters (oo_parameters op) = (Ok operationParameters, parameters') ->
     checkParameters pathParameters = true ->
     let parameters := mergeParameters pathParameters (default [] operationParameters) in
     (fst (ModelerB.runOperation securitySchemes security path pathSummary
             pathDescription pathServers pathParameters op)
        = Throw (Error "path parameters mismatch")
      <-> pathParams parameters <> pathParamsExpected path)
     /\ (pathParams parameters = pathParamsExpected path ->
         validatePathParameters parameters path = Ok tt)).
Proof.
  split.
  - intros path pathSummary pathDescription pathServers pathParameters
           op operationServers operationParameters Hs Hp Hc. cbv zeta.
    split; [|apply validatePathParameters_Ok].
    exact (ModelerA_cross_check path pathSummary pathDescription pathServers
             pathParameters op operationServers operationParameters Hs Hp Hc).
  - intros securitySchemes security path pathSummary pathDescription
           pathServers pathParameters op operationServers operationParameters
           parameters' Hs Hp Hc. cbv zeta.
    split; [|apply validatePathParameters_Ok].
    exact (ModelerB_cross_check securitySchemes security path pathSummary
             pathDescription pathServers pathParameters op operationServers
             operationParameters parameters' Hs Hp Hc).
Qed.

Lemma path_parameters_cross_check_witness :
  exists operationParameters path,
    parsePath "/pets/{id}" = Ok path
    /\ parseServers (oo_servers petOperation) = Ok None
    /\ ModelerA.parseParameters (oo_parameters petOperation) = Ok operationParameters
    /\ checkParameters (@nil ModelerA.Param) = true
    /\ (fst (ModelerA.runOperation path None None [] [] petOperation)
          = Throw (Error "path parameters mismatch")
        <-> pathParams (mergeParameters [] (default [] operationParameters))
            <> pathParamsExpected path).
Proof.
  do 2 eexists. split; [reflexivity |]. split; [reflexivity |].
  split; [reflexivity |]. split; [reflexivity |].
  eapply proj1. eapply (proj1 path_parameters_cross_check); reflexivity.
Defined.

(** The example of the specification: [/pets/{id}] without a declared path
    parameter [id] is an error, with it the run succeeds. *)
Example undeclared_path_parameter :
  fst (ModelerA.run undeclaredDocument) = Throw (Error "path parameters mismatch")
  /\ fst (ModelerB.run undeclaredDocument) = Throw (Error "path parameters mismatch")
  /\ is_ok (fst (ModelerA.run petDocument)) = true
  /\ is_ok (fst (ModelerB.run petDocument)) = true.
Proof. repeat split. Qed.

(** ** Formats *)

(** What [normalizeFormat] computes: the declared style or the default of the
    location, and an [explode] that is true when it is declared true or when
    the style is [form]. *)
Lemma normalizeFormat_spec (location : Location)
  (declaredStyle : option Style) (declaredExplode : option bool) :
  let f := ModelerB.normalizeFormat location declaredStyle declaredExplode in
  ModelerB.style f
  = match declaredStyle with
    | Some s => s
    | None => match location with
              | in_query | in_cookie => style_form
              | in_header | in_path => style_simple
              end
    end
  /\ ModelerB.explode f
     = (match declaredExplode with Some b => b | None => false end
        || Style_eqb (ModelerB.style f) style_form).
Proof. destruct declaredStyle, location; split; reflexivity. Qed.

Lemma parseParameterBase_format (parameter : ParameterObject) (p : ModelerB.ParameterBase) :
  fst (ModelerB.parseParameterBase parameter) = Ok p ->
  ModelerB.format p
  = ModelerB.normalizeFormat (po_in parameter)
      (pf_style (po_fields parameter)) (pf_explode (po_fields parameter)).
Proof.
  unfold ModelerB.parseParameterBase.
  destruct (_ && _); [discriminate |].
  destruct (ebind _ _ parameter) as [[p0|e] parameter'] eqn:E; simpl; [|discriminate].
  intros [= ->]. repeat eff_step. reflexivity.
Qed.

(** C3, at the failing input.  A parameter of location [query] that declares
    [explode: false] and no style has the effective style [form]; the
    normalized format has [explode = true], in [normalizeFormat] and in
    [parseParameterBase] alike: the declared [false] is lost to
    [explode || (style === "form")]. *)
Theorem declared_explode_false_is_lost :
  ModelerB.normalizeFormat in_query None (Some false)
  = {| ModelerB.style := style_form; ModelerB.explode := true |}
  /\ pf_explode (po_fields explodeFalseParameter) = Some false
  /\ exists p, fst (ModelerB.parseParameterBase explodeFalseParameter) = Ok p
       /\ ModelerB.format p
          = {| ModelerB.style := style_form; ModelerB.explode := true |}.
Proof.
  split; [reflexivity |]. split; [reflexivity |].
  eexists. split; reflexivity.
Qed.

(** ** Uniqueness of parameter keys *)

(** C1, at the failing input.  [GET /search] declares the query parameter
    [q] twice; [checkParameters] is false on the parsed operation-level list,
    and yet [run] returns a model in both drafts: the check made for the
    operation is made on the path-level list a second time. *)
Theorem duplicate_operation_parameters_accepted :
  (exists operationParameters model doc',
     ModelerA.parseParameters (oo_parameters duplicateOperation)
       = Ok (Some operationParameters)
     /\ checkParameters operationParameters = false
     /\ ModelerA.run duplicateDocument = (Ok model, doc')
     /\ map (fun m => List.length (ModelerA.parameters m)) (ModelerA.operations model) = [1])
  /\ (exists operationParameters parameters' model doc',
     ModelerB.parseParameters (oo_parameters duplicateOperation)
       = (Ok (Some operationParameters), parameters')
     /\ checkParameters operationParameters = false
     /\ ModelerB.run duplicateDocument = (Ok model, doc')
     /\ map (fun m => List.length (ModelerB.parameters m)) (ModelerB.operations model) = [1]).
Proof.
  split.
  - do 3 eexists. split; [vm_compute; reflexivity |].
    split; [vm_compute; reflexivity |]. split; [vm_compute; reflexivity |]. reflexivity.
  - do 4 eexists. split; [vm_compute; reflexivity |].
    split; [vm_compute; reflexivity |]. split; [vm_compute; reflexivity |]. reflexivity.
Qed.

(** ** The resolver *)

Lemma startsWith_cons (c : ascii) (s t : string) :
  startsWith (String c s) "#" = startsWith (String c t) "#".
Proof.
  unfold startsWith. cbn -[ascii_dec].
  destruct (ascii_dec "#" c); [now destruct s, t | reflexivity].
Qed.

Lemma startsWith_first_segment (sourceRef : string) :
  startsWith (or_empty (fst (shift (split "/" sourceRef)))) "#"
  = startsWith sourceRef "#".
Proof.
  destruct sourceRef as [|c s]; [reflexivity |].
  simpl split. destruct (Ascii.eqb_spec c "/") as [->|Hc]; [reflexivity |].
  pose proof (split_not_nil "/" s) as Hn.
  destruct (split "/" s) as [|p ps]; [contradiction |].
  apply startsWith_cons.
Qed.

Lemma getMember_Throw (h : gmap Resolver.loc Resolver.object) (v : Resolver.value)
  (k : string) (e : exn) :
  Resolver.getMember h v k = Throw e -> e = TypeError.
Proof.
  unfold Resolver.getMember. destruct v; try discriminate; try now intros [= <-].
  destruct (h !! l); [discriminate | now intros [= <-]].
Qed.

Lemma setMember_Throw (h : gmap Resolver.loc Resolver.object) (v x : Resolver.value)
  (k : string) (e : exn) :
  Resolver.setMember h v k x = Throw e -> e = TypeError.
Proof.
  unfold Resolver.setMember. destruct v; try now intros [= <-].
  destruct (h !! l); [discriminate | now intros [= <-]].
Qed.

Lemma evalPath_Throw (h : gmap Resolver.loc Resolver.object) (v : Resolver.value)
  (ks : list string) (e : exn) :
  Resolver.evalPath h v ks = Throw e -> e = TypeError.
Proof.
  revert v. induction ks as [|k ks IH]; intros v; simpl; [discriminate |].
  destruct (Resolver.getMember h v k) as [v'|e0] eqn:E; simpl.
  - apply IH.
  - intros [= <-]. eapply getMember_Throw; eassumption.
Qed.

Lemma evalTagSource_Throw (parts : list string) :
  throwsOnly (fun e => e = TypeError) (Resolver.evalTagSource parts).
Proof.
  intros st e st'. unfold Resolver.evalTagSource.
  destruct (Resolver.evalPath _ _ _) as [source|e0] eqn:E.
  - destruct (Resolver.setMember _ _ _ _) as [h'|e1] eqn:E1; [discriminate |].
    intros [= <- _]. eapply setMember_Throw; eassumption.
  - intros [= <- _]. eapply evalPath_Throw; eassumption.
Qed.

Lemma evalAssign_Throw (targetPath parts : list string) :
  throwsOnly (fun e => e = TypeError) (Resolver.evalAssign targetPath parts).
Proof.
  intros st e st'. unfold Resolver.evalAssign.
  destruct (List.rev targetPath) as [|k parent].
  - destruct (Resolver.evalPath _ _ parts) as [source|e0] eqn:E; [discriminate |].
    intros [= <- _]. eapply evalPath_Throw; eassumption.
  - destruct (Resolver.evalPath _ _ (List.rev parent)) as [target|e0] eqn:E0.
    + destruct (Resolver.evalPath _ _ parts) as [source|e1] eqn:E1.
      * destruct (Resolver.setMember _ _ _ _) as [h'|e2] eqn:E2; [discriminate |].
        intros [= <- _]. eapply setMember_Throw; eassumption.
      * intros [= <- _]. eapply evalPath_Throw; eassumption.
    + intros [= <- _]. eapply evalPath_Throw; eassumption.
Qed.

(** The body of the loop on a node whose [$ref] is the string [sourceRef]. *)
Lemma resolveHit_check (x : Resolver.hit) (st : Resolver.state) (sourceRef : string) :
  Resolver.getMember (Resolver.st_heap st) (Resolver.hit_value x) "$ref"
    = Ok (Resolver.VString sourceRef) ->
  (startsWith sourceRef "#" = false -> Resolver.resolveHit x st = (Throw notLocal, st))
  /\ (startsWith sourceRef "#" = true -> fst (Resolver.resolveHit x st) <> Throw notLocal).
Proof.
  intros Href. unfold Resolver.resolveHit. rewrite Href.
  pose proof (startsWith_first_segment sourceRef) as Hfirst.
  destruct (shift (split "/" sourceRef)) as [first sourceRefParts].
  simpl in Hfirst. rewrite Hfirst. split; intros Hs; rewrite Hs; simpl.
  - reflexivity.
  - destruct (ebind _ _ st) as [[u|e] st'] eqn:E; simpl; [discriminate |].
    intros [= ->].
    assert (Ht : notLocal = TypeError); [|discriminate Ht].
    revert E. apply (throwsOnly_ebind (fun e => e = TypeError)).
    + apply evalTagSource_Throw.
    + intros _. apply evalAssign_Throw.
Qed.

Lemma resolveHits_app (hits1 hits2 : list Resolver.hit) (st : Resolver.state) :
  Resolver.resolveHits (hits1 ++ hits2) st
  = match Resolver.resolveHits hits1 st with
    | (Ok _, st1) => Resolver.resolveHits hits2 st1
    | (Throw e, st1) => (Throw e, st1)
    end.
Proof.
  revert st. induction hits1 as [|x hits1 IH]; intros st; [reflexivity |].
  simpl. unfold ebind.
  destruct (Resolver.resolveHit x st) as [[u|e] st1]; [apply IH | reflexivity].
Qed.

(** C7. For every node with a [$ref] that the loop of [resolve] gets to: if
    the reference string does not begin with [#] -- which is to say that its
    first segment between slashes does not -- [resolve] throws the error of
    the non-local reference there; a reference that begins with [#] does not
    raise this error. *)
Theorem non_local_reference_throws
  (nodes : gmap Resolver.loc Resolver.object -> Resolver.value -> result (list Resolver.hit))
  (st st1 : Resolver.state) (hits1 hits2 : list Resolver.hit) (x : Resolver.hit)
  (sourceRef : string) :
  nodes (Resolver.st_heap st) (Resolver.st_root st) = Ok (hits1 ++ x :: hits2) ->
  Resolver.resolveHits hits1 st = (Ok tt, st1) ->
  Resolver.getMember (Resolver.st_heap st1) (Resolver.hit_value x) "$ref"
    = Ok (Resolver.VString sourceRef) ->
  (startsWith sourceRef "#" = false ->
     Resolver.resolve nodes st
     = (Throw (Error "invalid syntax of local reference"), st1))
  /\ (startsWith sourceRef "#" = true ->
     fst (Resolver.resolveHit x st1) <> Throw (Error "invalid syntax of local reference"))
  /\ startsWith sourceRef "#"
     = startsWith (or_empty (fst (shift (split "/" sourceRef)))) "#".
Proof.
  intros Hnodes Hbefore Href.
  destruct (resolveHit_check x st1 sourceRef Href) as [Hthrow Hpass].
  split; [|split].
  - intros Hs. unfold Resolver.resolve. rewrite Hnodes, resolveHits_app, Hbefore.
    simpl. unfold ebind. now rewrite (Hthrow Hs).
  - exact Hpass.
  - symmetry. apply startsWith_first_segment.
Qed.

Lemma non_local_reference_throws_witness :
  let x := {| Resolver.hit_path := ["paths"; "pet"];
              Resolver.hit_value := Resolver.VObject 3%positive |} in
  Resolver.nodes 10 remoteRefHeap (Resolver.VObject 1%positive) = Ok ([] ++ x :: [])
  /\ Resolver.resolveHits [] remoteRefState = (Ok tt, remoteRefState)
  /\ Resolver.getMember remoteRefHeap (Resolver.hit_value x) "$ref"
     = Ok (Resolver.VString "other.yaml#/Pet")
  /\ startsWith "other.yaml#/Pet" "#" = false
  /\ Resolver.resolve (Resolver.nodes 10) remoteRefState
     = (Throw (Error "invalid syntax of local reference"), remoteRefState).
Proof.
  intros x.
  assert (H1 : Resolver.nodes 10 remoteRefHeap (Resolver.VObject 1%positive) = Ok ([] ++ x :: []))
    by (vm_compute; reflexivity).
  assert (H2 : Resolver.getMember remoteRefHeap (Resolver.hit_value x) "$ref"
               = Ok (Resolver.VString "other.yaml#/Pet"))
    by (vm_compute; reflexivity).
  split; [exact H1 |]. split; [reflexivity |]. split; [exact H2 |].
  split; [reflexivity |].
  apply (proj1 (non_local_reference_throws (Resolver.nodes 10) remoteRefState
                  remoteRefState [] [] x "other.yaml#/Pet" H1 eq_refl H2)).
  reflexivity.
Defined.

Lemma mapR_Ok {A B} (f : A -> result B) (xs : list A) (ys : list B) :
  mapR f xs = Ok ys -> Forall2 (fun x y => f x = Ok y) xs ys.
Proof.
  revert ys. induction xs as [|x xs IH]; intros ys; simpl.
  - intros [= <-]. constructor.
  - destruct (f x) as [y|e] eqn:Ex; simpl; [|discriminate].
    destruct (mapR f xs) as [ys'|e] eqn:Exs; simpl; [|discriminate].
    intros [= <-]. constructor; [assumption | now apply IH].
Qed.

Lemma carriesRef_object (h : gmap Resolver.loc Resolver.object) (v : Resolver.value) :
  Resolver.carriesRef h v = true -> exists l, v = Resolver.VObject l.
Proof. destruct v; try discriminate. intros _. now eexists. Qed.

Lemma reachable_object (h : gmap Resolver.loc Resolver.object) (v : Resolver.value)
  (l : Resolver.loc) :
  Resolver.reachable h v l -> exists l0, v = Resolver.VObject l0.
Proof. intros H. inversion H; subst; now eexists. Qed.

(** Every hit of the traversal is an object of the graph with a [$ref]. *)
Lemma collectRefs_sound (depth : nat) (h : gmap Resolver.loc Resolver.object)
  (path : list string) (v : Resolver.value) (hits : list Resolver.hit) :
  Resolver.collectRefs depth h path v = Ok hits ->
  forall x, In x hits ->
    Resolver.carriesRef h (Resolver.hit_value x) = true
    /\ exists l, Resolver.hit_value x = Resolver.VObject l /\ Resolver.reachable h v l.
Proof.
  revert path v hits. induction depth as [|depth IH]; intros path v hits; simpl;
    [discriminate |].
  destruct v as [| | | | |l]; try (intros [= <-] x []).
  destruct (h !! l) as [o|] eqn:Hl; [|intros [= <-] x []].
  set (members := map (fun k => (k, default Resolver.VUndefined
                                      (getProp k (Resolver.props o))))
                      (Object_keys (Resolver.props o))).
  assert (Hmem : forall k child, In (k, child) members ->
                   forall l', child = Resolver.VObject l' ->
                   getProp k (Resolver.props o) = Some child).
  { intros k child Hin l' ->. apply in_map_iff in Hin as (k0 & [= -> Hd] & _).
    destruct (getProp k (Resolver.props o)) as [c|]; simpl in Hd; [congruence | discriminate]. }
  destruct (mapR _ members) as [below|e] eqn:Hb; simpl; [|discriminate].
  intros [= <-] x Hx. apply in_app_iff in Hx as [Hx|Hx].
  - apply in_map_iff in Hx as ([k child] & <- & Hin).
    apply List.filter_In in Hin as [Hin Href]. simpl. split; [assumption |].
    destruct (carriesRef_object _ _ Href) as [l' ->]. exists l'. split; [reflexivity |].
    eapply Resolver.reachable_member; [eassumption | | constructor].
    eapply Hmem; [eassumption | reflexivity].
  - apply mapR_Ok in Hb. apply in_concat in Hx as (hs & Hhs & Hx).
    assert (Hsome : exists kc, In kc members
                      /\ Resolver.collectRefs depth h (path ++ [fst kc]) (snd kc) = Ok hs).
    { clear -Hb Hhs. induction Hb as [|[k c] y xs ys Hy _ IHb]; [contradiction |].
      destruct Hhs as [->|Hhs].
      - exists (k, c). split; [now left | exact Hy].
      - destruct (IHb Hhs) as (kc & Hin & Hkc). exists kc. split; [now right | exact Hkc]. }
    destruct Hsome as ([k child] & Hin & Hchild). simpl in Hchild.
    destruct (IH _ _ _ Hchild x Hx) as (Href & l' & Hv & Hreach).
    split; [assumption |]. exists l'. split; [assumption |].
    destruct (reachable_object _ _ _ Hreach) as [l0 ->].
    eapply Resolver.reachable_member; [eassumption | | eassumption].
    eapply Hmem; [eassumption | reflexivity].
Qed.

Lemma nodes_sound (depth : nat) : Resolver.nodesSound (Resolver.nodes depth).
Proof.
  intros h root hits x Hnodes Hx. unfold Resolver.nodes in Hnodes.
  now apply (collectRefs_sound _ _ _ _ _ Hnodes).
Qed.

(** C10. On a graph in which no object has a [$ref] property, [resolve]
    writes nothing: the store and the root are after the call what they were
    before it, whatever the query returned; when the query returns, it returns
    no hit, the body of the loop is not run and [resolve] returns. *)
Theorem resolve_without_references
  (nodes : gmap Resolver.loc Resolver.object -> Resolver.value -> result (list Resolver.hit))
  (st : Resolver.state) :
  Resolver.nodesSound nodes ->
  (forall l, Resolver.reachable (Resolver.st_heap st) (Resolver.st_root st) l ->
             Resolver.carriesRef (Resolver.st_heap st) (Resolver.VObject l) = false) ->
  snd (Resolver.resolve nodes st) = st
  /\ forall hits, nodes (Resolver.st_heap st) (Resolver.st_root st) = Ok hits ->
       hits = [] /\ Resolver.resolve nodes st = (Ok tt, st).
Proof.
  intros Hsound Hnone.
  assert (Hhits : forall hits,
             nodes (Resolver.st_heap st) (Resolver.st_root st) = Ok hits -> hits = []).
  { intros [|x hits] Hnodes; [reflexivity |]. exfalso.
    destruct (Hsound _ _ _ x Hnodes (or_introl eq_refl)) as (Href & l & Hv & Hreach).
    rewrite Hv, (Hnone l Hreach) in Href. discriminate. }
  unfold Resolver.resolve.
  destruct (nodes (Resolver.st_heap st) (Resolver.st_root st)) as [hits|e] eqn:Hnodes.
  - assert (hits = []) as -> by (apply Hhits; assumption || reflexivity).
    split; [reflexivity |]. now intros hits' [= <-].
  - split; [reflexivity | discriminate].
Qed.

Lemma plainHeap_reachable (l : Resolver.loc) :
  Resolver.reachable plainHeap (Resolver.VObject 1%positive) l -> l = 1%positive \/ l = 2%positive.
Proof.
  intros H. inversion H as [|l0 o k v l' Ho Hk Hv]; subst; [now left |].
  vm_compute in Ho. injection Ho as <-. simpl in Hk.
  destruct (k =? "openapi")%string; [injection Hk as <-; inversion Hv |].
  destruct (k =? "info")%string; [|discriminate]. injection Hk as <-.
  inversion Hv as [|l0 o k' v' l'' Ho' Hk' Hv']; subst; [now right |].
  vm_compute in Ho'. injection Ho' as <-. simpl in Hk'.
  destruct (k' =? "title")%string; [|discriminate]. injection Hk' as <-. inversion Hv'.
Qed.

Lemma resolve_without_references_witness :
  Resolver.nodesSound (Resolver.nodes 10)
  /\ (forall l, Resolver.reachable plainHeap (Resolver.VObject 1%positive) l ->
                Resolver.carriesRef plainHeap (Resolver.VObject l) = false)
  /\ Resolver.resolve (Resolver.nodes 10) plainState = (Ok tt, plainState).
Proof.
  assert (Hnone : forall l, Resolver.reachable plainHeap (Resolver.VObject 1%positive) l ->
                            Resolver.carriesRef plainHeap (Resolver.VObject l) = false).
  { intros l [->| ->]%plainHeap_reachable; reflexivity. }
  split; [apply nodes_sound |]. split; [exact Hnone |].
  destruct (resolve_without_references (Resolver.nodes 10) plainState
              (nodes_sound 10) Hnone) as [_ Hhits].
  apply (Hhits []). vm_compute. reflexivity.
Defined.

(** ** What [run] writes into the document *)

Lemma keeps_eret {S A} (a : A) (s : S) : keeps (eret a) s.
Proof. reflexivity. Qed.

Lemma keeps_ethrow {S A} (e : exn) (s : S) : keeps (@ethrow S A e) s.
Proof. reflexivity. Qed.

Lemma keeps_elift {S A} (r : result A) (s : S) : keeps (elift r) s.
Proof. reflexivity. Qed.

Lemma keeps_eread {S A} (f : S -> A) (s : S) : keeps (eread f) s.
Proof. reflexivity. Qed.

Lemma keeps_ebind {S A B} (m : Eff S A) (k : A -> Eff S B) (s : S) :
  keeps m s -> (forall a, keeps (k a) s) -> keeps (ebind m k) s.
Proof.
  unfold keeps, ebind. intros Hm Hk.
  destruct (m s) as [[a|e] s1]; simpl in Hm; subst s1; [apply Hk | reflexivity].
Qed.

Lemma keeps_zoom {S T A} (get : S -> T) (set : T -> S -> S) (m : Eff T A) (s : S) :
  keeps m (get s) -> set (get s) s = s -> keeps (zoom get set m) s.
Proof.
  unfold keeps, zoom. intros Hm Hset.
  destruct (m (get s)) as [r t]; simpl in *. now subst t.
Qed.

Lemma keeps_atKey {V A} (k : string) (m : Eff V A) (o : JsObject V) :
  (forall v, getProp k o = Some v -> keeps m v) -> keeps (atKey k m) o.
Proof.
  unfold keeps, atKey. intros Hm.
  destruct (getProp k o) as [v|] eqn:Hk; [|reflexivity].
  specialize (Hm v eq_refl). destruct (m v) as [r v']; simpl in *. subst v'.
  now apply setProp_same.
Qed.

Lemma keeps_mapEff {S A B} (f : A -> Eff S B) (xs : list A) (s : S) :
  (forall x, In x xs -> keeps (f x) s) -> keeps (mapEff f xs) s.
Proof.
  induction xs as [|x xs IH]; intros Hf; simpl; [apply keeps_eret |].
  apply keeps_ebind; [apply Hf; now left |]. intros y.
  apply keeps_ebind; [apply IH; intros; apply Hf; now right |]. intros ys.
  apply keeps_eret.
Qed.

Lemma keeps_mapElements {T B} (f : Eff T B) (xs : list T) :
  (forall x, In x xs -> keeps f x) -> keeps (mapElements f) xs.
Proof.
  unfold keeps. induction xs as [|x xs IH]; intros Hf; simpl; [reflexivity |].
  pose proof (Hf x (or_introl eq_refl)) as Hx.
  destruct (f x) as [[y|e] x']; simpl in Hx; subst x'.
  - assert (Hxs : snd (mapElements f xs) = xs) by (apply IH; intros; apply Hf; now right).
    destruct (mapElements f xs) as [[ys|e] xs']; simpl in *; now subst xs'.
  - reflexivity.
Qed.

Lemma keeps_onHeaders {A} (m : Eff HeadersObject A) (r : ResponseObject) :
  (forall headers, ro_headers r = Some headers -> keeps m headers) ->
  keeps (onHeaders m) r.
Proof.
  unfold keeps, onHeaders. intros Hm.
  destruct (ro_headers r) as [headers|] eqn:Hh; [|reflexivity].
  specialize (Hm headers eq_refl). destruct (m headers) as [x headers']; simpl in *.
  subst headers'. destruct r; simpl in *. now subst.
Qed.

Lemma setOperation_same (m : HttpMethod) (op : OperationObject) (item : PathItemObject) :
  getOperation m item = Some op -> setOperation m op item = item.
Proof. destruct item, m; simpl; now intros ->. Qed.

Lemma keeps_onOperation {A} (httpMethod : HttpMethod) (m : Eff OperationObject A)
  (item : PathItemObject) :
  (forall op, getOperation httpMethod item = Some op -> keeps m op) ->
  keeps (onOperation httpMethod m) item.
Proof.
  unfold keeps, onOperation. intros Hm.
  destruct (getOperation httpMethod item) as [op|] eqn:Hop; [|reflexivity].
  specialize (Hm op eq_refl). destruct (m op) as [r op']; simpl in *. subst op'.
  now apply setOperation_same.
Qed.

Lemma keeps_forMethods {A} (body : HttpMethod -> Eff OperationObject A)
  (methods : list HttpMethod) (item : PathItemObject) :
  (forall httpMethod op, In httpMethod methods ->
      getOperation httpMethod item = Some op -> keeps (body httpMethod) op) ->
  keeps (forMethods body methods) item.
Proof.
  induction methods as [|h rest IH]; intros Hb; simpl; [apply keeps_eret |].
  apply keeps_ebind.
  - apply keeps_onOperation. intros op Hop. apply Hb; [now left | assumption].
  - intros r. apply keeps_ebind; [|intros; apply keeps_eret].
    apply IH. intros h' op Hin Hop. apply Hb; [now right | assumption].
Qed.

Lemma keeps_forPaths {A} (body : string -> Path -> Eff PathItemObject (list A))
  (rawPaths : list string) (paths : PathObject) :
  (forall rawPath path item, getProp rawPath paths = Some item ->
      keeps (body rawPath path) item) ->
  keeps (forPaths body rawPaths) paths.
Proof.
  induction rawPaths as [|k rest IH]; intros Hb; simpl; [apply keeps_eret |].
  apply keeps_ebind; [apply keeps_elift |]. intros path.
  apply keeps_ebind.
  - apply keeps_atKey. intros item Hitem. now apply Hb.
  - intros ms. apply keeps_ebind; [now apply IH | intros; apply keeps_eret].
Qed.

Lemma quietHeader_fields (name : string) (h : HeaderObject) :
  quietHeader name h = true ->
  h = {| ho_name := Some name; ho_in := Some in_header; ho_fields := ho_fields h |}
  /\ quietFields (ho_fields h) = true.
Proof.
  unfold quietHeader. destruct h as [[n|] [[]|] f]; simpl; try discriminate.
  intros [Hn Hf]%andb_prop. apply String.eqb_eq in Hn. now subst.
Qed.

Lemma quietResponse_header (r : ResponseObject) (headers : HeadersObject)
  (name : string) (h : HeaderObject) :
  quietResponse r = true -> ro_headers r = Some headers ->
  getProp name headers = Some h -> quietHeader name h = true.
Proof.
  unfold quietResponse. intros Hq Hr Hh. rewrite Hr in Hq. apply getProp_In in Hh.
  rewrite forallb_forall in Hq. exact (Hq _ Hh).
Qed.

Lemma ModelerA_parseResponses_keeps (responses : ResponsesObject) :
  forallb (fun '(_, r) => quietResponse r) responses = true ->
  keeps ModelerA.parseResponses responses.
Proof.
  intros Hq. unfold ModelerA.parseResponses.
  apply keeps_ebind; [|intros; apply keeps_eret].
  apply keeps_mapEff. intros k _. unfold ModelerA.parseResponse.
  destruct (negb _); [apply keeps_ethrow |].
  apply keeps_atKey. intros r Hr.
  assert (Hqr : quietResponse r = true).
  { apply getProp_In in Hr. rewrite forallb_forall in Hq. exact (Hq _ Hr). }
  apply keeps_ebind; [|intros; apply keeps_ebind;
                         [apply keeps_eread | intros; apply keeps_eret]].
  apply keeps_onHeaders. intros headers Hheaders.
  apply keeps_mapEff. intros name _. apply keeps_atKey. intros h Hh.
  destruct (quietHeader_fields name h
              (quietResponse_header _ _ _ _ Hqr Hheaders Hh)) as [Heq _].
  unfold keeps, ModelerA.headerAsParam. simpl. now rewrite <- Heq.
Qed.

Lemma set_oo_responses_same (op : OperationObject) :
  set_oo_responses (oo_responses op) op = op.
Proof. now destruct op. Qed.

Lemma set_oo_parameters_same (op : OperationObject) :
  set_oo_parameters (oo_parameters op) op = op.
Proof. now destruct op. Qed.

Lemma set_pi_parameters_same (item : PathItemObject) :
  set_pi_parameters (pi_parameters item) item = item.
Proof. now destruct item. Qed.

Lemma set_oa_paths_same (doc : OpenAPIObject) : set_oa_paths (oa_paths doc) doc = doc.
Proof. now destruct doc. Qed.

Lemma quietPathItem_operation (item : PathItemObject) (httpMethod : HttpMethod)
  (op : OperationObject) :
  quietPathItem item = true -> getOperation httpMethod item = Some op ->
  quietOperation op = true.
Proof.
  unfold quietPathItem. intros [_ Hq]%andb_prop Hop.
  rewrite forallb_forall in Hq.
  assert (Hin : In httpMethod httpMethods) by (destruct httpMethod; simpl; tauto).
  specialize (Hq _ Hin). simpl in Hq. now rewrite Hop in Hq.
Qed.

Lemma quietDocument_item (doc : OpenAPIObject) (rawPath : string) (item : PathItemObject) :
  quietDocument doc = true -> getProp rawPath (oa_paths doc) = Some item ->
  quietPathItem item = true.
Proof.
  unfold quietDocument. intros Hq Hitem. apply getProp_In in Hitem.
  rewrite forallb_forall in Hq. exact (Hq _ Hitem).
Qed.

Lemma ModelerA_run_keeps (doc : OpenAPIObject) :
  quietDocument doc = true -> keeps ModelerA.run doc.
Proof.
  intros Hq. unfold keeps, ModelerA.run.
  destruct (negb _); [reflexivity |].
  apply keeps_ebind; [apply keeps_elift |]. intros servers.
  apply keeps_ebind; [|intros; apply keeps_eret].
  apply keeps_zoom; [|apply set_oa_paths_same].
  apply keeps_forPaths. intros rawPath path item Hitem.
  pose proof (quietDocument_item _ _ _ Hq Hitem) as Hqi.
  unfold ModelerA.runPath.
  repeat (apply keeps_ebind;
          [first [apply keeps_eread | apply keeps_elift] | intros ?]).
  destruct (negb _); [apply keeps_ethrow |].
  apply keeps_forMethods. intros httpMethod op _ Hop.
  pose proof (quietPathItem_operation _ _ _ Hqi Hop) as Hqo.
  unfold ModelerA.runOperation.
  repeat (apply keeps_ebind;
          [first [apply keeps_eread | apply keeps_elift] | intros ?]).
  destruct (negb _); [apply keeps_ethrow |].
  apply keeps_ebind; [apply keeps_elift |]. intros _.
  apply keeps_ebind.
  - apply keeps_zoom; [|apply set_oo_responses_same].
    apply ModelerA_parseResponses_keeps.
    unfold quietOperation in Hqo. now apply andb_prop in Hqo as [_ Hqo].
  - intros responses.
    apply keeps_ebind; [apply keeps_eread | intros; apply keeps_eret].
Qed.

Lemma ModelerB_normalizeExamples_keeps (example : option Json)
  (declared : option (JsObject Json)) :
  negb (isSome declared && truthyOpt example) = true ->
  keeps (ModelerB.normalizeExamples example) declared.
Proof.
  unfold keeps, ModelerB.normalizeExamples.
  destruct (truthyOpt example); [|reflexivity].
  destruct declared; [discriminate | reflexivity].
Qed.

Lemma ModelerB_normalizeContentExamples_keeps (content : ContentObject) :
  quietContent content = true -> keeps ModelerB.normalizeContentExamples content.
Proof.
  unfold quietContent. intros Hq. unfold ModelerB.normalizeContentExamples.
  apply (keeps_zoom (getProp "examples")).
  - apply ModelerB_normalizeExamples_keeps.
    now destruct (getProp "example" content).
  - destruct (getProp "examples" content) eqn:E; [now apply setProp_same | reflexivity].
Qed.

Lemma ModelerB_parseContent_keeps (content : ContentObject) :
  quietContent content = true -> keeps ModelerB.parseContent content.
Proof.
  intros Hq. unfold keeps, ModelerB.parseContent.
  generalize (@nil (string * ModelerB.MediaTypeContent)) as result.
  induction (ModelerB.keys content) as [|mediaType rest IH]; intros result; simpl;
    [reflexivity |].
  apply keeps_ebind; [|intros entry; apply IH].
  unfold ModelerB.parseMediaType.
  apply keeps_ebind; [apply keeps_eread |].
  intros [contentObj|]; [|apply keeps_ethrow].
  apply keeps_ebind; [|intros; apply keeps_eret].
  now apply ModelerB_normalizeContentExamples_keeps.
Qed.

Lemma set_po_fields_same (p : ParameterObject) : set_po_fields (po_fields p) p = p.
Proof. now destruct p. Qed.

Lemma set_pf_examples_same (f : ParameterFields) : set_pf_examples (pf_examples f) f = f.
Proof. now destruct f. Qed.

Lemma ModelerB_parseParameterBase_keeps (parameter : ParameterObject) :
  quietFields (po_fields parameter) = true -> keeps ModelerB.parseParameterBase parameter.
Proof.
  unfold quietFields. intros [Hexamples Hcontent]%andb_prop.
  unfold keeps, ModelerB.parseParameterBase.
  destruct (Location_eqb _ _ && _); [reflexivity |].
  apply keeps_ebind.
  - apply keeps_zoom; [|apply set_po_fields_same].
    apply keeps_zoom; [|apply set_pf_examples_same].
    now apply ModelerB_normalizeExamples_keeps.
  - intros examples. apply keeps_ebind; [|intros; apply keeps_eret].
    apply keeps_zoom; [|apply set_po_fields_same].
    unfold keeps. destruct (pf_content (po_fields parameter)) as [declared|] eqn:E;
      [|reflexivity].
    pose proof (ModelerB_parseContent_keeps declared Hcontent) as Hk. unfold keeps in Hk.
    destruct (ModelerB.parseContent declared) as [r declared']. simpl in *. subst declared'.
    destruct (po_fields parameter); simpl in *. now subst.
Qed.

Lemma ModelerB_parseHeader_keeps (name : string) (h : HeaderObject) :
  quietHeader name h = true -> keeps (ModelerB.parseHeader name) h.
Proof.
  intros [Heq Hf]%quietHeader_fields. unfold keeps, ModelerB.parseHeader.
  pose proof (ModelerB_parseParameterBase_keeps
                {| po_name := name; po_in := in_header; po_fields := ho_fields h |} Hf)
    as Hk.
  unfold keeps in Hk. destruct (ModelerB.parseParameterBase _) as [r param'].
  simpl in *. subst param'. simpl. now rewrite <- Heq.
Qed.

Lemma ModelerB_parseParameters_keeps (parameters : option (list ParameterObject)) :
  quietParameters parameters = true -> keeps ModelerB.parseParameters parameters.
Proof.
  unfold quietParameters, keeps, ModelerB.parseParameters.
  destruct parameters as [parameters|]; [|reflexivity]. intros Hq.
  assert (Hk : keeps (mapElements ModelerB.parseParameter) parameters).
  { apply keeps_mapElements. intros p Hp. rewrite forallb_forall in Hq.
    unfold ModelerB.parseParameter.
    apply keeps_ebind; [|intros; apply keeps_eret].
    apply ModelerB_parseParameterBase_keeps. now apply Hq. }
  unfold keeps in Hk. destruct (mapElements _ parameters) as [r parameters'].
  simpl in *. now subst.
Qed.

Lemma ModelerB_parseRequestBody_keeps (op : OperationObject) :
  match oo_requestBody op with
  | Some body => quietContent (rb_content body)
  | None => true
  end = true ->
  keeps ModelerB.parseRequestBody op.
Proof.
  unfold keeps, ModelerB.parseRequestBody.
  destruct (oo_requestBody op) as [body|] eqn:E; [|reflexivity]. intros Hq.
  pose proof (ModelerB_parseContent_keeps _ Hq) as Hk. unfold keeps in Hk.
  destruct (ModelerB.parseContent (rb_content body)) as [r declared'].
  simpl in *. subst declared'. destruct body, op; simpl in *. now subst.
Qed.

Lemma ModelerB_parseResponses_keeps (responses : ResponsesObject) :
  forallb (fun '(_, r) => quietResponse r) responses = true ->
  keeps ModelerB.parseResponses responses.
Proof.
  intros Hq. unfold ModelerB.parseResponses.
  apply keeps_ebind; [|intros; apply keeps_eret].
  apply keeps_mapEff. intros k _. unfold ModelerB.parseResponse.
  destruct (negb _); [apply keeps_ethrow |].
  apply keeps_atKey. intros r Hr.
  assert (Hqr : quietResponse r = true).
  { apply getProp_In in Hr. rewrite forallb_forall in Hq. exact (Hq _ Hr). }
  apply keeps_ebind; [|intros; apply keeps_ebind;
                         [apply keeps_eread | intros; apply keeps_eret]].
  apply keeps_onHeaders. intros headers Hheaders.
  apply keeps_mapEff. intros name _. apply keeps_atKey. intros h Hh.
  apply ModelerB_parseHeader_keeps.
  exact (quietResponse_header _ _ _ _ Hqr Hheaders Hh).
Qed.

Lemma ModelerB_run_keeps (doc : OpenAPIObject) :
  quietDocument doc = true -> keeps ModelerB.run doc.
Proof.
  intros Hq. unfold keeps, ModelerB.run.
  destruct (negb _); [reflexivity |].
  apply keeps_ebind; [apply keeps_elift |]. intros servers.
  apply keeps_ebind; [apply keeps_elift |]. intros security.
  apply keeps_ebind; [|intros; apply keeps_eret].
  apply keeps_zoom; [|apply set_oa_paths_same].
  apply keeps_forPaths. intros rawPath path item Hitem.
  pose proof (quietDocument_item _ _ _ Hq Hitem) as Hqi.
  unfold ModelerB.runPath.
  repeat (apply keeps_ebind;
          [first [apply keeps_eread | apply keeps_elift] | intros ?]).
  apply keeps_ebind.
  { apply keeps_zoom; [|apply set_pi_parameters_same].
    apply ModelerB_parseParameters_keeps.
    unfold quietPathItem in Hqi. now apply andb_prop in Hqi as [Hqi _]. }
  intros pathParameters.
  destruct (negb _); [apply keeps_ethrow |].
  apply keeps_forMethods. intros httpMethod op _ Hop.
  pose proof (quietPathItem_operation _ _ _ Hqi Hop) as Hqo.
  unfold quietOperation in Hqo.
  apply andb_prop in Hqo as [[Hparameters Hbody]%andb_prop Hresponses].
  unfold ModelerB.runOperation.
  repeat (apply keeps_ebind;
          [first [apply keeps_eread | apply keeps_elift] | intros ?]).
  apply keeps_ebind.
  { apply keeps_zoom; [|apply set_oo_parameters_same].
    now apply ModelerB_parseParameters_keeps. }
  intros operationParameters.
  destruct (negb _); [apply keeps_ethrow |].
  apply keeps_ebind; [apply keeps_elift |]. intros _.
  apply keeps_ebind; [now apply ModelerB_parseRequestBody_keeps |]. intros requestBody.
  repeat (apply keeps_ebind;
          [first [apply keeps_eread | apply keeps_elift] | intros ?]).
  apply keeps_ebind.
  - apply keeps_zoom; [|apply set_oo_responses_same].
    now apply ModelerB_parseResponses_keeps.
  - intros responses.
    apply keeps_ebind; [apply keeps_eread | intros; apply keeps_eret].
Qed.

Lemma run_writes_into_document_counterexample :
  (exists model doc',
     ModelerA.run headerDocument = (Ok model, doc') /\ doc' <> headerDocument)
  /\ (exists model doc',
     ModelerB.run headerDocument = (Ok model, doc') /\ doc' <> headerDocument).
Proof.
  split.
  - do 2 eexists. split; [vm_compute; reflexivity |]. discriminate.
  - do 2 eexists. split; [vm_compute; reflexivity |]. discriminate.
Qed.

(** C2, as amended.  [run] does no input or output and reads no state but
    its argument, and it returns a model or throws; it is not free of writes
    into the document: it writes [name] and [in] into every response header
    object it parses, and (in the later draft) the entry of the empty key
    into an [examples] object that stands next to a truthy [example].  On a
    document where these writes have nothing to change -- every response
    header carries its key as [name] and [header] as [in], as when no
    response declares a header, and no [examples] stands next to a truthy
    [example] -- the document is after [run] what it was before, whether
    [run] returns or throws, in both drafts. *)
Theorem run_leaves_quiet_document_unchanged (doc : OpenAPIObject) :
  quietDocument doc = true ->
  snd (ModelerA.run doc) = doc /\ snd (ModelerB.run doc) = doc.
Proof.
  intros Hq. split; [now apply ModelerA_run_keeps | now apply ModelerB_run_keeps].
Qed.

Lemma run_leaves_quiet_document_unchanged_witness :
  quietDocument statusDocument = true
  /\ snd (ModelerA.run statusDocument) = statusDocument
  /\ snd (ModelerB.run statusDocument) = statusDocument.
Proof.
  split; [reflexivity |].
  apply (run_leaves_quiet_document_unchanged statusDocument). reflexivity.
Defined.

(** ** [checkParameters] *)

Lemma String_leb_trans (a b c : string) :
  String.leb a b = true -> String.leb b c = true -> String.leb a c = true.
Proof.
  unfold String.leb. revert b c.
  induction a as [|ca a IH]; intros [|cb b] [|cc c]; simpl;
    try (intros; reflexivity || discriminate).
  unfold Ascii.compare.
  destruct (N.compare_spec (N_of_ascii ca) (N_of_ascii cb)) as [Hab|Hab|Hab];
    destruct (N.compare_spec (N_of_ascii cb) (N_of_ascii cc)) as [Hbc|Hbc|Hbc];
    destruct (N.compare_spec (N_of_ascii ca) (N_of_ascii cc)) as [Hac|Hac|Hac];
    try (exfalso; lia); intros H1 H2; try discriminate; try reflexivity.
  now apply (IH b c).
Qed.

Lemma sortStrings_sorted (l : list string) :
  StronglySorted (fun a b => String.leb a b = true) (sortStrings l).
Proof.
  apply (sortBy_sorted_on String.leb (fun _ => True)).
  - intros a b _ _ H. destruct (String.leb_total a b) as [H'|H']; congruence.
  - intros a b c _ _ _. apply String_leb_trans.
  - apply Forall_forall. intros; exact I.
Qed.

(** In a sorted array two equal strings stand next to each other: the scan
    for adjacent duplicates finds every duplicate. *)
Lemma someAdjacentEqual_sorted (keys : list string) :
  StronglySorted (fun a b => String.leb a b = true) keys ->
  someAdjacentEqual keys = false <-> NoDup keys.
Proof.
  induction keys as [|k keys IH]; intros Hs.
  - split; [constructor | reflexivity].
  - inversion Hs as [|? ? Hs' Hk]; subst. specialize (IH Hs').
    destruct keys as [|k' rest].
    + split; [intros _; apply NoDup_singleton | reflexivity].
    + change (someAdjacentEqual (k :: k' :: rest))
        with (String.eqb k' k || someAdjacentEqual (k' :: rest)).
      rewrite (NoDup_cons k).
      destruct (String.eqb_spec k' k) as [->|Hne]; simpl.
      * split; [discriminate |]. intros [Hnotin _]. elim Hnotin. apply elem_of_cons. now left.
      * rewrite IH. split; [|tauto].
        intros Hnd. split; [|assumption].
        intros [Heq|Hin]%elem_of_cons; [congruence |].
        inversion Hs' as [|? ? _ Hk']; subst.
        rewrite Forall_forall in Hk, Hk'.
        apply Hne. apply String.leb_antisym.
        -- now apply Hk'.
        -- apply Hk. apply elem_of_cons. now left.
Qed.

Section CheckParameters.
Context {P : Type} `{ParameterLike P}.

(** [checkParameters] is true exactly on the lists without two equal keys. *)
Lemma checkParameters_NoDup (parameter : list P) :
  checkParameters parameter = true <-> NoDup (map getParameterKey parameter).
Proof.
  unfold checkParameters. rewrite Bool.negb_true_iff.
  rewrite (someAdjacentEqual_sorted _ (sortStrings_sorted _)).
  unfold sortStrings. now rewrite sortBy_Permutation.
Qed.
End CheckParameters.

(** ** Keys and pairs: [JSON.stringify] loses nothing *)

Lemma readChar_escapeChar (c : ascii) (rest : string) :
  readChar (escapeChar c +:+ rest) = Some (c, rest).
Proof.
  destruct c as [[] [] [] [] [] [] [] []]; reflexivity.
Qed.

Lemma escapeString_inj (a c r1 r2 : string) :
  escapeString a +:+ String quoteChar r1 = escapeString c +:+ String quoteChar r2 ->
  a = c /\ r1 = r2.
Proof.
  revert c. induction a as [|x a IH]; intros [|y c] Heq.
  - injection Heq as ->. now split.
  - apply (f_equal readChar) in Heq. simpl escapeString in Heq.
    rewrite append_assoc, readChar_escapeChar in Heq. discriminate.
  - apply (f_equal readChar) in Heq. simpl escapeString in Heq.
    rewrite append_assoc, readChar_escapeChar in Heq. discriminate.
  - pose proof (f_equal readChar Heq) as Hread. simpl escapeString in Hread.
    rewrite !append_assoc, !readChar_escapeChar in Hread.
    injection Hread as -> Hrest. destruct (IH c Hrest) as [-> ->]. now split.
Qed.

Lemma key_shape (name location : string) :
  JSON_stringify_strings [name; location]
  = String "[" (String quoteChar
      (escapeString name +:+ String quoteChar (String "," (String quoteChar
        (escapeString location +:+ String quoteChar "]"))))).
Proof.
  unfold JSON_stringify_strings, JSON_stringify_string. simpl join. simpl map.
  change (join "," [String quoteChar (escapeString name +:+ String quoteChar "");
                    String quoteChar (escapeString location +:+ String quoteChar "")])
    with (String quoteChar (escapeString name +:+ String quoteChar "")
            +:+ "," +:+ String quoteChar (escapeString location +:+ String quoteChar "")).
  rewrite !append_cons, !append_nil_l, !append_assoc, !append_cons, !append_nil_l.
  rewrite !append_assoc, !append_cons, !append_nil_l. reflexivity.
Qed.

Lemma JSON_stringify_strings_inj (a b c d : string) :
  JSON_stringify_strings [a; b] = JSON_stringify_strings [c; d] -> a = c /\ b = d.
Proof.
  rewrite !key_shape. intros [= Heq].
  apply escapeString_inj in Heq as [-> [= Heq]].
  apply escapeString_inj in Heq as [-> _]. now split.
Qed.

Lemma Location_string_inj (a b : Location) :
  Location_string a = Location_string b -> a = b.
Proof. destruct a, b; simpl; intros H; try reflexivity; discriminate H. Qed.

Lemma NoDup_map_inj {A B} (f : A -> B) (l : list A) :
  (forall x y, f x = f y -> x = y) -> NoDup (map f l) <-> NoDup l.
Proof.
  intros Hf. induction l as [|x l IH]; simpl.
  - split; constructor.
  - rewrite !NoDup_cons, IH, !list_elem_of_In, in_map_iff.
    split; intros [Hnotin Hnd]; (split; [|assumption]).
    + intros Hin. apply Hnotin. now exists x.
    + intros (y & Hy & Hin). apply Hf in Hy. now subst.
Qed.

Section KeyPairs.
Context {P : Type} `{ParameterLike P}.

Lemma getParameterKey_inj (p q : P) :
  getParameterKey p = getParameterKey q <-> keyPair p = keyPair q.
Proof.
  unfold getParameterKey, keyPair. split.
  - intros [Hn Hl%Location_string_inj]%JSON_stringify_strings_inj. congruence.
  - now intros [= -> ->].
Qed.

(** The testable property of the specification: [checkParameters] is true
    exactly on the lists whose (name, location) pairs are unique. *)
Lemma checkParameters_unique (parameter : list P) :
  checkParameters parameter = true <-> NoDup (map keyPair parameter).
Proof.
  rewrite checkParameters_NoDup.
  assert (Hmap : map getParameterKey parameter
                 = map (fun '(name, location) =>
                          JSON_stringify_strings [name; Location_string location])
                       (map keyPair parameter)).
  { rewrite map_map. apply map_ext. intros p. reflexivity. }
  rewrite Hmap. apply NoDup_map_inj. intros [n1 l1] [n2 l2] Heq.
  apply JSON_stringify_strings_inj in Heq as [-> Hl%Location_string_inj]. now subst.
Qed.
End KeyPairs.

(** The half of the uniqueness invariant that [run] does enforce: when it
    returns a model, the path-level parameters of every path item have
    unique (name, location) pairs. *)
Lemma ModelerA_run_path_parameters (doc doc' : OpenAPIObject) (model : ModelerA.Model)
  (rawPath : string) (item : PathItemObject) :
  ModelerA.run doc = (Ok model, doc') ->
  getProp rawPath (oa_paths doc) = Some item ->
  exists pathParameters,
    ModelerA.parseParameters (pi_parameters item) = Ok pathParameters
    /\ NoDup (map keyPair (default [] pathParameters)).
Proof.
  intros Hrun Hitem. unfold ModelerA.run in Hrun.
  destruct (negb (oa_openapi doc =? "3.0.0")%string); [discriminate |].
  apply ebind_Ok in Hrun as (servers & s1 & Hservers & Hrun).
  apply elift_Ok in Hservers as [Hservers ->].
  apply ebind_Ok in Hrun as (operations & s2 & Hloop & Hrun).
  apply zoom_Ok in Hloop as (paths' & Hloop & _).
  destruct (forPaths_In _ _ _ _ _ Hloop rawPath item
              (getProp_Object_keys _ _ _ Hitem) Hitem)
    as (path & ms0 & item' & Hpath & Hbody & Hincl).
  unfold ModelerA.runPath in Hbody. repeat eff_step.
  match goal with
  | Hp : ModelerA.parseParameters _ = Ok ?ps |- _ =>
      exists ps; split; [exact Hp |];
      destruct (checkParameters (default [] ps)) eqn:Hcheck; [|discriminate]
  end.
  now apply checkParameters_unique.
Qed.

Lemma ModelerB_run_path_parameters (doc doc' : OpenAPIObject) (model : ModelerB.Model)
  (rawPath : string) (item : PathItemObject) :
  ModelerB.run doc = (Ok model, doc') ->
  getProp rawPath (oa_paths doc) = Some item ->
  exists pathParameters parameters',
    ModelerB.parseParameters (pi_parameters item) = (Ok pathParameters, parameters')
    /\ NoDup (map keyPair (default [] pathParameters)).
Proof.
  intros Hrun Hitem. unfold ModelerB.run in Hrun.
  destruct (negb (oa_openapi doc =? "3.0.0")%string); [discriminate |].
  apply ebind_Ok in Hrun as (servers & s1 & Hservers & Hrun).
  apply elift_Ok in Hservers as [Hservers ->].
  apply ebind_Ok in Hrun as (security & s2 & Hsecurity & Hrun).
  apply elift_Ok in Hsecurity as [Hsecurity ->].
  apply ebind_Ok in Hrun as (operations & s3 & Hloop & Hrun).
  apply zoom_Ok in Hloop as (paths' & Hloop & _).
  assert (Hkey : In rawPath (ModelerB.keys (oa_paths doc))).
  { unfold ModelerB.keys. apply List.filter_In. split; [|reflexivity].
    eapply getProp_Object_keys; eassumption. }
  destruct (forPaths_In _ _ _ _ _ Hloop rawPath item Hkey Hitem)
    as (path & ms0 & item' & Hpath & Hbody & Hincl).
  unfold ModelerB.runPath in Hbody. repeat eff_step.
  match goal with
  | Hz : zoom _ _ _ _ = _ |- _ => apply zoom_Ok in Hz as (parameters' & Hparameters & ->)
  end.
  match goal with
  | Hp : ModelerB.parseParameters _ = (Ok ?ps, _) |- _ =>
      exists ps, parameters'; split; [exact Hp |];
      destruct (checkParameters (default [] ps)) eqn:Hcheck; [|discriminate]
  end.
  now apply checkParameters_unique.
Qed.

(** * Further properties of the code *)

Lemma split_no_sep (sep : ascii) (s : string) :
  Forall (fun p => hasChar sep p = false) (split sep s).
Proof.
  induction s as [|c s IH]; simpl.
  - repeat constructor.
  - destruct (Ascii.eqb_spec c sep) as [->|Hc].
    + constructor; [reflexivity | assumption].
    + destruct (split sep s) as [|p ps]; [repeat constructor; simpl|].
      * destruct (Ascii.eqb_spec c sep); [contradiction | reflexivity].
      * inversion IH as [|? ? Hp Hps]; subst. constructor; [|assumption].
        simpl. destruct (Ascii.eqb_spec c sep); [contradiction | assumption].
Qed.

Lemma hasChar_app (c : ascii) (a b : string) :
  hasChar c (a +:+ b) = hasChar c a || hasChar c b.
Proof.
  induction a as [|x a IH]; [reflexivity |].
  rewrite append_cons. simpl. now rewrite IH, orb_assoc.
Qed.

Lemma parsePathPart_proper (part : string) (cs : list PathComponent) :
  hasChar "{" part = false ->
  parsePathPart part = Ok cs ->
  Forall (fun x => properComponent x = true) (List.filter keepComponent cs).
Proof.
  intros Hopen H. unfold parsePathPart in H.
  pose proof (join_split "}" part) as Hj.
  pose proof (split_no_sep "}" part) as Hs.
  destruct (split "}" part) as [|a [|b [|c l]]]; simpl in H; try discriminate.
  destruct (String.eqb_spec a "") as [->|Ha]; [discriminate |].
  injection H as <-.
  change (join "}" [a; b]) with (a +:+ "}" +:+ b) in Hj.
  rewrite <- Hj, !hasChar_app in Hopen.
  apply orb_false_elim in Hopen as [Ha' Hb'%orb_false_elim].
  destruct Hb' as [_ Hb'].
  inversion Hs as [|? ? Hsa Hs']; subst. inversion Hs' as [|? ? Hsb _]; subst.
  simpl. destruct (String.eqb_spec b "") as [->|Hb]; simpl.
  - constructor; [|constructor]. simpl.
    destruct (String.eqb_spec a ""); [contradiction |]. now rewrite Ha', Hsa.
  - constructor; [|constructor; [|constructor]]; simpl.
    + destruct (String.eqb_spec a ""); [contradiction |]. now rewrite Ha', Hsa.
    + destruct (String.eqb_spec b ""); [contradiction |]. now rewrite Hb'.
Qed.

Lemma parsePathParts_proper (parts : list string) (cs : list PathComponent) :
  Forall (fun p => hasChar "{" p = false) parts ->
  parsePathParts parts = Ok cs ->
  Forall (fun x => properComponent x = true) (List.filter keepComponent cs).
Proof.
  revert cs. induction parts as [|part rest IH]; intros cs Hparts H; simpl in H.
  - injection H as <-. constructor.
  - inversion Hparts as [|? ? Hp Hrest]; subst.
    destruct (parsePathPart part) as [cs1|e] eqn:E1; simpl in H; [|discriminate].
    destruct (parsePathParts rest) as [cs2|e] eqn:E2; simpl in H; [|discriminate].
    injection H as <-. rewrite List.filter_app. apply Forall_app. split.
    + now apply (parsePathPart_proper part).
    + now apply IH.
Qed.

(** X1. Whenever [parsePath] returns, every component of the result is
    proper -- no constant is empty or holds an opening brace, no parameter
    name is empty or holds a brace -- and re-joining the components gives
    the template back. *)
Theorem parsePath_components (t : string) (p : Path) :
  parsePath t = Ok p ->
  Forall (fun x => properComponent x = true) p /\ renderPath p = t.
Proof.
  intros H. split; [|now apply parsePath_render].
  unfold parsePath in H.
  pose proof (split_no_sep "{" t) as Hs.
  pose proof (split_not_nil "{" t) as Hn.
  destruct (split "{" t) as [|first parts]; [contradiction |].
  inversion Hs as [|? ? Hfirst Hparts]; subst.
  cbn [shift or_empty] in H.
  destruct (parsePathParts parts) as [cs|e] eqn:E; cbn [rbind] in H; [|discriminate].
  assert (Hp : List.filter keepComponent ([PathComponentConstant first] ++ cs) = p)
    by (injection H as H; exact H).
  rewrite <- Hp, List.filter_app. apply Forall_app. split.
  - simpl. destruct (String.eqb_spec first "") as [->|Hne]; simpl; [constructor |].
    constructor; [|constructor]. simpl.
    destruct (String.eqb_spec first ""); [contradiction |]. now rewrite Hfirst.
  - now apply (parsePathParts_proper parts).
Qed.

Lemma parsePath_components_witness :
  parsePath "/pets/{id}" = Ok [PathComponentConstant "/pets/"; PathComponentParameter "id"]
  /\ Forall (fun x => properComponent x = true)
       [PathComponentConstant "/pets/"; PathComponentParameter "id"]
  /\ renderPath [PathComponentConstant "/pets/"; PathComponentParameter "id"] = "/pets/{id}".
Proof.
  split; [reflexivity |].
  apply (parsePath_components "/pets/{id}"). reflexivity.
Defined.

(** ** The templates that [parsePath] accepts *)
Lemma is_ok_parsePathPart (part : string) :
  is_ok (parsePathPart part)
  = match split "}" part with
    | [a; _] => negb (String.eqb a "")
    | _ => false
    end.
Proof.
  unfold parsePathPart.
  destruct (split "}" part) as [|a [|b [|c l]]]; simpl; try reflexivity.
  now destruct (String.eqb a "").
Qed.

Lemma is_ok_parsePathParts (part : string) (rest : list string) :
  is_ok (parsePathParts (part :: rest))
  = is_ok (parsePathPart part) && is_ok (parsePathParts rest).
Proof.
  simpl. destruct (parsePathPart part); simpl; [|reflexivity].
  now destruct (parsePathParts rest).
Qed.

Lemma accepted_parts (s : string) :
  acceptedFrom BeforePlaceholders s = is_ok (parsePathParts (tail (split "{" s)))
  /\ acceptedFrom AfterPlaceholder s
     = is_ok (parsePathParts (tail (split "{" s)))
       && Nat.eqb (List.length (split "}" (hd "" (split "{" s)))) 1
  /\ forall n, acceptedFrom (InsidePlaceholder n) s
     = is_ok (parsePathParts (tail (split "{" s)))
       && match split "}" (hd "" (split "{" s)) with
          | [a; _] => negb (Nat.eqb n 0 && String.eqb a "")
          | _ => false
          end.
Proof.
  induction s as [|c s (IHa & IHb & IHc)].
  - repeat split. 
  - pose proof (split_not_nil "{" s) as Hn.
    destruct (split "{" s) as [|p0 ps] eqn:Es; [contradiction |].
    simpl hd in IHb, IHc. simpl tail in IHa, IHb, IHc.
    destruct (Ascii.eqb_spec c "{") as [->|Hopen].
    + rewrite split_cons_sep, Es. simpl hd. simpl tail.
      rewrite is_ok_parsePathParts, is_ok_parsePathPart.
      cbn [acceptedFrom]. rewrite Ascii.eqb_refl, (IHc 0).
      assert (Hm : match split "}" p0 with
                   | [a; _] => negb (Nat.eqb 0 0 && String.eqb a "")
                   | _ => false
                   end
                 = match split "}" p0 with
                   | [a; _] => negb (String.eqb a "")
                   | _ => false
                   end) by reflexivity.
      rewrite Hm. repeat split.
      * apply andb_comm.
      * simpl. rewrite andb_true_r. apply andb_comm.
      * intros n. simpl. now rewrite andb_false_r.
    + rewrite (split_cons_other "{" c s p0 ps Hopen Es). simpl hd. simpl tail.
      cbn [acceptedFrom].
      destruct (Ascii.eqb_spec c "{") as [?|_]; [contradiction |].
      pose proof (split_not_nil "}" p0) as Hn0.
      destruct (split "}" p0) as [|q0 qs] eqn:Eq; [contradiction |].
      destruct (Ascii.eqb_spec c "}") as [->|Hclose].
      * rewrite split_cons_sep, Eq. repeat split.
        -- assumption.
        -- simpl. now rewrite andb_false_r.
        -- intros n. rewrite IHb.
           destruct qs; simpl;
             destruct (Nat.eqb n 0), (is_ok (parsePathParts ps)); reflexivity.
      * rewrite (split_cons_other "}" c p0 q0 qs Hclose Eq). repeat split.
        -- assumption.
        -- rewrite IHb. reflexivity.
        -- intros n. rewrite (IHc (S n)). f_equal.
           destruct qs as [|q1 [|q2 qs]]; try reflexivity.
           simpl. now rewrite andb_false_r.
Qed.

Lemma parsePath_is_ok (t : string) : is_ok (parsePath t) = acceptedTemplate t.
Proof.
  destruct (accepted_parts t) as (Ha & _ & _).
  unfold acceptedTemplate. rewrite Ha. unfold parsePath.
  pose proof (split_not_nil "{" t) as Hn.
  destruct (split "{" t) as [|first parts]; [contradiction |].
  cbn [shift or_empty tail]. now destruct (parsePathParts parts).
Qed.

Lemma parsePathParts_Throw (parts : list string) (e : exn) :
  parsePathParts parts = Throw e ->
  e = Error "invalid path format" \/ e = Error "empty parameter names not allowed".
Proof.
  revert e. induction parts as [|part rest IH]; intros e E; simpl in E; [discriminate |].
  destruct (parsePathPart part) as [cs1|e1] eqn:E1; simpl in E.
  - destruct (parsePathParts rest) as [cs2|e2] eqn:E2; simpl in E; [discriminate |].
    injection E as <-. now apply IH.
  - injection E as <-. unfold parsePathPart in E1.
    destruct (negb (Nat.eqb (List.length (split "}" part)) 2)); [injection E1 as <-; now left |].
    destruct (shift (split "}" part)) as [name parts2].
    destruct (String.eqb (or_empty name) ""); [injection E1 as <-; now right |].
    destruct (shift parts2). discriminate.
Qed.

Lemma parsePath_Throw (t : string) (e : exn) :
  parsePath t = Throw e ->
  e = Error "invalid path format" \/ e = Error "empty parameter names not allowed".
Proof.
  unfold parsePath. destruct (shift (split "{" t)) as [first parts].
  destruct (parsePathParts parts) as [cs|e'] eqn:E; cbn [rbind]; [discriminate |].
  intros [= <-]. now apply (parsePathParts_Throw parts).
Qed.

(** X2. [parsePath] returns exactly on the templates that [acceptedTemplate]
    describes: every opening brace starts a placeholder that a closing brace
    ends after a name that is not empty, and after the first placeholder no
    closing brace stands anywhere else.  On every other template it throws
    one of its two errors. *)
Theorem parsePath_accepts (t : string) :
  is_ok (parsePath t) = acceptedTemplate t
  /\ forall e, parsePath t = Throw e ->
       e = Error "invalid path format" \/ e = Error "empty parameter names not allowed".
Proof.
  split.
  - apply parsePath_is_ok.
  - intros e. apply parsePath_Throw.
Qed.

Lemma parsePath_accepts_witness :
  is_ok (parsePath "/pets/{id}/toys") = true
  /\ is_ok (parsePath "/pets/{id}}") = false
  /\ is_ok (parsePath "/pets/{}") = false.
Proof.
  split; [|split].
  - exact (proj1 (parsePath_accepts "/pets/{id}/toys")).
  - exact (proj1 (parsePath_accepts "/pets/{id}}")).
  - exact (proj1 (parsePath_accepts "/pets/{}")).
Defined.

(** X3. A template without an opening brace is one constant, kept as it is
    (a closing brace in it is ordinary text); the empty template has no
    component. *)
Theorem parsePath_without_placeholder (t : string) :
  hasChar "{" t = false ->
  parsePath t = Ok (if String.eqb t "" then [] else [PathComponentConstant t]).
Proof.
  intros H. unfold parsePath.
  assert (Hs : split "{" t = [t]).
  { induction t as [|c t IH]; [reflexivity |].
    simpl in H. apply orb_false_elim in H as [Hc Ht].
    simpl. rewrite Hc, (IH Ht). reflexivity. }
  rewrite Hs. cbn. now destruct (String.eqb t "").
Qed.

Lemma parsePath_without_placeholder_witness :
  hasChar "{" "/a}b" = false
  /\ parsePath "/a}b" = Ok [PathComponentConstant "/a}b"].
Proof.
  split; [reflexivity |].
  apply (parsePath_without_placeholder "/a}b"). reflexivity.
Defined.

(** ** Servers *)

Lemma mapR_parseServer (servers : list ServerObject) (parsed : list Server) :
  mapR parseServer servers = Ok parsed ->
  map serverUrl parsed = map so_url servers
  /\ map server_description parsed = map so_description servers
  /\ map variables parsed = map (fun s => default [] (so_variables s)) servers.
Proof.
  revert parsed. induction servers as [|server rest IH]; intros parsed H; simpl in H.
  - injection H as <-. now repeat split.
  - unfold parseServer in H at 1.
    destruct (parsePath (so_url server)) as [p|e] eqn:Ep; simpl in H; [|discriminate].
    destruct (mapR parseServer rest) as [r|e] eqn:Er; simpl in H; [|discriminate].
    injection H as <-. destruct (IH r eq_refl) as (H1 & H2 & H3).
    simpl. unfold serverUrl at 1. simpl.
    rewrite (parsePath_render _ _ Ep), H1, H2, H3. now repeat split.
Qed.

Lemma is_ok_mapR {A B} (f : A -> result B) (xs : list A) :
  is_ok (mapR f xs) = forallb (fun x => is_ok (f x)) xs.
Proof.
  induction xs as [|x xs IH]; [reflexivity |].
  simpl. destruct (f x); simpl; [|reflexivity].
  rewrite <- IH. now destruct (mapR f xs).
Qed.

(** X4. [parseServers] of a list returns exactly when [parsePath] accepts
    the URL of every server; the result then has one server for each
    declared one, in order, whose [urlPrefix] renders to the declared URL,
    with the declared description and with the declared variables or the
    empty object. *)
Theorem parseServers_urls (servers : list ServerObject) :
  is_ok (parseServers (Some servers))
  = forallb (fun server => acceptedTemplate (so_url server)) servers
  /\ forall parsed, parseServers (Some servers) = Ok parsed ->
       exists list, parsed = Some list
         /\ map serverUrl list = map so_url servers
         /\ map server_description list = map so_description servers
         /\ map variables list = map (fun s => default [] (so_variables s)) servers.
Proof.
  split.
  - simpl. transitivity (is_ok (mapR parseServer servers)).
    + now destruct (mapR parseServer servers).
    + rewrite is_ok_mapR. induction servers as [|server rest IH]; [reflexivity |].
      simpl. rewrite IH. f_equal.
      unfold parseServer. rewrite <- parsePath_is_ok.
      now destruct (parsePath (so_url server)).
  - intros parsed H. simpl in H.
    destruct (mapR parseServer servers) as [list|e] eqn:E; simpl in H; [|discriminate].
    injection H as <-. exists list. split; [reflexivity |]. now apply mapR_parseServer.
Qed.

Lemma parseServers_urls_witness :
  exists list,
    parseServers (Some [exampleServer]) = Ok (Some list)
    /\ map serverUrl list = ["https://example.org/{stage}"].
Proof.
  destruct (parseServers (Some [exampleServer])) as [parsed|e] eqn:E;
    [|vm_compute in E; discriminate].
  destruct (proj2 (parseServers_urls [exampleServer]) parsed E) as (list & -> & Hurls & _).
  exists list. split; [reflexivity | exact Hurls].
Defined.

Lemma parseServers_serverUrls (declared : option (list ServerObject))
  (parsed : option (list Server)) :
  parseServers declared = Ok parsed ->
  option_map (map serverUrl) parsed = option_map (map so_url) declared.
Proof.
  destruct declared as [servers|]; simpl.
  - destruct (mapR parseServer servers) as [list|e] eqn:E; simpl; [|discriminate].
    intros [= <-]. simpl. f_equal. now apply mapR_parseServer.
  - now intros [= <-].
Qed.

Lemma documentServers_serverUrls (declared : option (list ServerObject))
  (servers : list Server) :
  documentServers declared = Ok servers ->
  map serverUrl servers
  = match declared with
    | Some (server :: rest) => map so_url (server :: rest)
    | _ => ["/"]
    end.
Proof.
  unfold documentServers.
  destruct (parseServers declared) as [parsed|e] eqn:E; simpl; [|discriminate].
  apply parseServers_serverUrls in E.
  destruct parsed as [[|s l]|]; simpl.
  - intros [= <-]. destruct declared as [[|? ?]|]; try discriminate; reflexivity.
  - intros [= <-]. destruct declared as [[|? ?]|]; try discriminate.
    simpl in E. injection E as E1 E2. simpl. now rewrite E1, E2.
  - intros [= <-]. destruct declared as [[|? ?]|]; try discriminate; reflexivity.
Qed.

Lemma effective_serverUrls (doc : OpenAPIObject) (item : PathItemObject)
  (op : OperationObject) (servers : list Server)
  (pathServers operationServers : option (list Server)) :
  documentServers (oa_servers doc) = Ok servers ->
  parseServers (pi_servers item) = Ok pathServers ->
  parseServers (oo_servers op) = Ok operationServers ->
  map serverUrl (default (default servers pathServers) operationServers)
  = declaredServerUrls doc item op.
Proof.
  intros Hd%documentServers_serverUrls Hp%parseServers_serverUrls
         Ho%parseServers_serverUrls.
  unfold declaredServerUrls.
  destruct operationServers as [l|], (oo_servers op) as [l'|]; try discriminate; simpl.
  - simpl in Ho. now injection Ho.
  - destruct pathServers as [l|], (pi_servers item) as [l'|]; try discriminate; simpl.
    + simpl in Hp. now injection Hp.
    + exact Hd.
Qed.

(** X5. The servers of the method that [run] pushes for an operation are
    the ones the operation declares, else the ones its path item declares,
    else the ones of the document, else the server [/]: their prefixes
    render to [declaredServerUrls], in both drafts. *)
Theorem method_servers_inherited
  (doc : OpenAPIObject) (rawPath : string) (item : PathItemObject)
  (httpMethod : HttpMethod) (op : OperationObject) :
  getProp rawPath (oa_paths doc) = Some item ->
  getOperation httpMethod item = Some op ->
  (forall model doc', ModelerA.run doc = (Ok model, doc') ->
     exists m, In m (ModelerA.operations model)
       /\ ModelerA.pushes doc rawPath item op m
       /\ map serverUrl (ModelerA.servers m) = declaredServerUrls doc item op)
  /\ (forall model doc', ModelerB.run doc = (Ok model, doc') ->
     exists m, In m (ModelerB.operations model)
       /\ ModelerB.pushes doc rawPath item op m
       /\ map serverUrl (ModelerB.servers m) = declaredServerUrls doc item op).
Proof.
  intros Hitem Hop. split.
  - intros model doc' Hrun.
    destruct (ModelerA_run_pushes _ _ _ _ _ _ _ Hrun Hitem Hop) as (m & Hin & Hm).
    exists m. split; [assumption |]. split; [assumption |].
    destruct Hm as (servers & path & pathServers & pathParameters & op'
                    & Hds & _ & Hps & _ & Hm).
    apply ModelerA_runOperation_Ok in Hm
      as (operationServers & ? & ? & ? & Hos & _ & _ & _ & _ & _ & _ & _ & _ & ->).
    eapply effective_serverUrls; eassumption.
  - intros model doc' Hrun.
    destruct (ModelerB_run_pushes _ _ _ _ _ _ _ Hrun Hitem Hop) as (m & Hin & Hm).
    exists m. split; [assumption |]. split; [assumption |].
    destruct Hm as (servers & security & path & pathServers & pathParameters & ps' & op'
                    & Hds & _ & _ & Hps & _ & Hm).
    apply ModelerB_runOperation_Ok in Hm
      as (operationServers & ? & ? & ? & ? & Hos & _ & _ & _ & _ & _ & _ & _ & _ & ->).
    eapply effective_serverUrls; eassumption.
Qed.

Lemma method_servers_inherited_witness :
  getProp "/ping" (oa_paths serverDocument) = Some pingPathItem
  /\ getOperation GET pingPathItem = Some undeclaredOperation
  /\ exists model doc' m,
       ModelerB.run serverDocument = (Ok model, doc')
       /\ In m (ModelerB.operations model)
       /\ map serverUrl (ModelerB.servers m) = ["https://example.org/{stage}"].
Proof.
  split; [reflexivity |]. split; [reflexivity |].
  destruct (ModelerB.run serverDocument) as [[model|e] doc'] eqn:E;
    [|vm_compute in E; discriminate].
  destruct (method_servers_inherited serverDocument "/ping"
              pingPathItem GET undeclaredOperation eq_refl eq_refl)
    as (_ & HB).
  destruct (HB model doc' E) as (m & Hin & _ & Hservers).
  exists model, doc', m. repeat split; assumption || reflexivity.
Defined.

(** ** Parameters: uniqueness and merge *)

Lemma lookup_map {A B} (f : A -> B) (l : list A) (i : nat) :
  map f l !! i = option_map f (l !! i).
Proof.
  revert i. induction l as [|x l IH]; intros [|i]; simpl; try reflexivity. apply IH.
Qed.

Lemma not_NoDup_positions {A} `{EqDecision A} (l : list A) :
  ~ NoDup l <-> exists i j x, i < j /\ l !! i = Some x /\ l !! j = Some x.
Proof.
  split.
  - induction l as [|a l IH]; intros Hnd.
    + elim Hnd. constructor.
    + destruct (decide (a ∈ l)) as [Hin|Hnotin].
      * apply list_elem_of_lookup in Hin as [j Hj].
        exists 0, (S j), a. repeat split; [lia | assumption].
      * destruct IH as (i & j & x & Hlt & Hi & Hj).
        { intros Hl. apply Hnd. now constructor. }
        exists (S i), (S j), x. repeat split; [lia | assumption | assumption].
  - intros (i & j & x & Hlt & Hi & Hj) Hnd.
    pose proof (proj1 (NoDup_alt l) Hnd i j x Hi Hj). lia.
Qed.

Section Merge.
Context {P : Type} `{ParameterLike P}.

Lemma sameKey_keyPair (p q : P) : sameKey p q = true <-> keyPair p = keyPair q.
Proof.
  unfold sameKey. rewrite String.eqb_eq. apply getParameterKey_inj.
Qed.

Lemma sameKey_sym (p q : P) : sameKey p q = sameKey q p.
Proof. unfold sameKey. apply String.eqb_sym. Qed.

Lemma sameKey_refl (p : P) : sameKey p p = true.
Proof. unfold sameKey. apply String.eqb_refl. Qed.

(** X6. [checkParameters] returns [false] exactly when two parameters at
    different positions of the list have the same name and the same
    location. *)
Theorem checkParameters_finds_duplicates (parameters : list P) :
  checkParameters parameters = false
  <-> exists i j p q,
        i < j /\ parameters !! i = Some p /\ parameters !! j = Some q
        /\ parameterName p = parameterName q
        /\ parameterLocation p = parameterLocation q.
Proof.
  rewrite <- Bool.not_true_iff_false, checkParameters_unique, not_NoDup_positions.
  split.
  - intros (i & j & x & Hlt & Hi & Hj).
    rewrite lookup_map in Hi, Hj.
    destruct (parameters !! i) as [p|] eqn:Ep; [|discriminate].
    destruct (parameters !! j) as [q|] eqn:Eq; [|discriminate].
    simpl in Hi, Hj. injection Hi as Hi. injection Hj as Hj.
    exists i, j, p, q. unfold keyPair in Hi, Hj. subst x. injection Hj as Hn Hl.
    repeat split; congruence.
  - intros (i & j & p & q & Hlt & Hi & Hj & Hn & Hl).
    exists i, j, (keyPair p). rewrite !lookup_map, Hi, Hj. simpl.
    repeat split; [assumption |]. unfold keyPair. now rewrite Hn, Hl.
Qed.

Lemma mergeParameter_keys (parameters : list P) (param : P) :
  map keyPair (mergeParameter parameters param)
  = if existsb (sameKey param) parameters then map keyPair parameters
    else map keyPair parameters ++ [keyPair param].
Proof.
  unfold mergeParameter.
  assert (Hmap : map keyPair
                   (map (fun paramTarget =>
                           if sameKey param paramTarget then param else paramTarget)
                        parameters)
                 = map keyPair parameters).
  { rewrite map_map. apply map_ext. intros q.
    destruct (sameKey param q) eqn:E; [|reflexivity]. now apply sameKey_keyPair. }
  destruct (existsb (sameKey param) parameters).
  - exact Hmap.
  - now rewrite map_app, Hmap.
Qed.

Lemma existsb_sameKey (parameters : list P) (param : P) :
  existsb (sameKey param) parameters = true
  <-> In (keyPair param) (map keyPair parameters).
Proof.
  rewrite existsb_exists, in_map_iff. split.
  - intros (q & Hin & Hq). exists q. split; [|assumption].
    symmetry. now apply sameKey_keyPair.
  - intros (q & Hq & Hin). exists q. split; [assumption |].
    apply sameKey_keyPair. now symmetry.
Qed.

Lemma mergeParameters_snoc (pathParameters operationParameters : list P) (param : P) :
  mergeParameters pathParameters (operationParameters ++ [param])
  = mergeParameter (mergeParameters pathParameters operationParameters) param.
Proof. unfold mergeParameters. now rewrite fold_left_app. Qed.

Lemma mergeParameters_keys (pathParameters operationParameters : list P) :
  exists added,
    map keyPair (mergeParameters pathParameters operationParameters)
    = map keyPair pathParameters ++ added
    /\ NoDup added
    /\ forall k, In k added
         <-> In k (map keyPair operationParameters)
             /\ ~ In k (map keyPair pathParameters).
Proof.
  induction operationParameters as [|param ops IH] using rev_ind.
  - exists []. simpl. rewrite app_nil_r. split; [reflexivity |].
    split; [constructor |]. intros k. simpl. tauto.
  - destruct IH as (added & Hkeys & Hnd & Hadded).
    rewrite mergeParameters_snoc, mergeParameter_keys.
    destruct (existsb (sameKey param) (mergeParameters pathParameters ops)) eqn:Ef.
    + exists added. split; [assumption |]. split; [assumption |].
      intros k. rewrite Hadded, map_app, in_app_iff. simpl.
      apply existsb_sameKey in Ef. rewrite Hkeys, in_app_iff, Hadded in Ef.
      split; [tauto |]. intros [[Hk|[<-|[]]] Hn]; [tauto |]. tauto.
    + exists (added ++ [keyPair param]).
      assert (Hnew : ~ In (keyPair param)
                       (map keyPair (mergeParameters pathParameters ops))).
      { intros Hin%existsb_sameKey. congruence. }
      rewrite Hkeys, in_app_iff in Hnew.
      split; [now rewrite Hkeys, app_assoc |]. split.
      * apply NoDup_app. split; [assumption |]. split; [|apply NoDup_singleton].
        intros k Hk%list_elem_of_In [->|[]%elem_of_nil]%elem_of_cons. tauto.
      * intros k. rewrite map_app, !in_app_iff, Hadded. simpl.
        split; [|tauto]. intros [Hk|[<-|[]]]; tauto.
Qed.

Lemma mergeParameters_NoDup (pathParameters operationParameters : list P) :
  NoDup (map keyPair pathParameters) ->
  NoDup (map keyPair (mergeParameters pathParameters operationParameters)).
Proof.
  intros Hnd.
  destruct (mergeParameters_keys pathParameters operationParameters)
    as (added & -> & Hadded & Hin).
  apply NoDup_app. split; [assumption |]. split; [|assumption].
  intros k Hk%list_elem_of_In Hk'%list_elem_of_In. apply Hin in Hk'. tauto.
Qed.

(** X7. The merge keeps the path-level parameters at their positions, key
    by key, and appends after them, once each, the keys that only the
    operation declares; so the merged list of a path-level list that passes
    [checkParameters] passes it too, whatever the operation declares. *)
Theorem merge_keeps_path_level_positions (pathParameters operationParameters : list P) :
  (exists added,
     map keyPair (mergeParameters pathParameters operationParameters)
     = map keyPair pathParameters ++ added
     /\ NoDup added
     /\ forall k, In k added
          <-> In k (map keyPair operationParameters)
              /\ ~ In k (map keyPair pathParameters))
  /\ (checkParameters pathParameters = true ->
      checkParameters (mergeParameters pathParameters operationParameters) = true).
Proof.
  split.
  - apply mergeParameters_keys.
  - rewrite !checkParameters_unique. apply mergeParameters_NoDup.
Qed.

Lemma lastWithKey_snoc (q param : P) (parameters : list P) :
  lastWithKey q (parameters ++ [param])
  = if sameKey q param then Some param else lastWithKey q parameters.
Proof. unfold lastWithKey. now rewrite rev_app_distr. Qed.

Lemma In_mergeParameter (parameters : list P) (param q : P) :
  In q (mergeParameter parameters param)
  <-> q = param \/ (In q parameters /\ sameKey param q = false).
Proof.
  unfold mergeParameter.
  set (f := fun paramTarget : P =>
              if sameKey param paramTarget then param else paramTarget).
  assert (Hmap : In q (map f parameters)
                 <-> (q = param /\ existsb (sameKey param) parameters = true)
                     \/ (In q parameters /\ sameKey param q = false)).
  { rewrite in_map_iff, existsb_exists. unfold f. split.
    - intros (q0 & Hq & Hin). destruct (sameKey param q0) eqn:E.
      + left. split; [now symmetry |]. now exists q0.
      + right. subst q0. now split.
    - intros [[-> (q0 & Hin & Hq)]|[Hin Hq]].
      + exists q0. now rewrite Hq.
      + exists q. now rewrite Hq. }
  destruct (existsb (sameKey param) parameters) eqn:Ef.
  - rewrite Hmap. split; [intros [[-> _]|?]; tauto | intros [->|?]; tauto].
  - rewrite in_app_iff, Hmap. simpl.
    split; [intros [[[? ?]|?]|[<-|[]]]; try discriminate; tauto | intros [->|?]; tauto].
Qed.

Lemma mergeParameters_last (pathParameters operationParameters : list P) (q : P) :
  In q (mergeParameters pathParameters operationParameters)
  <-> match lastWithKey q operationParameters with
      | Some param => q = param
      | None => In q pathParameters
      end.
Proof.
  revert q. induction operationParameters as [|param ops IH] using rev_ind; intros q.
  - reflexivity.
  - rewrite mergeParameters_snoc, In_mergeParameter, lastWithKey_snoc, IH.
    rewrite (sameKey_sym param q).
    destruct (sameKey q param) eqn:E.
    + split; [intros [->|[_ ?]]; [reflexivity | discriminate] | intros ->; now left].
    + split; [intros [->|[? _]]; [|assumption] | intros ?; now right].
      rewrite sameKey_refl in E. discriminate.
Qed.

Lemma lastWithKey_keyPair (p q : P) (parameters : list P) :
  keyPair p = keyPair q -> lastWithKey p parameters = lastWithKey q parameters.
Proof.
  intros Hk%getParameterKey_inj. unfold lastWithKey, sameKey. now rewrite Hk.
Qed.

(** X8. In the merged list the last operation-level declaration of a key
    wins: a parameter is in the merged list exactly when it is the last
    operation-level parameter of its key, or a path-level parameter whose
    key the operation does not declare; and every operation-level parameter
    has its key in the merged list, held by the last declaration of it. *)
Theorem merge_last_declaration_wins (pathParameters operationParameters : list P) :
  (forall q, In q (mergeParameters pathParameters operationParameters)
     <-> match lastWithKey q operationParameters with
         | Some param => q = param
         | None => In q pathParameters
         end)
  /\ (forall param, In param operationParameters ->
        exists last, lastWithKey param operationParameters = Some last
          /\ keyPair last = keyPair param
          /\ In last operationParameters
          /\ In last (mergeParameters pathParameters operationParameters)).
Proof.
  split; [apply mergeParameters_last |].
  intros param Hin.
  destruct (lastWithKey param operationParameters) as [last|] eqn:El.
  - pose proof El as Hfind. unfold lastWithKey in Hfind.
    apply List.find_some in Hfind as [Hlast Hkey].
    apply sameKey_keyPair in Hkey.
    exists last. split; [reflexivity |]. split; [now symmetry |].
    split; [now apply in_rev |].
    apply mergeParameters_last.
    now rewrite (lastWithKey_keyPair last param operationParameters), El.
  - unfold lastWithKey in El.
    pose proof (List.find_none _ _ El param (proj1 (in_rev _ _) Hin)) as Hn.
    rewrite sameKey_refl in Hn. discriminate.
Qed.

End Merge.

Lemma merge_keeps_path_level_positions_witness :
  checkParameters mergePathParameters = true
  /\ checkParameters (mergeParameters mergePathParameters mergeOperationParameters) = true.
Proof.
  split; [reflexivity |].
  apply (proj2 (merge_keeps_path_level_positions
                  mergePathParameters mergeOperationParameters)).
  reflexivity.
Defined.

Lemma merge_last_declaration_wins_witness :
  In (modelParameter "limit" in_query false) mergeOperationParameters
  /\ exists last,
       lastWithKey (modelParameter "limit" in_query false) mergeOperationParameters
       = Some last
       /\ keyPair last = ("limit", in_query)
       /\ In last mergeOperationParameters
       /\ In last (mergeParameters mergePathParameters mergeOperationParameters).
Proof.
  assert (Hin : In (modelParameter "limit" in_query false) mergeOperationParameters)
    by (left; reflexivity).
  split; [exact Hin |].
  exact (proj2 (merge_last_declaration_wins
                  mergePathParameters mergeOperationParameters) _ Hin).
Defined.

(** ** The methods of the model *)

(** Every result of the loop over the methods was returned by the body for
    some operation. *)
Lemma forMethods_elem {A} (body : HttpMethod -> Eff OperationObject A)
  (methods : list HttpMethod) (item item' : PathItemObject) (rs : list A) :
  forMethods body methods item = (Ok rs, item') ->
  forall r, In r rs ->
    exists httpMethod op op', In httpMethod methods /\ body httpMethod op = (Ok r, op').
Proof.
  revert item rs. induction methods as [|h0 rest IH]; intros item rs H r Hr.
  - simpl in H. apply eret_Ok in H as [-> _]. contradiction.
  - simpl in H. eff_inv H. apply eret_Ok in H as [-> ->].
    assert (Hrest : In r a0 -> exists httpMethod op op',
                      In httpMethod (h0 :: rest) /\ body httpMethod op = (Ok r, op')).
    { intros Hin. destruct (IH _ _ Hstep0 r Hin) as (h & op & op' & Hh & Hb).
      exists h, op, op'. split; [now right | assumption]. }
    destruct a as [r0|]; [|now apply Hrest].
    destruct Hr as [<-|Hr]; [|now apply Hrest].
    unfold onOperation in Hstep.
    destruct (getOperation h0 item) as [op|]; [|discriminate].
    destruct (body h0 op) as [[r1|e] op'] eqn:Eb; simpl in Hstep; [|discriminate].
    injection Hstep as -> _. exists h0, op, op'. split; [now left | assumption].
Qed.

Lemma forPaths_elem {A} (body : string -> Path -> Eff PathItemObject (list A))
  (rawPaths : list string) (paths paths' : PathObject) (ms : list A) :
  forPaths body rawPaths paths = (Ok ms, paths') ->
  forall m, In m ms ->
    exists rawPath path item ms0 item',
      In rawPath rawPaths /\ parsePath rawPath = Ok path
      /\ body rawPath path item = (Ok ms0, item') /\ In m ms0.
Proof.
  revert paths ms. induction rawPaths as [|k0 rest IH]; intros paths ms H m Hm.
  - simpl in H. apply eret_Ok in H as [-> _]. contradiction.
  - simpl in H. eff_inv H. apply eret_Ok in H as [-> ->].
    apply elift_Ok in Hstep as [Hpath ->].
    apply in_app_iff in Hm as [Hm|Hm].
    + unfold atKey in Hstep0.
      destruct (getProp k0 paths) as [item|]; [|discriminate].
      destruct (body k0 a item) as [r item'] eqn:Eb. injection Hstep0 as -> _.
      exists k0, a, item, a0, item'. repeat split; try assumption. now left.
    + destruct (IH _ _ Hstep1 m Hm) as (k & path & item & ms0 & item' & Hk & Hp & Hb & Hin).
      exists k, path, item, ms0, item'. repeat split; try assumption. now right.
Qed.

(** Every method of the model of [modeler.ts] was pushed by the body of
    [if (operationObject)], for path-level parameters that passed
    [checkParameters]. *)
Lemma ModelerA_run_methods (doc doc' : OpenAPIObject) (model : ModelerA.Model)
  (m : ModelerA.Method) :
  ModelerA.run doc = (Ok model, doc') ->
  In m (ModelerA.operations model) ->
  exists rawPath path pathSummary pathDescription pathServers pathParameters op op',
    parsePath rawPath = Ok path
    /\ checkParameters pathParameters = true
    /\ (exists item parsed, ModelerA.parseParameters (pi_parameters item) = Ok parsed
                            /\ pathParameters = default [] parsed)
    /\ ModelerA.runOperation path pathSummary pathDescription pathServers
         pathParameters op = (Ok m, op').
Proof.
  intros Hrun Hm. unfold ModelerA.run in Hrun.
  destruct (negb (oa_openapi doc =? "3.0.0")%string); [discriminate |].
  apply ebind_Ok in Hrun as (servers & s1 & Hservers & Hrun).
  apply elift_Ok in Hservers as [Hservers ->].
  apply ebind_Ok in Hrun as (operations & s2 & Hloop & Hrun).
  apply eret_Ok in Hrun as [-> _]. simpl in Hm.
  apply zoom_Ok in Hloop as (paths' & Hloop & _).
  destruct (forPaths_elem _ _ _ _ _ Hloop m Hm)
    as (rawPath & path & item & ms0 & item' & _ & Hpath & Hbody & Hin).
  unfold ModelerA.runPath in Hbody. repeat eff_step.
  match goal with
  | Hp : ModelerA.parseParameters _ = Ok ?ps |- _ =>
      destruct (checkParameters (default [] ps)) eqn:Hcheck; [|discriminate]
  end.
  cbn [negb] in Hbody.
  destruct (forMethods_elem _ _ _ _ _ Hbody m Hin) as (h & op & op' & _ & Hop).
  do 8 eexists. split; [eassumption |]. split; [eassumption |].
  split; [|eassumption]. do 2 eexists. split; [eassumption | reflexivity].
Qed.

Lemma ModelerB_run_methods (doc doc' : OpenAPIObject) (model : ModelerB.Model)
  (m : ModelerB.Method) :
  ModelerB.run doc = (Ok model, doc') ->
  In m (ModelerB.operations model) ->
  exists securitySchemes security rawPath path pathSummary pathDescription
         pathServers pathParameters op op',
    parsePath rawPath = Ok path
    /\ checkParameters pathParameters = true
    /\ (exists declared parsed declared',
          ModelerB.parseParameters declared = (Ok parsed, declared')
          /\ pathParameters = default [] parsed)
    /\ ModelerB.runOperation securitySchemes security path pathSummary pathDescription
         pathServers pathParameters op = (Ok m, op').
Proof.
  intros Hrun Hm. unfold ModelerB.run in Hrun.
  destruct (negb (oa_openapi doc =? "3.0.0")%string); [discriminate |].
  apply ebind_Ok in Hrun as (servers & s1 & Hservers & Hrun).
  apply elift_Ok in Hservers as [Hservers ->].
  apply ebind_Ok in Hrun as (security & s2 & Hsecurity & Hrun).
  apply elift_Ok in Hsecurity as [Hsecurity ->].
  apply ebind_Ok in Hrun as (operations & s3 & Hloop & Hrun).
  apply eret_Ok in Hrun as [-> _]. simpl in Hm.
  apply zoom_Ok in Hloop as (paths' & Hloop & _).
  destruct (forPaths_elem _ _ _ _ _ Hloop m Hm)
    as (rawPath & path & item & ms0 & item' & _ & Hpath & Hbody & Hin).
  unfold ModelerB.runPath in Hbody. repeat eff_step.
  match goal with
  | Hz : zoom _ _ _ _ = _ |- _ => apply zoom_Ok in Hz as (parameters' & Hparameters & ->)
  end.
  match goal with
  | Hp : ModelerB.parseParameters _ = (Ok ?ps, _) |- _ =>
      destruct (checkParameters (default [] ps)) eqn:Hcheck; [|discriminate]
  end.
  cbn [negb] in Hbody.
  destruct (forMethods_elem _ _ _ _ _ Hbody m Hin) as (h & op & op' & _ & Hop).
  do 10 eexists. split; [eassumption |]. split; [eassumption |].
  split; [|eassumption]. do 3 eexists. split; [eassumption | reflexivity].
Qed.

(** X9. In a model that [run] returns, the parameters of every method have
    pairwise distinct (name, location) pairs -- also when the operation
    declared a pair twice. *)
Theorem model_parameters_unique (doc : OpenAPIObject) :
  (forall model doc' m,
     ModelerA.run doc = (Ok model, doc') -> In m (ModelerA.operations model) ->
     NoDup (map keyPair (ModelerA.parameters m)))
  /\ (forall model doc' m,
     ModelerB.run doc = (Ok model, doc') -> In m (ModelerB.operations model) ->
     NoDup (map keyPair (ModelerB.parameters m))).
Proof.
  split.
  - intros model doc' m Hrun Hm.
    destruct (ModelerA_run_methods _ _ _ _ Hrun Hm)
      as (? & ? & ? & ? & ? & pathParameters & ? & ? & _ & Hcheck & _ & Hop).
    apply ModelerA_runOperation_Ok in Hop
      as (? & ? & ? & ? & _ & _ & _ & _ & _ & _ & _ & -> & _).
    apply mergeParameters_NoDup. now apply checkParameters_unique.
  - intros model doc' m Hrun Hm.
    destruct (ModelerB_run_methods _ _ _ _ Hrun Hm)
      as (? & ? & ? & ? & ? & ? & ? & pathParameters & ? & ? & _ & Hcheck & _ & Hop).
    apply ModelerB_runOperation_Ok in Hop
      as (? & ? & ? & ? & ? & _ & _ & _ & _ & _ & _ & _ & -> & _).
    apply mergeParameters_NoDup. now apply checkParameters_unique.
Qed.

Lemma model_parameters_unique_witness :
  exists model doc' m,
    ModelerA.run duplicateDocument = (Ok model, doc')
    /\ In m (ModelerA.operations model)
    /\ NoDup (map keyPair (ModelerA.parameters m)).
Proof.
  destruct (ModelerA.run duplicateDocument) as [[model|e] doc'] eqn:E;
    [|vm_compute in E; discriminate].
  destruct (ModelerA.operations model) as [|m rest] eqn:Eo.
  - exfalso. revert Eo. injection E as <- _. vm_compute. discriminate.
  - exists model, doc', m. split; [reflexivity |].
    assert (Hin : In m (ModelerA.operations model)) by (rewrite Eo; now left).
    split; [exact Hin |].
    exact (proj1 (model_parameters_unique duplicateDocument) model doc' m E Hin).
Defined.

Lemma mergeParameters_In {P : Type} `{ParameterLike P}
  (pathParameters operationParameters : list P) (q : P) :
  In q (mergeParameters pathParameters operationParameters) ->
  In q pathParameters \/ In q operationParameters.
Proof.
  intros Hq%mergeParameters_last.
  destruct (lastWithKey q operationParameters) as [param|] eqn:El; [|now left].
  right. subst q. unfold lastWithKey in El.
  apply List.find_some in El as [Hin _]. now apply in_rev.
Qed.

Lemma Forall2_In_r {A B} (R : A -> B -> Prop) (xs : list A) (ys : list B) (y : B) :
  Forall2 R xs ys -> In y ys -> exists x, In x xs /\ R x y.
Proof.
  induction 1 as [|x0 y0 xs ys HR _ IH]; intros Hin; [contradiction |].
  destruct Hin as [<-|Hin].
  - exists x0. split; [now left | assumption].
  - destruct (IH Hin) as (x & Hx & Hr). exists x. split; [now right | assumption].
Qed.

Lemma ModelerA_parseParameters_In (declared : option (list ParameterObject))
  (parsed : option (list ModelerA.Param)) (p : ModelerA.Param) :
  ModelerA.parseParameters declared = Ok parsed ->
  In p (default [] parsed) ->
  exists parameter, ModelerA.parseParameter parameter = Ok p.
Proof.
  destruct declared as [parameters|]; simpl.
  - destruct (mapR ModelerA.parseParameter parameters) as [r|e] eqn:E; simpl; [|discriminate].
    intros [= <-] Hin. simpl in Hin.
    destruct (Forall2_In_r _ _ _ _ (mapR_Ok _ _ _ E) Hin) as (x & _ & Hx).
    now exists x.
  - intros [= <-] [].
Qed.

Lemma mapElements_Ok {T B} (f : Eff T B) (xs xs' : list T) (ys : list B) :
  mapElements f xs = (Ok ys, xs') ->
  Forall2 (fun x y => exists x', f x = (Ok y, x')) xs ys.
Proof.
  revert xs' ys. induction xs as [|x xs IH]; intros xs' ys H; simpl in H.
  - injection H as <- _. constructor.
  - destruct (f x) as [[y|e] x1] eqn:Ex; [|discriminate].
    destruct (mapElements f xs) as [[ys1|e] xs1] eqn:Exs; [|discriminate].
    injection H as <- _. constructor; [now exists x1 | now apply (IH xs1)].
Qed.

Lemma ModelerB_parseParameters_In (declared declared' : option (list ParameterObject))
  (parsed : option (list ModelerB.Param)) (p : ModelerB.Param) :
  ModelerB.parseParameters declared = (Ok parsed, declared') ->
  In p (default [] parsed) ->
  exists parameter parameter', ModelerB.parseParameter parameter = (Ok p, parameter').
Proof.
  destruct declared as [parameters|]; simpl.
  - destruct (mapElements ModelerB.parseParameter parameters) as [[r|e] ps'] eqn:E;
      simpl; [|discriminate].
    intros [= <- _] Hin. simpl in Hin.
    destruct (Forall2_In_r _ _ _ _ (mapElements_Ok _ _ _ _ E) Hin) as (x & _ & x' & Hx).
    now exists x, x'.
  - intros [= <- _] [].
Qed.

(** Every parameter of a method of the model was returned by
    [parseParameter]. *)
Lemma ModelerA_method_parameter (doc doc' : OpenAPIObject) (model : ModelerA.Model)
  (m : ModelerA.Method) (p : ModelerA.Param) :
  ModelerA.run doc = (Ok model, doc') ->
  In m (ModelerA.operations model) -> In p (ModelerA.parameters m) ->
  exists parameter, ModelerA.parseParameter parameter = Ok p.
Proof.
  intros Hrun Hm Hp.
  destruct (ModelerA_run_methods _ _ _ _ Hrun Hm)
    as (? & ? & ? & ? & ? & pathParameters & op & ? & _ & _
        & (item & parsed & Hparsed & ->) & Hop).
  apply ModelerA_runOperation_Ok in Hop
    as (? & operationParameters & ? & ? & _ & Hops & _ & _ & _ & _ & _ & Hparams & _).
  rewrite Hparams in Hp. apply mergeParameters_In in Hp as [Hp|Hp].
  - exact (ModelerA_parseParameters_In _ _ _ Hparsed Hp).
  - exact (ModelerA_parseParameters_In _ _ _ Hops Hp).
Qed.

Lemma ModelerB_method_parameter (doc doc' : OpenAPIObject) (model : ModelerB.Model)
  (m : ModelerB.Method) (p : ModelerB.Param) :
  ModelerB.run doc = (Ok model, doc') ->
  In m (ModelerB.operations model) -> In p (ModelerB.parameters m) ->
  exists parameter parameter', ModelerB.parseParameter parameter = (Ok p, parameter').
Proof.
  intros Hrun Hm Hp.
  destruct (ModelerB_run_methods _ _ _ _ Hrun Hm)
    as (? & ? & ? & ? & ? & ? & ? & pathParameters & op & ? & _ & _
        & (declared & parsed & declared' & Hparsed & ->) & Hop).
  apply ModelerB_runOperation_Ok in Hop
    as (? & operationParameters & ? & ? & ? & _ & Hops & _ & _ & _ & _ & _ & Hparams & _).
  rewrite Hparams in Hp. apply mergeParameters_In in Hp as [Hp|Hp].
  - exact (ModelerB_parseParameters_In _ _ _ _ Hparsed Hp).
  - exact (ModelerB_parseParameters_In _ _ _ _ Hops Hp).
Qed.

Lemma ModelerB_parseParameterBase_Ok (parameter parameter' : ParameterObject)
  (b : ModelerB.ParameterBase) :
  ModelerB.parseParameterBase parameter = (Ok b, parameter') ->
  ModelerB.name b = po_name parameter
  /\ ModelerB.required b = default false (pf_required (po_fields parameter))
  /\ (po_in parameter = in_path -> ModelerB.required b = true).
Proof.
  unfold ModelerB.parseParameterBase.
  destruct (Location_eqb (po_in parameter) in_path
            && negb (default false (pf_required (po_fields parameter)))) eqn:Ec;
    [discriminate |].
  intros H. repeat eff_step. simpl. split; [reflexivity |]. split; [reflexivity |].
  intros Hin. rewrite Hin in Ec. simpl in Ec.
  now destruct (default false (pf_required (po_fields parameter))).
Qed.

(** X10. In a model that [run] returns, every parameter of location [path]
    is required. *)
Theorem path_parameters_are_required (doc : OpenAPIObject) :
  (forall model doc' m p,
     ModelerA.run doc = (Ok model, doc') ->
     In m (ModelerA.operations model) -> In p (ModelerA.parameters m) ->
     ModelerA.location p = in_path -> ModelerA.required p = true)
  /\ (forall model doc' m p,
     ModelerB.run doc = (Ok model, doc') ->
     In m (ModelerB.operations model) -> In p (ModelerB.parameters m) ->
     ModelerB.location p = in_path -> ModelerB.required (ModelerB.base p) = true).
Proof.
  split.
  - intros model doc' m p Hrun Hm Hp Hloc.
    destruct (ModelerA_method_parameter _ _ _ _ _ Hrun Hm Hp) as (parameter & Hparse).
    unfold ModelerA.parseParameter in Hparse.
    destruct (_ && _); [discriminate |].
    destruct (Location_eqb (po_in parameter) in_path
              && negb (default false (pf_required (po_fields parameter)))) eqn:Ec;
      [discriminate |].
    injection Hparse as <-. simpl in *. rewrite Hloc in Ec. simpl in Ec.
    now destruct (default false (pf_required (po_fields parameter))).
  - intros model doc' m p Hrun Hm Hp Hloc.
    destruct (ModelerB_method_parameter _ _ _ _ _ Hrun Hm Hp)
      as (parameter & parameter' & Hparse).
    unfold ModelerB.parseParameter in Hparse.
    apply ebind_Ok in Hparse as (b & s & Hbase & Hret).
    apply eret_Ok in Hret as [-> _].
    apply ModelerB_parseParameterBase_Ok in Hbase as (_ & _ & Hreq).
    destruct (po_in parameter); try discriminate. simpl. now apply Hreq.
Qed.

Lemma path_parameters_are_required_witness :
  exists model doc' m p,
    ModelerA.run petDocument = (Ok model, doc')
    /\ In m (ModelerA.operations model) /\ In p (ModelerA.parameters m)
    /\ ModelerA.location p = in_path /\ ModelerA.required p = true.
Proof.
  destruct (ModelerA.run petDocument) as [[model|e] doc'] eqn:E;
    [|vm_compute in E; discriminate].
  destruct (ModelerA.operations model) as [|m rest] eqn:Eo;
    [exfalso; revert Eo; injection E as <- _; vm_compute; discriminate |].
  destruct (ModelerA.parameters m) as [|p ps] eqn:Ep;
    [exfalso; revert Ep; injection E as <- _; vm_compute in Eo;
     injection Eo as <- _; vm_compute; discriminate |].
  assert (Hm : In m (ModelerA.operations model)) by (rewrite Eo; now left).
  assert (Hp : In p (ModelerA.parameters m)) by (rewrite Ep; now left).
  assert (Hloc : ModelerA.location p = in_path).
  { revert Ep. injection E as <- _. vm_compute in Eo. injection Eo as <- _.
    vm_compute. now intros [= <- _]. }
  exists model, doc', m, p. split; [reflexivity |].
  split; [exact Hm |]. split; [exact Hp |].
  split; [exact Hloc |].
  exact (proj1 (path_parameters_are_required petDocument) model doc' m p E Hm Hp Hloc).
Defined.

Lemma sortStrings_Permutation_inv (a b : list string) :
  sortStrings a = sortStrings b -> Permutation a b.
Proof.
  intros Heq. unfold sortStrings in Heq.
  rewrite <- (sortBy_Permutation String.leb a), Heq. apply sortBy_Permutation.
Qed.

Lemma Location_eqb_eq (a b : Location) : Location_eqb a b = true <-> a = b.
Proof. destruct a, b; simpl; split; intros; try reflexivity; discriminate. Qed.

Lemma pathParameterNames_NoDup {P : Type} `{ParameterLike P} (parameters : list P) :
  NoDup (map keyPair parameters) -> NoDup (pathParameterNames parameters).
Proof.
  unfold pathParameterNames.
  induction parameters as [|x l IH]; simpl; [constructor |].
  rewrite NoDup_cons. intros [Hx Hl].
  destruct (Location_eqb (parameterLocation x) in_path) eqn:Ex; [|now apply IH].
  simpl. apply NoDup_cons. split; [|now apply IH].
  intros Hin%list_elem_of_In. apply in_map_iff in Hin as (y & Hname & Hy).
  apply List.filter_In in Hy as [Hy Hloc].
  apply Hx, list_elem_of_In, in_map_iff. exists y. split; [|assumption].
  apply Location_eqb_eq in Ex, Hloc. unfold keyPair. congruence.
Qed.

Lemma validated_placeholders {P : Type} `{ParameterLike P}
  (parameters : list P) (path : Path) :
  validatePathParameters parameters path = Ok tt ->
  Permutation (pathParameterNames parameters) (placeholderNames path).
Proof.
  intros Hv%validatePathParameters_Ok. now apply sortStrings_Permutation_inv.
Qed.

(** X11. In a model that [run] returns, the names of the [path] parameters
    of a method are, up to their order, the placeholder names of its
    [urlSuffix], and no placeholder name occurs twice in it. *)
Theorem model_path_parameters_match_template (doc : OpenAPIObject) :
  (forall model doc' m,
     ModelerA.run doc = (Ok model, doc') -> In m (ModelerA.operations model) ->
     Permutation (pathParameterNames (ModelerA.parameters m))
                 (placeholderNames (ModelerA.urlSuffix m))
     /\ NoDup (placeholderNames (ModelerA.urlSuffix m)))
  /\ (forall model doc' m,
     ModelerB.run doc = (Ok model, doc') -> In m (ModelerB.operations model) ->
     Permutation (pathParameterNames (ModelerB.parameters m))
                 (placeholderNames (ModelerB.urlSuffix m))
     /\ NoDup (placeholderNames (ModelerB.urlSuffix m))).
Proof.
  split.
  - intros model doc' m Hrun Hm.
    destruct (ModelerA_run_methods _ _ _ _ Hrun Hm)
      as (? & ? & ? & ? & ? & pathParameters & ? & ? & _ & Hcheck & _ & Hop).
    apply ModelerA_runOperation_Ok in Hop
      as (? & ? & ? & ? & _ & _ & _ & Hv & _ & -> & _ & -> & _).
    apply validated_placeholders in Hv. split; [assumption |].
    rewrite <- Hv. apply pathParameterNames_NoDup, mergeParameters_NoDup.
    now apply checkParameters_unique.
  - intros model doc' m Hrun Hm.
    destruct (ModelerB_run_methods _ _ _ _ Hrun Hm)
      as (? & ? & ? & ? & ? & ? & ? & pathParameters & ? & ? & _ & Hcheck & _ & Hop).
    apply ModelerB_runOperation_Ok in Hop
      as (? & ? & ? & ? & ? & _ & _ & _ & Hv & _ & -> & _ & -> & _).
    apply validated_placeholders in Hv. split; [assumption |].
    rewrite <- Hv. apply pathParameterNames_NoDup, mergeParameters_NoDup.
    now apply checkParameters_unique.
Qed.

Lemma model_path_parameters_match_template_witness :
  exists model doc' m,
    ModelerB.run petDocument = (Ok model, doc')
    /\ In m (ModelerB.operations model)
    /\ Permutation (pathParameterNames (ModelerB.parameters m))
                   (placeholderNames (ModelerB.urlSuffix m)).
Proof.
  destruct (ModelerB.run petDocument) as [[model|e] doc'] eqn:E;
    [|vm_compute in E; discriminate].
  destruct (ModelerB.operations model) as [|m rest] eqn:Eo;
    [exfalso; revert Eo; injection E as <- _; vm_compute; discriminate |].
  assert (Hm : In m (ModelerB.operations model)) by (rewrite Eo; now left).
  exists model, doc', m. split; [reflexivity |]. split; [exact Hm |].
  exact (proj1 (proj2 (model_path_parameters_match_template petDocument)
                  model doc' m E Hm)).
Defined.

(** ** The responses of the model *)

Lemma setProp_keys {V} (k : string) (v v0 : V) (o : JsObject V) :
  getProp k o = Some v0 -> map fst (setProp k v o) = map fst o.
Proof.
  induction o as [|[k' v'] o IH]; simpl; [discriminate |].
  destruct (String.eqb_spec k k') as [->|Hk]; simpl; [reflexivity |].
  intros Hg. now rewrite IH.
Qed.

Lemma atKey_keys {V A} (k : string) (m : Eff V A) (o o' : JsObject V) (r : result A) :
  atKey k m o = (r, o') -> map fst o' = map fst o.
Proof.
  unfold atKey. destruct (getProp k o) as [v|] eqn:E.
  - destruct (m v) as [r0 v']. intros [= _ <-]. now apply (setProp_keys k v' v).
  - now intros [= _ <-].
Qed.

Lemma atKey_Ok {V A} (k : string) (m : Eff V A) (o o' : JsObject V) (a : A) :
  atKey k m o = (Ok a, o') ->
  exists v v', getProp k o = Some v /\ m v = (Ok a, v') /\ o' = setProp k v' o.
Proof.
  unfold atKey. destruct (getProp k o) as [v|]; [|discriminate].
  destruct (m v) as [r v'] eqn:E. intros [= -> <-]. now exists v, v'.
Qed.

(** The loop [xs.map(f)] when every call of [f] keeps the states related by
    [R]: each call was made in a state that [R] relates to the first. *)
Lemma mapEff_states {S A B} (f : A -> Eff S B) (R : S -> S -> Prop) :
  (forall s, R s s) -> (forall a b c, R a b -> R b c -> R a c) ->
  (forall x s r s', f x s = (r, s') -> R s s') ->
  forall xs s r s', mapEff f xs s = (r, s') ->
    R s s'
    /\ forall ys, r = Ok ys ->
         Forall2 (fun x y => exists s1 s2, R s s1 /\ f x s1 = (Ok y, s2)) xs ys.
Proof.
  intros Hrefl Htrans Hf.
  induction xs as [|x xs IH]; intros s r s' H; simpl in H.
  - injection H as <- <-. split; [apply Hrefl |]. intros ys [= <-]. constructor.
  - unfold ebind in H. destruct (f x s) as [[y|e] s1] eqn:Ex.
    + destruct (mapEff f xs s1) as [[ys1|e] s2] eqn:Exs.
      * injection H as <- <-. destruct (IH _ _ _ Exs) as [HR HF].
        pose proof (Hf _ _ _ _ Ex) as HR1. split; [eauto |].
        intros ys [= <-]. constructor.
        -- exists s, s1. split; [apply Hrefl | assumption].
        -- eapply Forall2_impl; [apply (HF ys1 eq_refl) |].
           intros x0 y0 (t1 & t2 & Ht & Hx0). exists t1, t2. split; [eauto | assumption].
      * injection H as <- <-. destruct (IH _ _ _ Exs) as [HR _].
        split; [eauto |]. discriminate.
    + injection H as <- <-. split; [eauto |]. discriminate.
Qed.

Lemma onHeaders_shape {A} (m : Eff HeadersObject A) (ro ro' : ResponseObject)
  (r : result A) :
  (forall headers r headers', m headers = (r, headers') ->
     map fst headers' = map fst headers) ->
  onHeaders m ro = (r, ro') -> responseShape ro' = responseShape ro.
Proof.
  intros Hm. unfold onHeaders, responseShape.
  destruct (ro_headers ro) as [headers|] eqn:E.
  - destruct (m headers) as [r0 headers'] eqn:Em. intros [= _ <-]. simpl.
    now rewrite (Hm _ _ _ Em).
  - intros [= _ <-]. now rewrite E.
Qed.

Lemma sameResponses_refl (a : ResponsesObject) : sameResponses a a.
Proof. now intros k. Qed.

Lemma sameResponses_trans (a b c : ResponsesObject) :
  sameResponses a b -> sameResponses b c -> sameResponses a c.
Proof. intros H1 H2 k. now rewrite H2, H1. Qed.

Lemma atKey_sameResponses {A} (k : string) (m : Eff ResponseObject A)
  (rs rs' : ResponsesObject) (r : result A) :
  (forall ro r ro', m ro = (r, ro') -> responseShape ro' = responseShape ro) ->
  atKey k m rs = (r, rs') -> sameResponses rs rs'.
Proof.
  intros Hm. unfold atKey. destruct (getProp k rs) as [ro|] eqn:E.
  - destruct (m ro) as [r0 ro'] eqn:Em. intros [= _ <-] k0.
    destruct (String.eqb_spec k k0) as [<-|Hne].
    + rewrite getProp_setProp_eq, E. simpl. now rewrite (Hm _ _ _ Em).
    + now rewrite getProp_setProp_ne.
  - intros [= _ <-]. apply sameResponses_refl.
Qed.

Lemma mapEff_atKey_keys {V B} (f : string -> Eff V B) (names : list string)
  (o o' : JsObject V) (r : result (list B)) :
  mapEff (fun name => atKey name (f name)) names o = (r, o') ->
  map fst o' = map fst o.
Proof.
  intros H.
  apply (mapEff_states _ (fun a b : JsObject V => map fst b = map fst a)) in H.
  - tauto.
  - reflexivity.
  - intros a b c H1 H2. now rewrite H2.
  - intros x s r0 s' Hx. now apply atKey_keys in Hx.
Qed.

Lemma ModelerA_parseResponse_same (k : string) (rs rs' : ResponsesObject)
  (r : result ModelerA.Response) :
  ModelerA.parseResponse k rs = (r, rs') -> sameResponses rs rs'.
Proof.
  unfold ModelerA.parseResponse.
  destruct (negb (matchesStatusPattern (normalizeResponseKey k))).
  - intros [= _ <-]. apply sameResponses_refl.
  - apply atKey_sameResponses. intros ro r0 ro'. unfold ebind.
    destruct (onHeaders _ ro) as [[hs|e] ro1] eqn:Eh;
      [intros [= _ <-] | intros [= _ <-]];
      (eapply onHeaders_shape; [|exact Eh]);
      intros headers r1 headers'; apply mapEff_atKey_keys.
Qed.

Lemma ModelerB_parseResponse_same (k : string) (rs rs' : ResponsesObject)
  (r : result ModelerB.Response) :
  ModelerB.parseResponse k rs = (r, rs') -> sameResponses rs rs'.
Proof.
  unfold ModelerB.parseResponse.
  destruct (negb (matchesStatusPattern (normalizeResponseKey k))).
  - intros [= _ <-]. apply sameResponses_refl.
  - apply atKey_sameResponses. intros ro r0 ro'. unfold ebind.
    destruct (onHeaders _ ro) as [[hs|e] ro1] eqn:Eh;
      [intros [= _ <-] | intros [= _ <-]];
      (eapply onHeaders_shape; [|exact Eh]);
      intros headers r1 headers'; apply mapEff_atKey_keys.
Qed.

Lemma Object_keys_ext {V W} (a : JsObject V) (b : JsObject W) :
  map fst a = map fst b -> Object_keys a = Object_keys b.
Proof. unfold Object_keys. now intros ->. Qed.

Lemma responseShape_headers (a b : ResponseObject) :
  responseShape a = responseShape b ->
  ro_description a = ro_description b
  /\ Object_keys (default [] (ro_headers a)) = Object_keys (default [] (ro_headers b)).
Proof.
  unfold responseShape. intros [= Hd Hh]. split; [assumption |].
  destruct (ro_headers a), (ro_headers b); try discriminate; simpl in *.
  - apply Object_keys_ext. now injection Hh.
  - reflexivity.
Qed.

Lemma onHeaders_Ok {A} (m : Eff HeadersObject A) (ro ro' : ResponseObject) (a : A) :
  onHeaders m ro = (Ok a, ro') ->
  ro_description ro' = ro_description ro
  /\ exists headers', m (default [] (ro_headers ro)) = (Ok a, headers').
Proof.
  unfold onHeaders. destruct (ro_headers ro) as [headers|]; simpl.
  - destruct (m headers) as [r headers'] eqn:E. intros [= -> <-].
    split; [reflexivity | now exists headers'].
  - destruct (m []) as [r headers'] eqn:E. simpl. intros [= -> <-].
    split; [reflexivity | now exists headers'].
Qed.

Lemma ModelerA_headerAsParam_Ok (name : string) (ho ho' : HeaderObject)
  (h : ModelerA.Header) :
  ModelerA.headerAsParam name ho = (Ok h, ho') ->
  ModelerA.h_name h = name /\ ModelerA.h_locationQueryAllowEmptyValue h = None.
Proof.
  unfold ModelerA.headerAsParam, ModelerA.parseParameter. simpl.
  destruct (pf_allowEmptyValue (ho_fields ho)); simpl; [discriminate |].
  intros [= <- _]. now split.
Qed.

Lemma ModelerB_parseHeader_Ok (name : string) (ho ho' : HeaderObject)
  (h : ModelerB.Header) :
  ModelerB.parseHeader name ho = (Ok h, ho') -> ModelerB.name h = name.
Proof.
  unfold ModelerB.parseHeader.
  destruct (ModelerB.parseParameterBase _) as [r param'] eqn:E.
  intros [= -> _]. now apply ModelerB_parseParameterBase_Ok in E as (-> & _).
Qed.

Lemma Forall2_map_eq {A B C} (f : B -> C) (g : A -> C) (xs : list A) (ys : list B) :
  Forall2 (fun x y => f y = g x) xs ys -> map f ys = map g xs.
Proof. induction 1 as [|x y xs ys H _ IH]; simpl; [reflexivity | now rewrite H, IH]. Qed.

Lemma ModelerA_parseResponse_details (k : string) (rs rs' : ResponsesObject)
  (r : ModelerA.Response) :
  ModelerA.parseResponse k rs = (Ok r, rs') ->
  exists ro, getProp k rs = Some ro
    /\ ModelerA.key r = normalizeResponseKey k
    /\ ModelerA.r_description r = ro_description ro
    /\ map ModelerA.h_name (ModelerA.headers r) = Object_keys (default [] (ro_headers ro))
    /\ Forall (fun h => ModelerA.h_locationQueryAllowEmptyValue h = None)
         (ModelerA.headers r).
Proof.
  unfold ModelerA.parseResponse.
  destruct (negb (matchesStatusPattern (normalizeResponseKey k))); [discriminate |].
  intros (ro & ro' & Hro & H & _)%atKey_Ok. exists ro. split; [assumption |].
  repeat eff_step. simpl.
  match goal with
  | Hon : onHeaders _ _ = _ |- _ => apply onHeaders_Ok in Hon as (Hd & headers' & Hh)
  end.
  split; [reflexivity |]. split; [assumption |].
  apply mapEff_Ok in Hh.
  assert (HF : Forall2 (fun name h => ModelerA.h_name h = name
                          /\ ModelerA.h_locationQueryAllowEmptyValue h = None)
                 (Object_keys (default [] (ro_headers ro))) a).
  { eapply Forall2_impl; [exact Hh |].
    intros name h (s1 & s2 & (v & v' & _ & Hv & _)%atKey_Ok).
    now apply ModelerA_headerAsParam_Ok in Hv. }
  split.
  - rewrite <- (map_id (Object_keys _)). apply Forall2_map_eq.
    eapply Forall2_impl; [exact HF |]. now intros name h [-> _].
  - clear Hh. induction HF as [|? ? ? ? [_ Hx] _ IH]; constructor; assumption.
Qed.

Lemma ModelerB_parseResponse_details (k : string) (rs rs' : ResponsesObject)
  (r : ModelerB.Response) :
  ModelerB.parseResponse k rs = (Ok r, rs') ->
  exists ro, getProp k rs = Some ro
    /\ ModelerB.key r = normalizeResponseKey k
    /\ ModelerB.r_description r = ro_description ro
    /\ map ModelerB.name (ModelerB.headers r) = Object_keys (default [] (ro_headers ro)).
Proof.
  unfold ModelerB.parseResponse.
  destruct (negb (matchesStatusPattern (normalizeResponseKey k))); [discriminate |].
  intros (ro & ro' & Hro & H & _)%atKey_Ok. exists ro. split; [assumption |].
  repeat eff_step. simpl.
  match goal with
  | Hon : onHeaders _ _ = _ |- _ => apply onHeaders_Ok in Hon as (Hd & headers' & Hh)
  end.
  split; [reflexivity |]. split; [assumption |].
  apply mapEff_Ok in Hh.
  assert (Hkeys : forall V (o : JsObject V), ModelerB.keys o = Object_keys o).
  { intros V o. unfold ModelerB.keys. induction (Object_keys o) as [|x l IH];
      simpl; [reflexivity | now rewrite IH]. }
  rewrite Hkeys in Hh.
  rewrite <- (map_id (Object_keys _)). apply Forall2_map_eq.
  eapply Forall2_impl; [exact Hh |].
  intros name h (s1 & s2 & (v & v' & _ & Hv & _)%atKey_Ok).
  now apply ModelerB_parseHeader_Ok in Hv.
Qed.

Lemma sameResponses_lookup (rs s1 : ResponsesObject) (k : string) (ro1 : ResponseObject) :
  sameResponses rs s1 -> getProp k s1 = Some ro1 ->
  exists ro, getProp k rs = Some ro
    /\ ro_description ro1 = ro_description ro
    /\ Object_keys (default [] (ro_headers ro1)) = Object_keys (default [] (ro_headers ro)).
Proof.
  intros Hsame Hk. specialize (Hsame k). rewrite Hk in Hsame.
  destruct (getProp k rs) as [ro|]; [|discriminate].
  exists ro. split; [reflexivity |]. apply responseShape_headers.
  change (Some (responseShape ro1) = Some (responseShape ro)) in Hsame. congruence.
Qed.

Lemma ModelerA_parseResponses_details (rs rs' : ResponsesObject)
  (responses : list ModelerA.Response) (r : ModelerA.Response) :
  ModelerA.parseResponses rs = (Ok responses, rs') -> In r responses ->
  exists k ro, getProp k rs = Some ro
    /\ ModelerA.key r = normalizeResponseKey k
    /\ ModelerA.r_description r = ro_description ro
    /\ map ModelerA.h_name (ModelerA.headers r) = Object_keys (default [] (ro_headers ro))
    /\ Forall (fun h => ModelerA.h_locationQueryAllowEmptyValue h = None)
         (ModelerA.headers r).
Proof.
  unfold ModelerA.parseResponses. intros H Hin. repeat eff_step.
  apply (Permutation_in _ (sortBy_Permutation _ _)) in Hin.
  match goal with
  | Hm : mapEff _ _ _ = _ |- _ =>
      apply (mapEff_states _ sameResponses sameResponses_refl sameResponses_trans
               (fun k s r s' => ModelerA_parseResponse_same k s s' r)) in Hm as [_ HF]
  end.
  destruct (Forall2_In_r _ _ _ _ (HF _ eq_refl) Hin) as (k & _ & s1 & s2 & Hsame & Hr).
  apply ModelerA_parseResponse_details in Hr as (ro1 & Hro1 & Hk & Hd & Hh & Ha).
  destruct (sameResponses_lookup _ _ _ _ Hsame Hro1) as (ro & Hro & Hd' & Hh').
  exists k, ro. repeat split; try assumption; congruence.
Qed.

Lemma ModelerB_parseResponses_details (rs rs' : ResponsesObject)
  (responses : list ModelerB.Response) (r : ModelerB.Response) :
  ModelerB.parseResponses rs = (Ok responses, rs') -> In r responses ->
  exists k ro, getProp k rs = Some ro
    /\ ModelerB.key r = normalizeResponseKey k
    /\ ModelerB.r_description r = ro_description ro
    /\ map ModelerB.name (ModelerB.headers r) = Object_keys (default [] (ro_headers ro)).
Proof.
  unfold ModelerB.parseResponses. intros H Hin. repeat eff_step.
  apply (Permutation_in _ (sortBy_Permutation _ _)) in Hin.
  match goal with
  | Hm : mapEff _ _ _ = _ |- _ =>
      apply (mapEff_states _ sameResponses sameResponses_refl sameResponses_trans
               (fun k s r s' => ModelerB_parseResponse_same k s s' r)) in Hm as [_ HF]
  end.
  destruct (Forall2_In_r _ _ _ _ (HF _ eq_refl) Hin) as (k & _ & s1 & s2 & Hsame & Hr).
  apply ModelerB_parseResponse_details in Hr as (ro1 & Hro1 & Hk & Hd & Hh).
  destruct (sameResponses_lookup _ _ _ _ Hsame Hro1) as (ro & Hro & Hd' & Hh').
  exists k, ro. repeat split; try assumption; congruence.
Qed.

(** X12. Every response of the method that [run] pushes for an operation
    comes from a declared response: it has the normalized key and the
    description of that response, and one header for each of its declared
    headers, named by the key of the header, in the order of [Object.keys]. *)
Theorem model_responses_follow_declarations
  (doc : OpenAPIObject) (rawPath : string) (item : PathItemObject)
  (httpMethod : HttpMethod) (op : OperationObject) :
  getProp rawPath (oa_paths doc) = Some item ->
  getOperation httpMethod item = Some op ->
  (forall model doc', ModelerA.run doc = (Ok model, doc') ->
     exists m, In m (ModelerA.operations model)
       /\ ModelerA.pushes doc rawPath item op m
       /\ forall r, In r (ModelerA.responses m) ->
            exists k ro, getProp k (oo_responses op) = Some ro
              /\ ModelerA.key r = normalizeResponseKey k
              /\ ModelerA.r_description r = ro_description ro
              /\ map ModelerA.h_name (ModelerA.headers r)
                 = Object_keys (default [] (ro_headers ro)))
  /\ (forall model doc', ModelerB.run doc = (Ok model, doc') ->
     exists m, In m (ModelerB.operations model)
       /\ ModelerB.pushes doc rawPath item op m
       /\ forall r, In r (ModelerB.responses m) ->
            exists k ro, getProp k (oo_responses op) = Some ro
              /\ ModelerB.key r = normalizeResponseKey k
              /\ ModelerB.r_description r = ro_description ro
              /\ map ModelerB.name (ModelerB.headers r)
                 = Object_keys (default [] (ro_headers ro))).
Proof.
  intros Hitem Hop. split.
  - intros model doc' Hrun.
    destruct (ModelerA_run_pushes _ _ _ _ _ _ _ Hrun Hitem Hop) as (m & Hin & Hm).
    exists m. split; [assumption |]. split; [assumption |].
    destruct Hm as (? & ? & ? & ? & ? & _ & _ & _ & _ & Hm).
    apply ModelerA_runOperation_Ok in Hm
      as (? & ? & responses & ? & _ & _ & _ & _ & Hrs & _ & _ & _ & -> & _).
    intros r Hr.
    destruct (ModelerA_parseResponses_details _ _ _ _ Hrs Hr)
      as (k & ro & H1 & H2 & H3 & H4 & _).
    now exists k, ro.
  - intros model doc' Hrun.
    destruct (ModelerB_run_pushes _ _ _ _ _ _ _ Hrun Hitem Hop) as (m & Hin & Hm).
    exists m. split; [assumption |]. split; [assumption |].
    destruct Hm as (? & ? & ? & ? & ? & ? & ? & _ & _ & _ & _ & _ & Hm).
    apply ModelerB_runOperation_Ok in Hm
      as (? & ? & ? & responses & ? & _ & _ & _ & _ & Hrs & _ & _ & _ & -> & _).
    intros r Hr.
    destruct (ModelerB_parseResponses_details _ _ _ _ Hrs Hr)
      as (k & ro & H1 & H2 & H3 & H4).
    now exists k, ro.
Qed.

Lemma model_responses_follow_declarations_witness :
  getProp "/limits" (oa_paths headerDocument) = Some (samplePathItem None None headerOperation)
  /\ getOperation GET (samplePathItem None None headerOperation) = Some headerOperation
  /\ exists model doc' m,
       ModelerA.run headerDocument = (Ok model, doc')
       /\ In m (ModelerA.operations model)
       /\ forall r, In r (ModelerA.responses m) ->
            exists k ro, getProp k (oo_responses headerOperation) = Some ro
              /\ ModelerA.key r = normalizeResponseKey k
              /\ ModelerA.r_description r = ro_description ro
              /\ map ModelerA.h_name (ModelerA.headers r)
                 = Object_keys (default [] (ro_headers ro)).
Proof.
  split; [reflexivity |]. split; [reflexivity |].
  destruct (ModelerA.run headerDocument) as [[model|e] doc'] eqn:E;
    [|vm_compute in E; discriminate].
  destruct (proj1 (model_responses_follow_declarations headerDocument "/limits"
                     (samplePathItem None None headerOperation) GET headerOperation
                     eq_refl eq_refl) model doc' E)
    as (m & Hin & _ & Hr).
  exists model, doc', m. repeat split; assumption.
Defined.

(** X13. In a model that [run] of [modeler.ts] returns, only parameters of
    location [query] carry [locationQueryAllowEmptyValue], and no header of
    a response carries it. *)
Theorem allowEmptyValue_only_on_query_parameters (doc : OpenAPIObject)
  (model : ModelerA.Model) (doc' : OpenAPIObject) (m : ModelerA.Method) :
  ModelerA.run doc = (Ok model, doc') ->
  In m (ModelerA.operations model) ->
  (forall p, In p (ModelerA.parameters m) ->
     ModelerA.locationQueryAllowEmptyValue p <> None ->
     ModelerA.location p = in_query)
  /\ (forall r h, In r (ModelerA.responses m) -> In h (ModelerA.headers r) ->
        ModelerA.h_locationQueryAllowEmptyValue h = None).
Proof.
  intros Hrun Hm. split.
  - intros p Hp Hsome.
    destruct (ModelerA_method_parameter _ _ _ _ _ Hrun Hm Hp) as (parameter & Hparse).
    unfold ModelerA.parseParameter in Hparse.
    destruct (Location_eqb (po_in parameter) in_query) eqn:Eq.
    + simpl in Hparse. destruct (_ && _); [discriminate |].
      injection Hparse as <-. simpl. now apply Location_eqb_eq.
    + simpl in Hparse.
      destruct (pf_allowEmptyValue (po_fields parameter)) eqn:Ea; [discriminate |].
      destruct (_ && _); [discriminate |].
      injection Hparse as <-. simpl in Hsome. congruence.
  - intros r h Hr Hh.
    destruct (ModelerA_run_methods _ _ _ _ Hrun Hm)
      as (? & ? & ? & ? & ? & ? & ? & ? & _ & _ & _ & Hop).
    apply ModelerA_runOperation_Ok in Hop
      as (? & ? & responses & ? & _ & _ & _ & _ & Hrs & _ & _ & _ & Hresponses & _).
    rewrite Hresponses in Hr.
    destruct (ModelerA_parseResponses_details _ _ _ _ Hrs Hr)
      as (k & ro & _ & _ & _ & _ & Hall).
    rewrite Forall_forall in Hall. now apply Hall, list_elem_of_In.
Qed.

Lemma allowEmptyValue_only_on_query_parameters_witness :
  exists model doc' m,
    ModelerA.run headerDocument = (Ok model, doc')
    /\ In m (ModelerA.operations model)
    /\ forall r h, In r (ModelerA.responses m) -> In h (ModelerA.headers r) ->
         ModelerA.h_locationQueryAllowEmptyValue h = None.
Proof.
  destruct (ModelerA.run headerDocument) as [[model|e] doc'] eqn:E;
    [|vm_compute in E; discriminate].
  destruct (ModelerA.operations model) as [|m rest] eqn:Eo;
    [exfalso; revert Eo; injection E as <- _; vm_compute; discriminate |].
  assert (Hm : In m (ModelerA.operations model)) by (rewrite Eo; now left).
  exists model, doc', m. split; [reflexivity |]. split; [exact Hm |].
  exact (proj2 (allowEmptyValue_only_on_query_parameters headerDocument model doc' m E Hm)).
Defined.

(** ** The later draft: examples, contents, security *)

Lemma normalizeExamples_spec (example : option Json) (declared : option (JsObject Json)) :
  exists examples,
    ModelerB.normalizeExamples example declared
    = (Ok examples, option_map (fun _ => examples) declared)
    /\ (forall k, getProp k examples
          = if truthyOpt example && String.eqb k ""
            then Some (JObject [("value", default JNull example)])
            else getProp k (default [] declared))
    /\ ModelerB.normalizeExamples example (option_map (fun _ => examples) declared)
       = (Ok examples, option_map (fun _ => examples) declared).
Proof.
  unfold ModelerB.normalizeExamples.
  destruct (truthyOpt example) eqn:Et.
  - set (v := JObject [("value", default JNull example)]).
    exists (setProp "" v (default [] declared)).
    split; [now destruct declared |]. split.
    + intros k. simpl. destruct (String.eqb_spec k "") as [->|Hk].
      * apply getProp_setProp_eq.
      * apply getProp_setProp_ne. congruence.
    + destruct declared as [d|]; simpl; [|reflexivity].
      now rewrite (setProp_same "" v (setProp "" v d) (getProp_setProp_eq _ _ _)).
  - exists (default [] declared). split; [now destruct declared |].
    split; [reflexivity |]. now destruct declared.
Qed.

(** X14. [normalizeExamples] never throws.  The examples it returns are the
    declared ones (or none), with the entry of the empty key set to
    [{ value: example }] when [example] is truthy -- a falsy example (as
    [0], [false] or the empty string) is dropped.  It writes the same into
    declared examples, and a second call changes nothing more and returns
    the same. *)
Theorem normalizeExamples_entries (example : option Json)
  (declared : option (JsObject Json)) :
  exists examples,
    ModelerB.normalizeExamples example declared
    = (Ok examples, option_map (fun _ => examples) declared)
    /\ (forall k, getProp k examples
          = if truthyOpt example && String.eqb k ""
            then Some (JObject [("value", default JNull example)])
            else getProp k (default [] declared))
    /\ ModelerB.normalizeExamples example (option_map (fun _ => examples) declared)
       = (Ok examples, option_map (fun _ => examples) declared).
Proof.
  destruct (normalizeExamples_spec example declared) as (examples & H1 & H2 & H3).
  exists examples. repeat split; assumption.
Qed.

Lemma keys_Object_keys {V} (o : JsObject V) : ModelerB.keys o = Object_keys o.
Proof.
  unfold ModelerB.keys. induction (Object_keys o) as [|x l IH]; simpl;
    [reflexivity | now rewrite IH].
Qed.

(** Rewrite with an equation about [normalizeExamples] whose arguments are
    written with other names of the same types. *)
Ltac rewrite_normalizeExamples H :=
  match type of H with
  | ModelerB.normalizeExamples ?e ?d = _ =>
      match goal with
      | |- context [ModelerB.normalizeExamples ?e' ?d'] =>
          change (ModelerB.normalizeExamples e' d')
            with (ModelerB.normalizeExamples e d);
          rewrite H
      end
  end.

Lemma mediaTypeSchema_ext (a b : MediaTypeObject) :
  getProp "schema" a = getProp "schema" b -> mediaTypeSchema a = mediaTypeSchema b.
Proof. unfold mediaTypeSchema. now intros ->. Qed.

Lemma normalizeContentExamples_spec (content : ContentObject) :
  exists examples content1,
    ModelerB.normalizeContentExamples content = (Ok examples, content1)
    /\ ModelerB.normalizeContentExamples content1 = (Ok examples, content1)
    /\ (forall mediaType,
          option_map mediaTypeSchema (getProp mediaType content1)
          = option_map mediaTypeSchema (getProp mediaType content))
    /\ (forall k, getProp k examples
          = if isSome (getProp "example" content) && String.eqb k ""
            then Some (JObject [("value", JObject (default [] (getProp "example" content)))])
            else getProp k (default [] (getProp "examples" content))).
Proof.
  unfold ModelerB.normalizeContentExamples, zoom. cbv beta.
  change (@getProp (JsObject Json)) with (@getProp MediaTypeObject).
  set (example := option_map JObject (getProp "example" content)).
  destruct (normalizeExamples_spec example (getProp "examples" content))
    as (examples & H1 & H2 & H3).
  assert (Hlookup : forall k, getProp k examples
            = if isSome (getProp "example" content) && String.eqb k ""
              then Some (JObject [("value", JObject (default [] (getProp "example" content)))])
              else getProp k (default [] (getProp "examples" content))).
  { intros k. rewrite H2. unfold example.
    now destruct (getProp "example" content). }
  destruct (getProp "examples" content) as [declared|] eqn:Ed.
  - exists examples, (setProp "examples" examples content).
    rewrite H1. simpl. split; [reflexivity |].
    rewrite getProp_setProp_eq, getProp_setProp_ne by discriminate.
    simpl in H3. rewrite_normalizeExamples H3. simpl.
    rewrite (setProp_same "examples" examples _ (getProp_setProp_eq _ _ _)).
    split; [reflexivity |]. split; [|exact Hlookup].
    intros mediaType. destruct (String.eqb_spec "examples" mediaType) as [<-|Hne].
    + rewrite getProp_setProp_eq, Ed. simpl. f_equal.
      apply mediaTypeSchema_ext. pose proof (Hlookup "schema") as Hs.
      simpl in Hs. rewrite andb_false_r in Hs. exact Hs.
    + now rewrite getProp_setProp_ne.
  - exists examples, content. rewrite H1. simpl. split; [reflexivity |].
    simpl in H3. rewrite Ed. rewrite_normalizeExamples H3. simpl.
    split; [reflexivity |]. split; [reflexivity | exact Hlookup].
Qed.

Lemma getProp_fold_setProp {V} (entry : string -> V) (names : list string)
  (result : JsObject V) (k : string) :
  getProp k (fold_left (fun res name => setProp name (entry name) res) names result)
  = if existsb (String.eqb k) names then Some (entry k) else getProp k result.
Proof.
  revert result. induction names as [|name rest IH]; intros result; [reflexivity |].
  simpl. rewrite IH. destruct (existsb (String.eqb k) rest).
  - now rewrite orb_true_r.
  - rewrite orb_false_r. destruct (String.eqb_spec k name) as [->|Hne].
    + apply getProp_setProp_eq.
    + apply getProp_setProp_ne. congruence.
Qed.

Lemma parseMediaType_spec (mediaType : string) (s content1 : ContentObject)
  (contentObj : MediaTypeObject) (examples : JsObject ExampleObject) :
  getProp mediaType s = Some contentObj ->
  ModelerB.normalizeContentExamples s = (Ok examples, content1) ->
  ModelerB.parseMediaType mediaType s = (Ok (mediaTypeEntry examples contentObj), content1).
Proof.
  intros Hget Hn. unfold ModelerB.parseMediaType, ebind, eread. cbv beta.
  unfold MediaTypeObject in *. rewrite Hget, Hn. reflexivity.
Qed.

Lemma parseContentLoop_spec (content content1 : ContentObject)
  (examples : JsObject ExampleObject) (mediaTypes : list string) :
  (forall mediaType,
     option_map mediaTypeSchema (getProp mediaType content1)
     = option_map mediaTypeSchema (getProp mediaType content)) ->
  ModelerB.normalizeContentExamples content1 = (Ok examples, content1) ->
  (forall mediaType, In mediaType mediaTypes -> getProp mediaType content <> None) ->
  forall s result,
    ModelerB.normalizeContentExamples s = (Ok examples, content1) ->
    (forall mediaType,
       option_map mediaTypeSchema (getProp mediaType s)
       = option_map mediaTypeSchema (getProp mediaType content)) ->
    exists content',
      ModelerB.parseContentLoop mediaTypes result s
      = (Ok (fold_left
               (fun res mediaType =>
                  setProp mediaType
                    {| ModelerB.schema :=
                         option_map mediaTypeSchema (getProp mediaType content);
                       ModelerB.examples := examples;
                       ModelerB.encoding := [] |} res)
               mediaTypes result), content').
Proof.
  intros Hschema1 Hn1.
  induction mediaTypes as [|mediaType rest IH]; intros Hin s result Hn Hschema.
  - exists s. reflexivity.
  - pose proof (Hschema mediaType) as Hm.
    destruct (getProp mediaType s) as [contentObj|] eqn:Es.
    + destruct (IH (fun mt H => Hin mt (or_intror H)) content1
                  (setProp mediaType
                     {| ModelerB.schema :=
                          option_map mediaTypeSchema (getProp mediaType content);
                        ModelerB.examples := examples;
                        ModelerB.encoding := [] |} result) Hn1 Hschema1)
        as (content' & Hloop).
      exists content'. simpl. unfold ebind at 1.
      rewrite (parseMediaType_spec _ _ _ _ _ Es Hn), <- Hloop.
      f_equal. f_equal. unfold mediaTypeEntry. f_equal.
      destruct (getProp mediaType content); [|discriminate].
      simpl in Hm. injection Hm as Hm. simpl. now rewrite <- Hm.
    + exfalso. apply (Hin mediaType (or_introl eq_refl)).
      destruct (getProp mediaType content); [discriminate | reflexivity].
Qed.

Lemma existsb_Object_keys {V} (o : JsObject V) (k : string) :
  existsb (String.eqb k) (Object_keys o) = isSome (getProp k o).
Proof.
  destruct (getProp k o) as [v|] eqn:E; simpl.
  - apply existsb_exists. exists k. split; [|apply String.eqb_refl].
    eapply getProp_Object_keys; eassumption.
  - apply Bool.not_true_iff_false. intros (x & Hx & ->%String.eqb_eq)%existsb_exists.
    apply Object_keys_In, In_getProp in Hx as (v & Hv). congruence.
Qed.

Lemma parseContent_spec (content : ContentObject) :
  exists result examples content',
    ModelerB.parseContent content = (Ok result, content')
    /\ (forall mediaType,
          getProp mediaType result
          = option_map (mediaTypeEntry examples) (getProp mediaType content))
    /\ (forall k, getProp k examples
          = if isSome (getProp "example" content) && String.eqb k ""
            then Some (JObject [("value", JObject (default [] (getProp "example" content)))])
            else getProp k (default [] (getProp "examples" content))).
Proof.
  destruct (normalizeContentExamples_spec content)
    as (examples & content1 & Hn & Hn1 & Hschema & Hlookup).
  destruct (parseContentLoop_spec content content1 examples (ModelerB.keys content)
              Hschema Hn1) with (s := content) (result := @nil (string * ModelerB.MediaTypeContent))
    as (content' & Hloop).
  - intros mediaType Hin. rewrite keys_Object_keys in Hin.
    apply Object_keys_In, In_getProp in Hin as (v & ->). discriminate.
  - exact Hn.
  - reflexivity.
  - eexists _, examples, content'. split; [exact Hloop |]. split; [|exact Hlookup].
    intros mediaType. rewrite getProp_fold_setProp, keys_Object_keys, existsb_Object_keys.
    now destruct (getProp mediaType content).
Qed.

(** X15. [parseContent] never throws.  Its result has an entry for exactly
    the media types of the content map, each with the schema of its media
    type (the empty object when it declares none), no encoding, and the
    same examples for all of them: those that [normalizeExamples] finds on
    the content map itself, that is under the media types named [examples]
    and [example]. *)
Theorem parseContent_entries (content : ContentObject) :
  exists result examples content',
    ModelerB.parseContent content = (Ok result, content')
    /\ (forall mediaType,
          getProp mediaType result
          = option_map (mediaTypeEntry examples) (getProp mediaType content))
    /\ (forall k, getProp k examples
          = if isSome (getProp "example" content) && String.eqb k ""
            then Some (JObject [("value", JObject (default [] (getProp "example" content)))])
            else getProp k (default [] (getProp "examples" content))).
Proof.
  destruct (parseContent_spec content) as (result & examples & content' & H1 & H2 & H3).
  exists result, examples, content'. repeat split; assumption.
Qed.

(** X16. The content of a parsed parameter or header always has the entry
    of the empty media type: it holds the schema of the parameter (none when
    it declares none) and its normalized examples, and replaces what
    [parseContent] made for a declared media type of the empty name; the
    other entries are those of [parseContent] on the declared content. *)
Theorem parameter_content_default_entry (parameter parameter' : ParameterObject)
  (b : ModelerB.ParameterBase) :
  ModelerB.parseParameterBase parameter = (Ok b, parameter') ->
  exists examples contentExamples,
    getProp "" (ModelerB.content b)
    = Some {| ModelerB.schema :=
                if truthyOpt (pf_schema (po_fields parameter))
                then option_map ModelerB.parseSchema (pf_schema (po_fields parameter))
                else None;
              ModelerB.examples := examples;
              ModelerB.encoding := [] |}
    /\ (forall k, getProp k examples
          = if truthyOpt (pf_example (po_fields parameter)) && String.eqb k ""
            then Some (JObject [("value", default JNull (pf_example (po_fields parameter)))])
            else getProp k (default [] (pf_examples (po_fields parameter))))
    /\ (forall mediaType, mediaType <> "" ->
          getProp mediaType (ModelerB.content b)
          = option_map (mediaTypeEntry contentExamples)
              (getProp mediaType (default [] (pf_content (po_fields parameter))))).
Proof.
  unfold ModelerB.parseParameterBase.
  destruct (Location_eqb (po_in parameter) in_path
            && negb (default false (pf_required (po_fields parameter))));
    [discriminate |].
  intros H. repeat eff_step.
  match goal with
  | Hz : zoom po_fields _ (zoom _ _ _) _ = _ |- _ =>
      apply zoom_Ok in Hz as (f1 & Hz & ->);
      apply zoom_Ok in Hz as (declared1 & Hex & ->)
  end.
  match goal with
  | Hz : zoom po_fields _ _ _ = _ |- _ => apply zoom_Ok in Hz as (f2 & Hcontent & ->)
  end.
  destruct (normalizeExamples_spec (pf_example (po_fields parameter))
              (pf_examples (po_fields parameter))) as (examples & Hn & Hlookup & _).
  rewrite Hn in Hex. injection Hex as <- <-.
  simpl in Hcontent. simpl.
  destruct (pf_content (po_fields parameter)) as [declared|] eqn:Ec.
  - destruct (parseContent_spec declared) as (result & ce & declared' & Hp & Hentries & _).
    rewrite Hp in Hcontent. injection Hcontent as <- <-.
    exists examples, ce. split; [apply getProp_setProp_eq |]. split; [exact Hlookup |].
    intros mediaType Hne. rewrite getProp_setProp_ne by congruence. apply Hentries.
  - injection Hcontent as <- <-.
    exists examples, []. split; [apply getProp_setProp_eq |]. split; [exact Hlookup |].
    intros mediaType Hne. now rewrite getProp_setProp_ne by congruence.
Qed.

Lemma parameter_content_default_entry_witness :
  exists b parameter' examples,
    ModelerB.parseParameterBase explodeFalseParameter = (Ok b, parameter')
    /\ getProp "" (ModelerB.content b)
       = Some {| ModelerB.schema := None; ModelerB.examples := examples;
                 ModelerB.encoding := [] |}.
Proof.
  destruct (ModelerB.parseParameterBase explodeFalseParameter) as [[b|e] parameter'] eqn:E;
    [|vm_compute in E; discriminate].
  destruct (parameter_content_default_entry explodeFalseParameter parameter' b E)
    as (examples & ce & Hentry & _).
  exists b, parameter', examples. split; [reflexivity | exact Hentry].
Defined.






(** ** The fields of a method *)

Lemma ModelerA_runOperation_fields (path : Path)
  (pathSummary pathDescription : option string)
  (pathServers : list Server) (pathParameters : list ModelerA.Param)
  (op op' : OperationObject) (m : ModelerA.Method) :
  ModelerA.runOperation path pathSummary pathDescription
    pathServers pathParameters op = (Ok m, op') ->
  ModelerA.tags m = default [] (oo_tags op)
  /\ ModelerA.summary m = orElseString (oo_summary op) pathSummary
  /\ ModelerA.m_description m = orElseString (oo_description op) pathDescription
  /\ ModelerA.externalDocs m = oo_externalDocs op
  /\ ModelerA.operationId m = oo_operationId op
  /\ ModelerA.m_deprecated m = default false (oo_deprecated op).
Proof.
  unfold ModelerA.runOperation. intros H. repeat eff_step.
  destruct (checkParameters pathParameters); [|discriminate].
  cbn [negb] in H. repeat eff_step.
  match goal with
  | Hz : zoom _ _ _ _ = _ |- _ => apply zoom_Ok in Hz as (responses' & Hresponses & ->)
  end.
  repeat eff_step. simpl. now repeat split.
Qed.

Lemma parseRequestBody_Ok (op op' : OperationObject)
  (requestBody : option ModelerB.ParameterBody) :
  ModelerB.parseRequestBody op = (Ok requestBody, op') ->
  oo_tags op' = oo_tags op /\ oo_summary op' = oo_summary op
  /\ oo_description op' = oo_description op
  /\ oo_externalDocs op' = oo_externalDocs op
  /\ oo_deprecated op' = oo_deprecated op
  /\ match oo_requestBody op with
     | None => requestBody = None
     | Some body =>
         exists content content',
           ModelerB.parseContent (rb_content body) = (Ok content, content')
           /\ requestBody
              = Some {| ModelerB.body_description := rb_description body;
                        ModelerB.body_content := content;
                        ModelerB.body_required := default false (rb_required body) |}
     end.
Proof.
  unfold ModelerB.parseRequestBody.
  destruct (oo_requestBody op) as [body|].
  - destruct (ModelerB.parseContent (rb_content body)) as [[content|e] content'] eqn:E;
      simpl; [|discriminate].
    intros [= <- <-]. simpl. repeat split. now exists content, content'.
  - intros [= <- <-]. now repeat split.
Qed.

Lemma ModelerB_runOperation_fields
  (securitySchemes : JsObject SecuritySchemeObject)
  (security : ModelerB.SecurityRequirementsAlternatives)
  (path : Path)
  (pathSummary pathDescription : option string)
  (pathServers : list Server) (pathParameters : list ModelerB.Param)
  (op op' : OperationObject) (m : ModelerB.Method) :
  ModelerB.runOperation securitySchemes security path pathSummary
    pathDescription pathServers pathParameters op = (Ok m, op') ->
  ModelerB.tags m = default [] (oo_tags op)
  /\ ModelerB.summary m = orElseString (oo_summary op) pathSummary
  /\ ModelerB.m_description m = orElseString (oo_description op) pathDescription
  /\ ModelerB.externalDocs m = oo_externalDocs op
  /\ ModelerB.operationId m = oo_operationId op
  /\ ModelerB.m_deprecated m = default false (oo_deprecated op)
  /\ (exists operationSecurity,
        ModelerB.parseSecurityRequirements securitySchemes (oo_security op)
        = Ok operationSecurity
        /\ ModelerB.security m = default security operationSecurity)
  /\ match oo_requestBody op with
     | None => ModelerB.requestBody m = None
     | Some body =>
         exists content content',
           ModelerB.parseContent (rb_content body) = (Ok content, content')
           /\ ModelerB.requestBody m
              = Some {| ModelerB.body_description := rb_description body;
                        ModelerB.body_content := content;
                        ModelerB.body_required := default false (rb_required body) |}
     end.
Proof.
  unfold ModelerB.runOperation. intros H. repeat eff_step.
  match goal with
  | Hz : zoom _ _ _ _ = _ |- _ => apply zoom_Ok in Hz as (parameters' & Hparameters & ->)
  end.
  destruct (checkParameters pathParameters); [|discriminate].
  cbn [negb] in H. repeat eff_step.
  match goal with
  | Hz : zoom _ _ _ _ = _ |- _ => apply zoom_Ok in Hz as (responses' & Hresponses & ->)
  end.
  repeat eff_step.
  match goal with
  | Hb : ModelerB.parseRequestBody ?o = (_, ?o') |- _ =>
      pose proof (parseRequestBody_frame o) as (_ & Hsec & Hid & _);
      rewrite Hb in Hsec, Hid; simpl in Hsec, Hid;
      apply parseRequestBody_Ok in Hb as (H1 & H2 & H3 & H4 & H5 & H6)
  end.
  simpl in *. rewrite H1, H2, H3, H4, H5, Hid.
  repeat split; try reflexivity; [|exact H6].
  match goal with
  | Hs : ModelerB.parseSecurityRequirements _ _ = Ok ?x |- _ =>
      exists x; rewrite Hsec in Hs; split; [exact Hs | reflexivity]
  end.
Qed.

(** X18. The security of the method that [run] pushes for an operation is
    the one the operation declares, else the one of the document, else
    none; an operation that declares the empty list has no security,
    whatever the document declares. *)
Theorem method_security_inherited
  (doc : OpenAPIObject) (rawPath : string) (item : PathItemObject)
  (httpMethod : HttpMethod) (op : OperationObject)
  (model : ModelerB.Model) (doc' : OpenAPIObject) :
  getProp rawPath (oa_paths doc) = Some item ->
  getOperation httpMethod item = Some op ->
  ModelerB.run doc = (Ok model, doc') ->
  exists m documentSecurity operationSecurity,
    In m (ModelerB.operations model)
    /\ ModelerB.pushes doc rawPath item op m
    /\ ModelerB.parseSecurityRequirements
         (default [] (co_securitySchemes (oa_components doc))) (oa_security doc)
       = Ok documentSecurity
    /\ ModelerB.parseSecurityRequirements
         (default [] (co_securitySchemes (oa_components doc))) (oo_security op)
       = Ok operationSecurity
    /\ ModelerB.security m = default (default [] documentSecurity) operationSecurity
    /\ (oo_security op = Some [] -> ModelerB.security m = []).
Proof.
  intros Hitem Hop Hrun.
  destruct (ModelerB_run_pushes _ _ _ _ _ _ _ Hrun Hitem Hop) as (m & Hin & Hm).
  pose proof Hm as (servers & security & path & pathServers & pathParameters & ps' & op'
                    & _ & Hsec & _ & _ & _ & Hrunop).
  apply ModelerB_runOperation_fields in Hrunop
    as (_ & _ & _ & _ & _ & _ & (operationSecurity & Hos & Hsm) & _).
  exists m, security, operationSecurity.
  repeat split; try assumption.
  intros Hempty. rewrite Hempty in Hos. simpl in Hos. injection Hos as <-.
  now rewrite Hsm.
Qed.

Lemma method_security_inherited_witness :
  exists model doc' m,
    ModelerB.run securedDocument = (Ok model, doc')
    /\ In m (ModelerB.operations model)
    /\ ModelerB.pushes securedDocument "/open" openPathItem openOperation m
    /\ ModelerB.security m = [].
Proof.
  destruct (ModelerB.run securedDocument) as [[model|e] doc'] eqn:E;
    [|vm_compute in E; discriminate].
  destruct (method_security_inherited securedDocument "/open" openPathItem GET
              openOperation model doc' eq_refl eq_refl E)
    as (m & ds & os & Hin & Hpushes & _ & _ & _ & Hempty).
  exists model, doc', m. repeat split; try assumption. now apply Hempty.
Defined.

(** X19. The method that [run] pushes for an operation has the tags of the
    operation (none when it declares none), its [externalDocs] and
    [operationId], its [deprecated] flag (false when absent), and its
    summary and description, or those of the path item when the operation
    has none or the empty string. *)
Theorem method_metadata
  (doc : OpenAPIObject) (rawPath : string) (item : PathItemObject)
  (httpMethod : HttpMethod) (op : OperationObject) :
  getProp rawPath (oa_paths doc) = Some item ->
  getOperation httpMethod item = Some op ->
  (forall model doc', ModelerA.run doc = (Ok model, doc') ->
     exists m, In m (ModelerA.operations model)
       /\ ModelerA.pushes doc rawPath item op m
       /\ ModelerA.tags m = default [] (oo_tags op)
       /\ ModelerA.summary m = orElseString (oo_summary op) (pi_summary item)
       /\ ModelerA.m_description m
          = orElseString (oo_description op) (pi_description item)
       /\ ModelerA.externalDocs m = oo_externalDocs op
       /\ ModelerA.operationId m = oo_operationId op
       /\ ModelerA.m_deprecated m = default false (oo_deprecated op))
  /\ (forall model doc', ModelerB.run doc = (Ok model, doc') ->
     exists m, In m (ModelerB.operations model)
       /\ ModelerB.pushes doc rawPath item op m
       /\ ModelerB.tags m = default [] (oo_tags op)
       /\ ModelerB.summary m = orElseString (oo_summary op) (pi_summary item)
       /\ ModelerB.m_description m
          = orElseString (oo_description op) (pi_description item)
       /\ ModelerB.externalDocs m = oo_externalDocs op
       /\ ModelerB.operationId m = oo_operationId op
       /\ ModelerB.m_deprecated m = default false (oo_deprecated op)).
Proof.
  intros Hitem Hop. split.
  - intros model doc' Hrun.
    destruct (ModelerA_run_pushes _ _ _ _ _ _ _ Hrun Hitem Hop) as (m & Hin & Hm).
    exists m. split; [assumption |]. split; [assumption |].
    destruct Hm as (? & ? & ? & ? & ? & _ & _ & _ & _ & Hm).
    now apply ModelerA_runOperation_fields in Hm.
  - intros model doc' Hrun.
    destruct (ModelerB_run_pushes _ _ _ _ _ _ _ Hrun Hitem Hop) as (m & Hin & Hm).
    exists m. split; [assumption |]. split; [assumption |].
    destruct Hm as (? & ? & ? & ? & ? & ? & ? & _ & _ & _ & _ & _ & Hm).
    apply ModelerB_runOperation_fields in Hm as (H1 & H2 & H3 & H4 & H5 & H6 & _).
    now repeat split.
Qed.

Lemma method_metadata_witness :
  exists model doc' m,
    ModelerA.run securedDocument = (Ok model, doc')
    /\ In m (ModelerA.operations model)
    /\ ModelerA.summary m = Some "Open endpoints"
    /\ ModelerA.operationId m = Some "open".
Proof.
  destruct (ModelerA.run securedDocument) as [[model|e] doc'] eqn:E;
    [|vm_compute in E; discriminate].
  destruct (proj1 (method_metadata securedDocument "/open" openPathItem GET
                     openOperation eq_refl eq_refl) model doc' E)
    as (m & Hin & _ & _ & Hsummary & _ & _ & Hid & _).
  exists model, doc', m. repeat split; assumption.
Defined.

(** X20. The method that [run] of the later draft pushes has a request body
    exactly when the operation declares one: with its description, its
    [required] flag (false when absent) and the content that [parseContent]
    makes of its content map. *)
Theorem method_request_body
  (doc : OpenAPIObject) (rawPath : string) (item : PathItemObject)
  (httpMethod : HttpMethod) (op : OperationObject)
  (model : ModelerB.Model) (doc' : OpenAPIObject) :
  getProp rawPath (oa_paths doc) = Some item ->
  getOperation httpMethod item = Some op ->
  ModelerB.run doc = (Ok model, doc') ->
  exists m,
    In m (ModelerB.operations model)
    /\ ModelerB.pushes doc rawPath item op m
    /\ match oo_requestBody op with
       | None => ModelerB.requestBody m = None
       | Some body =>
           exists b examples,
             ModelerB.requestBody m = Some b
             /\ ModelerB.body_description b = rb_description body
             /\ ModelerB.body_required b = default false (rb_required body)
             /\ forall mediaType,
                  getProp mediaType (ModelerB.body_content b)
                  = option_map (mediaTypeEntry examples)
                      (getProp mediaType (rb_content body))
       end.
Proof.
  intros Hitem Hop Hrun.
  destruct (ModelerB_run_pushes _ _ _ _ _ _ _ Hrun Hitem Hop) as (m & Hin & Hm).
  exists m. split; [assumption |]. split; [assumption |].
  destruct Hm as (? & ? & ? & ? & ? & ? & ? & _ & _ & _ & _ & _ & Hm).
  apply ModelerB_runOperation_fields in Hm as (_ & _ & _ & _ & _ & _ & _ & Hbody).
  destruct (oo_requestBody op) as [body|]; [|assumption].
  destruct Hbody as (content & content' & Hcontent & Hrb).
  destruct (parseContent_spec (rb_content body))
    as (result & examples & c' & Hp & Hentries & _).
  rewrite Hp in Hcontent. injection Hcontent as <- <-.
  eexists _, examples. split; [exact Hrb |]. simpl. now repeat split.
Qed.

(** ** One method for every operation *)

Lemma forMethods_length {A} (body : HttpMethod -> Eff OperationObject A)
  (methods : list HttpMethod) (item item' : PathItemObject) (rs : list A) :
  forMethods body methods item = (Ok rs, item') ->
  List.length rs
  = List.length (List.filter (fun h => isSome (getOperation h item)) methods)
  /\ forall h, isSome (getOperation h item') = isSome (getOperation h item).
Proof.
  revert item rs. induction methods as [|h0 rest IH]; intros item rs H.
  - simpl in H. apply eret_Ok in H as [-> ->]. now split.
  - simpl in H. eff_inv H. apply eret_Ok in H as [-> ->].
    destruct (IH _ _ Hstep0) as [Hlen Hsame].
    assert (Hs : forall h, isSome (getOperation h s) = isSome (getOperation h item)).
    { intros h. unfold onOperation in Hstep.
      destruct (getOperation h0 item) as [op|] eqn:E0.
      - destruct (body h0 op) as [r0 op']. injection Hstep as _ <-.
        destruct (HttpMethod_eq_dec h0 h) as [<-|Hne].
        + now rewrite getOperation_setOperation_eq, E0.
        + now rewrite getOperation_setOperation_ne.
      - now injection Hstep as _ <-. }
    split; [|intros h; now rewrite Hsame, Hs].
    simpl. unfold onOperation in Hstep.
    destruct (getOperation h0 item) as [op|] eqn:E0; simpl.
    + destruct (body h0 op) as [[r0|e] op']; simpl in Hstep; [|discriminate].
      injection Hstep as <- _. simpl. rewrite Hlen. f_equal. f_equal.
      apply List.filter_ext. intros h. apply Hs.
    + injection Hstep as <- _. rewrite Hlen. f_equal.
      apply List.filter_ext. intros h. apply Hs.
Qed.

Lemma declaredOperations_ext (a b : PathItemObject) :
  (forall h, isSome (getOperation h a) = isSome (getOperation h b)) ->
  declaredOperations a = declaredOperations b.
Proof.
  intros H. unfold declaredOperations. f_equal. apply List.filter_ext. exact H.
Qed.

Lemma forPaths_order {A} (body : string -> Path -> Eff PathItemObject (list A))
  (g : A -> string) :
  (forall rawPath path item ms0 item',
     parsePath rawPath = Ok path ->
     body rawPath path item = (Ok ms0, item') ->
     map g ms0 = repeat rawPath (declaredOperations item)
     /\ declaredOperations item' = declaredOperations item) ->
  forall rawPaths paths paths' ms,
    forPaths body rawPaths paths = (Ok ms, paths') ->
    map g ms
    = flat_map (fun rawPath =>
                  repeat rawPath
                    (match getProp rawPath paths with
                     | Some item => declaredOperations item
                     | None => 0
                     end)) rawPaths.
Proof.
  intros Hbody. induction rawPaths as [|k0 rest IH]; intros paths paths' ms H.
  - simpl in H. apply eret_Ok in H as [-> _]. reflexivity.
  - simpl in H. eff_inv H. apply eret_Ok in H as [-> ->].
    apply elift_Ok in Hstep as [Hpath ->].
    apply atKey_Ok in Hstep0 as (item & item' & Hitem & Hb & ->).
    destruct (Hbody _ _ _ _ _ Hpath Hb) as [Hmap Hcount].
    simpl. rewrite map_app, Hmap, Hitem, (IH _ _ _ Hstep1). f_equal.
    apply flat_map_ext. intros k.
    destruct (String.eqb_spec k0 k) as [<-|Hne].
    + now rewrite getProp_setProp_eq, Hitem, Hcount.
    + now rewrite getProp_setProp_ne.
Qed.

Lemma map_const_repeat {A B} (f : A -> B) (b : B) (l : list A) :
  (forall x, In x l -> f x = b) -> map f l = repeat b (List.length l).
Proof.
  induction l as [|x l IH]; intros H; [reflexivity |].
  simpl. rewrite (H x (or_introl eq_refl)), IH; [reflexivity |].
  intros y Hy. apply H. now right.
Qed.

Lemma ModelerA_runPath_order (servers : list Server) (rawPath : string) (path : Path)
  (item item' : PathItemObject) (ms0 : list ModelerA.Method) :
  parsePath rawPath = Ok path ->
  ModelerA.runPath servers rawPath path item = (Ok ms0, item') ->
  map (fun m => renderPath (ModelerA.urlSuffix m)) ms0
  = repeat rawPath (declaredOperations item)
  /\ declaredOperations item' = declaredOperations item.
Proof.
  intros Hpath Hbody. unfold ModelerA.runPath in Hbody. repeat eff_step.
  destruct (negb (checkParameters _)); [discriminate |].
  destruct (forMethods_length _ _ _ _ _ Hbody) as [Hlen Hsame].
  split; [|now apply declaredOperations_ext].
  unfold declaredOperations. rewrite <- Hlen. apply map_const_repeat.
  intros m Hm.
  destruct (forMethods_elem _ _ _ _ _ Hbody m Hm) as (h & op & op' & _ & Hop).
  apply ModelerA_runOperation_Ok in Hop
    as (? & ? & ? & ? & _ & _ & _ & _ & _ & -> & _).
  now apply parsePath_render.
Qed.

Lemma ModelerB_runPath_order
  (securitySchemes : JsObject SecuritySchemeObject)
  (security : ModelerB.SecurityRequirementsAlternatives)
  (servers : list Server) (rawPath : string) (path : Path)
  (item item' : PathItemObject) (ms0 : list ModelerB.Method) :
  parsePath rawPath = Ok path ->
  ModelerB.runPath securitySchemes security servers rawPath path item = (Ok ms0, item') ->
  map (fun m => renderPath (ModelerB.urlSuffix m)) ms0
  = repeat rawPath (declaredOperations item)
  /\ declaredOperations item' = declaredOperations item.
Proof.
  intros Hpath Hbody. unfold ModelerB.runPath in Hbody. repeat eff_step.
  match goal with
  | Hz : zoom _ _ _ _ = _ |- _ => apply zoom_Ok in Hz as (parameters' & Hparameters & ->)
  end.
  destruct (negb (checkParameters _)); [discriminate |].
  destruct (forMethods_length _ _ _ _ _ Hbody) as [Hlen Hsame].
  assert (Hset : forall h, getOperation h (set_pi_parameters parameters' item)
                           = getOperation h item) by (intros h; now destruct h).
  split.
  - unfold declaredOperations. 
    rewrite (List.filter_ext _ (fun h => isSome (getOperation h (set_pi_parameters parameters' item))))
      by (intros h; now rewrite Hset).
    rewrite <- Hlen. apply map_const_repeat.
    intros m Hm.
    destruct (forMethods_elem _ _ _ _ _ Hbody m Hm) as (h & op & op' & _ & Hop).
    apply ModelerB_runOperation_Ok in Hop
      as (? & ? & ? & ? & ? & _ & _ & _ & _ & _ & -> & _).
    now apply parsePath_render.
  - apply declaredOperations_ext. intros h. now rewrite Hsame, Hset.
Qed.

(** X21. [run] pushes exactly one method for every operation that the
    document declares, path by path in the order of [Object.keys] and
    within a path in the order of [httpMethods]: the [urlSuffix] of the
    methods of the model render to [operationPaths]. *)
Theorem one_method_for_every_operation (doc : OpenAPIObject) :
  (forall model doc', ModelerA.run doc = (Ok model, doc') ->
     map (fun m => renderPath (ModelerA.urlSuffix m)) (ModelerA.operations model)
     = operationPaths (oa_paths doc))
  /\ (forall model doc', ModelerB.run doc = (Ok model, doc') ->
     map (fun m => renderPath (ModelerB.urlSuffix m)) (ModelerB.operations model)
     = operationPaths (oa_paths doc)).
Proof.
  split.
  - intros model doc' Hrun. unfold ModelerA.run in Hrun.
    destruct (negb (oa_openapi doc =? "3.0.0")%string); [discriminate |].
    apply ebind_Ok in Hrun as (servers & s1 & Hservers & Hrun).
    apply elift_Ok in Hservers as [Hservers ->].
    apply ebind_Ok in Hrun as (operations & s2 & Hloop & Hrun).
    apply eret_Ok in Hrun as [-> _]. simpl.
    apply zoom_Ok in Hloop as (paths' & Hloop & _).
    exact (forPaths_order _ _
             (fun k path item ms0 item' => ModelerA_runPath_order servers k path item item' ms0)
             _ _ _ _ Hloop).
  - intros model doc' Hrun. unfold ModelerB.run in Hrun.
    destruct (negb (oa_openapi doc =? "3.0.0")%string); [discriminate |].
    apply ebind_Ok in Hrun as (servers & s1 & Hservers & Hrun).
    apply elift_Ok in Hservers as [Hservers ->].
    apply ebind_Ok in Hrun as (security & s2 & Hsecurity & Hrun).
    apply elift_Ok in Hsecurity as [Hsecurity ->].
    apply ebind_Ok in Hrun as (operations & s3 & Hloop & Hrun).
    apply eret_Ok in Hrun as [-> _]. simpl.
    apply zoom_Ok in Hloop as (paths' & Hloop & _).
    rewrite keys_Object_keys in Hloop.
    exact (forPaths_order _ _
             (fun k path item ms0 item' =>
                ModelerB_runPath_order _ _ servers k path item item' ms0)
             _ _ _ _ Hloop).
Qed.

Lemma one_method_for_every_operation_witness :
  exists model doc',
    ModelerB.run securedDocument = (Ok model, doc')
    /\ map (fun m => renderPath (ModelerB.urlSuffix m)) (ModelerB.operations model)
       = ["/open"; "/ping"].
Proof.
  destruct (ModelerB.run securedDocument) as [[model|e] doc'] eqn:E;
    [|vm_compute in E; discriminate].
  exists model, doc'. split; [reflexivity |].
  exact (proj2 (one_method_for_every_operation securedDocument) model doc' E).
Defined.

Lemma method_request_body_witness :
  exists model doc' m b,
    ModelerB.run bodyDocument = (Ok model, doc')
    /\ In m (ModelerB.operations model)
    /\ ModelerB.requestBody m = Some b
    /\ ModelerB.body_description b = Some "a pet"
    /\ ModelerB.body_required b = false.
Proof.
  destruct (ModelerB.run bodyDocument) as [[model|e] doc'] eqn:E;
    [|vm_compute in E; discriminate].
  destruct (method_request_body bodyDocument "/pets" bodyPathItem GET bodyOperation
              model doc' eq_refl eq_refl E)
    as (m & Hin & _ & b & examples & Hb & Hd & Hr & _).
  exists model, doc', m, b. repeat split; assumption.
Defined.

(** ** The resolver: reference tokens *)

Lemma replaceAll_cons_ne (a b c x : ascii) (s : string) :
  x <> a ->
  Resolver.replaceAll a b c (String x s) = String x (Resolver.replaceAll a b c s).
Proof.
  intros Hx. simpl. destruct s as [|y rest]; [reflexivity |].
  destruct (Ascii.eqb_spec x a) as [->|_]; [contradiction | reflexivity].
Qed.

Lemma replaceAll_unchanged (a b c : ascii) (s : string) :
  hasChar a s = false -> Resolver.replaceAll a b c s = s.
Proof.
  induction s as [|x s IH]; [reflexivity |].
  simpl hasChar. intros [Hx Hs]%orb_false_elim.
  rewrite replaceAll_cons_ne, (IH Hs); [reflexivity |].
  intros ->. now rewrite Ascii.eqb_refl in Hx.
Qed.

(** The first replacement of [decodePart] takes the [~1] of an escaped name
    back; its [~0] is left for the second. *)
Lemma replaceAll_escapePart (name : string) :
  Resolver.replaceAll "~" "1" "/" (escapePart name) = escapeTilde name.
Proof.
  induction name as [|c rest IH]; [reflexivity |].
  simpl escapePart. simpl escapeTilde.
  destruct (Ascii.eqb_spec c "~") as [->|Htilde].
  - change (Resolver.replaceAll "~" "1" "/" (String "~" (String "0" (escapePart rest))))
      with (String "~" (Resolver.replaceAll "~" "1" "/" (String "0" (escapePart rest)))).
    rewrite replaceAll_cons_ne, IH by discriminate. reflexivity.
  - destruct (Ascii.eqb_spec c "/") as [->|Hslash].
    + change (Resolver.replaceAll "~" "1" "/" (String "~" (String "1" (escapePart rest))))
        with (String "/" (Resolver.replaceAll "~" "1" "/" (escapePart rest))).
      now rewrite IH.
    + now rewrite replaceAll_cons_ne, IH.
Qed.

Lemma replaceAll_escapeTilde (name : string) :
  Resolver.replaceAll "~" "0" "~" (escapeTilde name) = name.
Proof.
  induction name as [|c rest IH]; [reflexivity |].
  simpl escapeTilde. destruct (Ascii.eqb_spec c "~") as [->|Htilde].
  - change (Resolver.replaceAll "~" "0" "~" (String "~" (String "0" (escapeTilde rest))))
      with (String "~" (Resolver.replaceAll "~" "0" "~" (escapeTilde rest))).
    now rewrite IH.
  - now rewrite replaceAll_cons_ne, IH.
Qed.

Lemma escapePart_no_slash (name : string) : hasChar "/" (escapePart name) = false.
Proof.
  induction name as [|c rest IH]; [reflexivity |].
  simpl. destruct (Ascii.eqb_spec c "~") as [->|_]; [exact IH |].
  destruct (Ascii.eqb_spec c "/") as [->|Hslash]; [exact IH |].
  simpl. rewrite IH. now destruct (Ascii.eqb_spec c "/").
Qed.

(** X22. The decoding of reference tokens undoes the escaping of JSON
    pointers: the token that [escapePart] writes for a property name has no
    slash, so that [split] keeps it whole, and [decodePart] gives the name
    back; a token without [~] decodes to itself. *)
Theorem decodePart_escapePart (name : string) :
  Resolver.decodePart (escapePart name) = name
  /\ split "/" (escapePart name) = [escapePart name]
  /\ (hasChar "~" name = false -> Resolver.decodePart name = name).
Proof.
  unfold Resolver.decodePart. split; [|split].
  - now rewrite replaceAll_escapePart, replaceAll_escapeTilde.
  - pose proof (escapePart_no_slash name) as H.
    induction (escapePart name) as [|c s IH]; [reflexivity |].
    simpl in H. apply orb_false_elim in H as [Hc Hs].
    simpl. rewrite Hc, (IH Hs). reflexivity.
  - intros H. rewrite (replaceAll_unchanged _ _ _ name H).
    exact (replaceAll_unchanged _ _ _ name H).
Qed.

Lemma decodePart_escapePart_witness :
  hasChar "~" "pets" = false /\ Resolver.decodePart "pets" = "pets".
Proof.
  split; [reflexivity |].
  apply (proj2 (proj2 (decodePart_escapePart "pets"))). reflexivity.
Defined.

(** ** The resolver: one resolution *)

Lemma closedState_root (st : Resolver.state) :
  closedState st = true ->
  closedValue (Resolver.st_heap st) (Resolver.st_root st) = true.
Proof. unfold closedState. now intros [H _]%andb_prop. Qed.

Lemma closedState_member (st : Resolver.state) (l : Resolver.loc) (o : Resolver.object)
  (k : string) (v : Resolver.value) :
  closedState st = true ->
  Resolver.st_heap st !! l = Some o -> getProp k (Resolver.props o) = Some v ->
  closedValue (Resolver.st_heap st) v = true.
Proof.
  unfold closedState. intros [_ H]%andb_prop Hl Hk.
  rewrite forallb_forall in H.
  apply elem_of_map_to_list, list_elem_of_In in Hl. specialize (H _ Hl). simpl in H.
  rewrite forallb_forall in H. apply getProp_In in Hk. exact (H _ Hk).
Qed.

Lemma getMember_closed (st : Resolver.state) (v v' : Resolver.value) (k : string) :
  closedState st = true ->
  Resolver.getMember (Resolver.st_heap st) v k = Ok v' ->
  closedValue (Resolver.st_heap st) v' = true.
Proof.
  intros Hc. unfold Resolver.getMember.
  destruct v; try discriminate; try (intros [= <-]; reflexivity).
  destruct (Resolver.st_heap st !! l) as [o|] eqn:El; [|discriminate].
  destruct (getProp k (Resolver.props o)) as [x|] eqn:Ek; simpl; intros [= <-].
  - eapply closedState_member; eassumption.
  - reflexivity.
Qed.

Lemma evalPath_closed (st : Resolver.state) (ks : list string) (v v' : Resolver.value) :
  closedState st = true ->
  closedValue (Resolver.st_heap st) v = true ->
  Resolver.evalPath (Resolver.st_heap st) v ks = Ok v' ->
  closedValue (Resolver.st_heap st) v' = true.
Proof.
  intros Hc. revert v. induction ks as [|k ks IH]; intros v Hv; simpl.
  - now intros [= <-].
  - destruct (Resolver.getMember (Resolver.st_heap st) v k) as [x|e] eqn:E; simpl;
      [|discriminate].
    apply IH. eapply getMember_closed; eassumption.
Qed.

(** The store after [source.$path = array] for a new array at [la]. *)
Lemma getMember_tagged (st : Resolver.state) (la ls : Resolver.loc)
  (os array : Resolver.object) (v : Resolver.value) (k : string) :
  Resolver.st_heap st !! la = None ->
  Resolver.st_heap st !! ls = Some os ->
  closedValue (Resolver.st_heap st) v = true ->
  k <> "$path" ->
  Resolver.getMember
    (<[ls := {| Resolver.isArray := Resolver.isArray os;
                Resolver.props := setProp "$path" (Resolver.VObject la) (Resolver.props os) |}]>
       (<[la := array]> (Resolver.st_heap st))) v k
  = Resolver.getMember (Resolver.st_heap st) v k.
Proof.
  intros Hla Hls Hv Hk. unfold Resolver.getMember.
  destruct v as [| | | | |l]; try reflexivity.
  simpl in Hv. destruct (Resolver.st_heap st !! l) as [o|] eqn:El; [|discriminate].
  destruct (decide (ls = l)) as [<-|Hne].
  - rewrite lookup_insert_eq. simpl. rewrite getProp_setProp_ne by congruence.
    rewrite Hls in El. now injection El as <-.
  - rewrite lookup_insert_ne by assumption.
    rewrite lookup_insert_ne by (intros <-; congruence).
    now rewrite El.
Qed.

Lemma evalPath_tagged (st : Resolver.state) (la ls : Resolver.loc)
  (os array : Resolver.object) (ks : list string) (v : Resolver.value) :
  closedState st = true ->
  Resolver.st_heap st !! la = None ->
  Resolver.st_heap st !! ls = Some os ->
  closedValue (Resolver.st_heap st) v = true ->
  ~ In "$path" ks ->
  Resolver.evalPath
    (<[ls := {| Resolver.isArray := Resolver.isArray os;
                Resolver.props := setProp "$path" (Resolver.VObject la) (Resolver.props os) |}]>
       (<[la := array]> (Resolver.st_heap st))) v ks
  = Resolver.evalPath (Resolver.st_heap st) v ks.
Proof.
  intros Hc Hla Hls. revert v. induction ks as [|k ks IH]; intros v Hv Hks; [reflexivity |].
  simpl. rewrite getMember_tagged; try assumption.
  - destruct (Resolver.getMember (Resolver.st_heap st) v k) as [x|e] eqn:E; simpl;
      [|reflexivity].
    apply IH.
    + eapply getMember_closed; eassumption.
    + intros Hin. apply Hks. now right.
  - intros ->. apply Hks. now left.
Qed.

(** X23. One resolution.  In a graph without dangling pointers, let the
    reference of a node at [parent[k]] begin with [#] and let its tokens lead
    from the root to an object [ls], while [parent] leads to an object [lt]
    (no token being [$path], and [k] neither).  Then the body of the loop
    returns; afterwards [lt[k]] is the object [ls] itself, [ls.$path] is a
    new array of the decoded tokens, and every other property of every
    object of the graph is what it was. *)
Theorem resolveHit_links_target_to_source
  (st : Resolver.state) (hv : Resolver.value) (parent : list string) (k : string)
  (sourceRef first : string) (parts : list string) (ls lt : Resolver.loc) :
  closedState st = true ->
  Resolver.getMember (Resolver.st_heap st) hv "$ref" = Ok (Resolver.VString sourceRef) ->
  split "/" sourceRef = first :: parts ->
  startsWith first "#" = true ->
  Resolver.evalPath (Resolver.st_heap st) (Resolver.st_root st)
    (map Resolver.decodePart parts) = Ok (Resolver.VObject ls) ->
  Resolver.evalPath (Resolver.st_heap st) (Resolver.st_root st) parent
    = Ok (Resolver.VObject lt) ->
  ~ In "$path" (map Resolver.decodePart parts) ->
  ~ In "$path" parent ->
  k <> "$path" ->
  exists st' la,
    Resolver.resolveHit {| Resolver.hit_path := parent ++ [k]; Resolver.hit_value := hv |} st
    = (Ok tt, st')
    /\ Resolver.st_root st' = Resolver.st_root st
    /\ Resolver.st_heap st !! la = None
    /\ Resolver.st_heap st' !! la
       = Some (Resolver.arrayOfStrings (map Resolver.decodePart parts))
    /\ Resolver.getMember (Resolver.st_heap st') (Resolver.VObject lt) k
       = Ok (Resolver.VObject ls)
    /\ Resolver.getMember (Resolver.st_heap st') (Resolver.VObject ls) "$path"
       = Ok (Resolver.VObject la)
    /\ (forall l0 k0,
          l0 <> la -> (l0 = ls -> k0 <> "$path") -> (l0 = lt -> k0 <> k) ->
          Resolver.getMember (Resolver.st_heap st') (Resolver.VObject l0) k0
          = Resolver.getMember (Resolver.st_heap st) (Resolver.VObject l0) k0).
Proof.
  intros Hc Href Hsplit Hfirst Hsource Htarget Hsp Htp Hk.
  destruct st as [h root]. simpl in *.
  pose proof (closedState_root _ Hc) as Hroot. simpl in Hroot.
  pose proof (evalPath_closed _ _ _ _ Hc Hroot Hsource) as Hls.
  pose proof (evalPath_closed _ _ _ _ Hc Hroot Htarget) as Hlt.
  simpl in Hls, Hlt.
  destruct (h !! ls) as [os|] eqn:Els; [|discriminate].
  destruct (h !! lt) as [ot|] eqn:Elt; [|discriminate].
  set (decoded := map Resolver.decodePart parts) in *.
  set (la := fresh (dom h)).
  assert (Hla : h !! la = None) by (apply not_elem_of_dom, is_fresh).
  assert (Hlsa : ls <> la) by (intros ->; congruence).
  assert (Hlta : lt <> la) by (intros ->; congruence).
  set (os' := {| Resolver.isArray := Resolver.isArray os;
                 Resolver.props := setProp "$path" (Resolver.VObject la) (Resolver.props os) |}).
  set (h2 := <[ls := os']> (<[la := Resolver.arrayOfStrings decoded]> h)).
  assert (Htag : Resolver.evalTagSource decoded {| Resolver.st_heap := h; Resolver.st_root := root |}
                 = (Ok tt, {| Resolver.st_heap := h2; Resolver.st_root := root |})).
  { unfold Resolver.evalTagSource. simpl. rewrite Hsource. fold la. simpl.
    rewrite lookup_insert_ne by congruence. now rewrite Els. }
  assert (Hsource2 : Resolver.evalPath h2 root decoded = Ok (Resolver.VObject ls)).
  { unfold h2, os'. 
    rewrite (evalPath_tagged {| Resolver.st_heap := h; Resolver.st_root := root |});
      assumption. }
  assert (Htarget2 : Resolver.evalPath h2 root parent = Ok (Resolver.VObject lt)).
  { unfold h2, os'.
    rewrite (evalPath_tagged {| Resolver.st_heap := h; Resolver.st_root := root |});
      assumption. }
  assert (Hlt2 : exists ot2, h2 !! lt = Some ot2
                   /\ forall k0, k0 <> "$path" \/ lt <> ls ->
                        getProp k0 (Resolver.props ot2) = getProp k0 (Resolver.props ot)).
  { unfold h2. destruct (decide (ls = lt)) as [<-|Hne].
    - exists os'. rewrite lookup_insert_eq. split; [reflexivity |].
      intros k0 [Hk0|Hk0]; [|congruence]. simpl.
      rewrite getProp_setProp_ne by congruence. congruence.
    - exists ot. rewrite !lookup_insert_ne by congruence. now split. }
  destruct Hlt2 as (ot2 & Hlt2 & Hot2).
  set (ot' := {| Resolver.isArray := Resolver.isArray ot2;
                 Resolver.props := setProp k (Resolver.VObject ls) (Resolver.props ot2) |}).
  exists {| Resolver.st_heap := <[lt := ot']> h2; Resolver.st_root := root |}, la.
  split.
  { unfold Resolver.resolveHit. simpl. rewrite Href, Hsplit. simpl. rewrite Hfirst. simpl.
    fold decoded. unfold ebind. rewrite Htag.
    unfold Resolver.evalAssign. rewrite rev_app_distr. simpl.
    rewrite rev_involutive, Htarget2, Hsource2. simpl. now rewrite Hlt2. }
  split; [reflexivity |]. split; [exact Hla |]. simpl.
  split.
  { rewrite lookup_insert_ne by congruence. unfold h2.
    rewrite lookup_insert_ne by congruence. apply lookup_insert_eq. }
  split.
  { unfold Resolver.getMember. rewrite lookup_insert_eq. simpl.
    now rewrite getProp_setProp_eq. }
  split.
  { unfold Resolver.getMember. destruct (decide (lt = ls)) as [->|Hne].
    - rewrite lookup_insert_eq. simpl. rewrite getProp_setProp_ne by congruence.
      unfold h2 in Hlt2. rewrite lookup_insert_eq in Hlt2. injection Hlt2 as <-.
      simpl. now rewrite getProp_setProp_eq.
    - rewrite lookup_insert_ne by congruence. unfold h2.
      rewrite lookup_insert_eq. simpl. now rewrite getProp_setProp_eq. }
  intros l0 k0 Hl0 Hs0 Ht0. unfold Resolver.getMember.
  destruct (decide (lt = l0)) as [<-|Hne].
  - rewrite lookup_insert_eq, Elt. simpl.
    rewrite getProp_setProp_ne by (intros <-; now apply Ht0).
    rewrite Hot2; [reflexivity |].
    destruct (decide (lt = ls)) as [->|Hne]; [left; now apply Hs0 | now right].
  - rewrite lookup_insert_ne by assumption. unfold h2.
    destruct (decide (ls = l0)) as [<-|Hne0].
    + rewrite lookup_insert_eq, Els. simpl.
      now rewrite getProp_setProp_ne by (intros <-; now apply Hs0).
    + now rewrite !lookup_insert_ne by congruence.
Qed.

Lemma resolveHit_links_target_to_source_witness :
  exists st' la,
    Resolver.resolveHit {| Resolver.hit_path := ["paths"] ++ ["pet"];
                           Resolver.hit_value := Resolver.VObject 3%positive |}
      localRefState = (Ok tt, st')
    /\ Resolver.getMember (Resolver.st_heap st') (Resolver.VObject 2%positive) "pet"
       = Ok (Resolver.VObject 5%positive)
    /\ Resolver.getMember (Resolver.st_heap st') (Resolver.VObject 5%positive) "$path"
       = Ok (Resolver.VObject la)
    /\ Resolver.st_heap st' !! la
       = Some (Resolver.arrayOfStrings ["components"; "Pet"]).
Proof.
  assert (H1 : closedState localRefState = true) by (vm_compute; reflexivity).
  assert (H2 : Resolver.getMember (Resolver.st_heap localRefState)
                 (Resolver.VObject 3%positive) "$ref"
               = Ok (Resolver.VString "#/components/Pet")) by (vm_compute; reflexivity).
  assert (H3 : Resolver.evalPath (Resolver.st_heap localRefState)
                 (Resolver.st_root localRefState)
                 (map Resolver.decodePart ["components"; "Pet"])
               = Ok (Resolver.VObject 5%positive)) by (vm_compute; reflexivity).
  assert (H4 : Resolver.evalPath (Resolver.st_heap localRefState)
                 (Resolver.st_root localRefState) ["paths"]
               = Ok (Resolver.VObject 2%positive)) by (vm_compute; reflexivity).
  assert (H5 : ~ In "$path" (map Resolver.decodePart ["components"; "Pet"])).
  { vm_compute. intros [H|[H|[]]]; discriminate H. }
  assert (H6 : ~ In "$path" ["paths"]).
  { intros [H|[]]; discriminate H. }
  assert (H7 : "pet" <> "$path") by discriminate.
  destruct (resolveHit_links_target_to_source localRefState (Resolver.VObject 3%positive)
              ["paths"] "pet" "#/components/Pet" "#" ["components"; "Pet"]
              5%positive 2%positive H1 H2 eq_refl eq_refl H3 H4 H5 H6 H7)
    as (st' & la & Hrun & _ & _ & Harray & Htarget & Hpath & _).
  exists st', la. repeat split; assumption.
Defined.



(** ** The exceptions of [run] *)

Lemma ebind_Throw {S A B} (m : Eff S A) (k : A -> Eff S B) (s s' : S) (e : exn) :
  ebind m k s = (Throw e, s') ->
  m s = (Throw e, s') \/ exists a s1, m s = (Ok a, s1) /\ k a s1 = (Throw e, s').
Proof.
  unfold ebind. destruct (m s) as [[a|e0] s1].
  - intros H. right. now exists a, s1.
  - intros [= <- <-]. now left.
Qed.

Lemma mapEff_Throw_states {S A B} (f : A -> Eff S B) (R : S -> S -> Prop) :
  (forall s, R s s) -> (forall a b c, R a b -> R b c -> R a c) ->
  (forall x s r s', f x s = (r, s') -> R s s') ->
  forall xs s e s', mapEff f xs s = (Throw e, s') ->
    exists x s1 s2, In x xs /\ R s s1 /\ f x s1 = (Throw e, s2).
Proof.
  intros Hrefl Htrans Hf. induction xs as [|x xs IH]; intros s e s' H; simpl in H.
  - discriminate.
  - apply ebind_Throw in H as [H|(y & s1 & Hy & H)].
    + exists x, s, s'. split; [now left |]. split; [apply Hrefl | assumption].
    + apply ebind_Throw in H as [H|(ys & s2 & Hys & H)]; [|discriminate].
      destruct (IH _ _ _ H) as (x0 & t1 & t2 & Hin & HR & Hx0).
      exists x0, t1, t2. split; [now right |]. split; [|assumption].
      eapply Htrans; [eapply Hf; eassumption | assumption].
Qed.

Lemma forMethods_Throw {A} (body : HttpMethod -> Eff OperationObject A)
  (methods : list HttpMethod) (item item' : PathItemObject) (e : exn) :
  forMethods body methods item = (Throw e, item') ->
  exists httpMethod op op', body httpMethod op = (Throw e, op').
Proof.
  revert item. induction methods as [|h0 rest IH]; intros item H; simpl in H.
  - discriminate.
  - apply ebind_Throw in H as [H|(r & s1 & Hr & H)].
    + unfold onOperation in H. destruct (getOperation h0 item) as [op|]; [|discriminate].
      destruct (body h0 op) as [[a|e0] op'] eqn:Eb; simpl in H; [discriminate |].
      injection H as <- _. now exists h0, op, op'.
    + apply ebind_Throw in H as [H|(rs & s2 & Hrs & H)]; [|discriminate].
      eapply IH; eassumption.
Qed.

Lemma forPaths_Throw {A} (body : string -> Path -> Eff PathItemObject (list A))
  (rawPaths : list string) (paths paths' : PathObject) (e : exn) :
  (forall k, In k rawPaths -> In k (map fst paths)) ->
  forPaths body rawPaths paths = (Throw e, paths') ->
  (exists rawPath, parsePath rawPath = Throw e)
  \/ exists rawPath path item item',
       parsePath rawPath = Ok path /\ body rawPath path item = (Throw e, item').
Proof.
  revert paths. induction rawPaths as [|k0 rest IH]; intros paths Hkeys H; simpl in H.
  - discriminate.
  - apply ebind_Throw in H as [H|(path & s1 & Hpath & H)].
    + left. exists k0. unfold elift in H. now injection H as ->.
    + apply elift_Ok in Hpath as [Hpath ->].
      apply ebind_Throw in H as [H|(ms & s2 & Hms & H)].
      * right. unfold atKey in H.
        destruct (In_getProp k0 paths (Hkeys k0 (or_introl eq_refl))) as (item & Hitem).
        rewrite Hitem in H. destruct (body k0 path item) as [r item'] eqn:Eb.
        injection H as -> _. now exists k0, path, item, item'.
      * apply ebind_Throw in H as [H|(ms' & s3 & Hms' & H)]; [|discriminate].
        apply (IH s2); [|assumption].
        intros k Hk. rewrite (atKey_keys _ _ _ _ _ Hms). apply Hkeys. now right.
Qed.

Lemma parseServers_Throw (declared : option (list ServerObject)) (e : exn) :
  parseServers declared = Throw e ->
  e = Error "invalid path format" \/ e = Error "empty parameter names not allowed".
Proof.
  destruct declared as [servers|]; simpl; [|discriminate].
  destruct (mapR parseServer servers) as [r|e0] eqn:E; simpl; [discriminate |].
  intros [= <-]. revert E.
  apply (mapR_Throw (fun e => e = Error "invalid path format"
                              \/ e = Error "empty parameter names not allowed")).
  intros server e'. unfold parseServer.
  destruct (parsePath (so_url server)) as [p|e1] eqn:Ep; simpl; [discriminate |].
  intros [= <-]. now apply (parsePath_Throw (so_url server)).
Qed.

Lemma documentServers_Throw (declared : option (list ServerObject)) (e : exn) :
  documentServers declared = Throw e ->
  e = Error "invalid path format" \/ e = Error "empty parameter names not allowed".
Proof.
  unfold documentServers.
  destruct (parseServers declared) as [parsed|e0] eqn:E; simpl.
  - destruct (Nat.eqb _ _); discriminate.
  - intros [= <-]. now apply (parseServers_Throw declared).
Qed.

Lemma ModelerA_parseParameter_errors (parameter : ParameterObject) (e : exn) :
  ModelerA.parseParameter parameter = Throw e ->
  e = Error "allowEmptyValue only allowed on query parameters"
  \/ e = Error "expected required=true on path parameter".
Proof.
  unfold ModelerA.parseParameter.
  destruct (_ && _); [intros [= <-]; now left |].
  destruct (_ && _); [intros [= <-]; now right | discriminate].
Qed.

Lemma ModelerA_parseParameters_Throw (declared : option (list ParameterObject)) (e : exn) :
  ModelerA.parseParameters declared = Throw e ->
  e = Error "allowEmptyValue only allowed on query parameters"
  \/ e = Error "expected required=true on path parameter".
Proof.
  destruct declared as [parameters|]; simpl; [|discriminate].
  destruct (mapR ModelerA.parseParameter parameters) as [r|e0] eqn:E; simpl; [discriminate |].
  intros [= <-]. revert E.
  apply (mapR_Throw (fun e => e = Error "allowEmptyValue only allowed on query parameters"
                              \/ e = Error "expected required=true on path parameter")).
  intros parameter e'. apply ModelerA_parseParameter_errors.
Qed.

Lemma In_Object_keys_getProp {V} (o : JsObject V) (k : string) :
  In k (Object_keys o) -> exists v, getProp k o = Some v.
Proof. intros H. now apply In_getProp, Object_keys_In. Qed.















(** ** The earlier draft *)

Lemma ModelerBasic_run_keeps (doc : OpenAPIObject) : keeps ModelerBasic.run doc.
Proof.
  unfold keeps, ModelerBasic.run.
  destruct (negb _); [reflexivity |].
  apply keeps_ebind; [apply keeps_elift |]. intros servers.
  apply keeps_ebind; [|intros; apply keeps_eret].
  apply keeps_zoom; [|apply set_oa_paths_same].
  apply keeps_forPaths. intros rawPath path item Hitem.
  unfold ModelerBasic.runPath.
  repeat (apply keeps_ebind;
          [first [apply keeps_eread | apply keeps_elift] | intros ?]).
  destruct (negb _); [apply keeps_ethrow |].
  apply keeps_forMethods. intros httpMethod op _ Hop.
  unfold ModelerBasic.runOperation.
  repeat (apply keeps_ebind;
          [first [apply keeps_eread | apply keeps_elift] | intros ?]).
  destruct (negb _); [apply keeps_ethrow | apply keeps_eret].
Qed.

Lemma ModelerBasic_runOperation_keeps (path : Path) (pathServers : list Server)
  (pathParameters : list ModelerA.Param) (op : OperationObject) :
  keeps (ModelerBasic.runOperation path pathServers pathParameters) op.
Proof.
  unfold ModelerBasic.runOperation.
  repeat (apply keeps_ebind;
          [first [apply keeps_eread | apply keeps_elift] | intros ?]).
  destruct (negb _); [apply keeps_ethrow | apply keeps_eret].
Qed.

Lemma ModelerBasic_runPath_keeps (servers : list Server) (rawPath : string) (path : Path)
  (item : PathItemObject) :
  keeps (ModelerBasic.runPath servers rawPath path) item.
Proof.
  unfold ModelerBasic.runPath.
  repeat (apply keeps_ebind;
          [first [apply keeps_eread | apply keeps_elift] | intros ?]).
  destruct (negb _); [apply keeps_ethrow |].
  apply keeps_forMethods. intros httpMethod op _ Hop.
  apply ModelerBasic_runOperation_keeps.
Qed.

Lemma forMethods_follows {A B} (f : HttpMethod -> Eff OperationObject A)
  (g : HttpMethod -> Eff OperationObject B) (pr : A -> B) (Q : exn -> Prop) :
  (forall h op, keeps (g h) op) ->
  (forall h op0 op r op', sameOperation op0 op -> f h op = (r, op') ->
     sameOperation op0 op' /\ follows pr Q r (fst (g h op0))) ->
  forall methods item0 item r item',
    sameOperations item0 item ->
    forMethods f methods item = (r, item') ->
    sameOperations item0 item'
    /\ pi_servers item' = pi_servers item /\ pi_parameters item' = pi_parameters item
    /\ follows (map pr) Q r (fst (forMethods g methods item0)).
Proof.
  intros Hg Hf. induction methods as [|h rest IH]; intros item0 item r item' Hsame H.
  - simpl in H. injection H as <- <-. repeat split; try assumption.
  - cbn [forMethods] in *. unfold ebind in H |- *.
    destruct (onOperation h (f h) item) as [r1 s1] eqn:E1.
    assert (Hstep : sameOperations item0 s1
                    /\ pi_servers s1 = pi_servers item
                    /\ pi_parameters s1 = pi_parameters item
                    /\ exists r1', onOperation h (g h) item0 = (r1', item0)
                         /\ follows (option_map pr) Q r1 r1').
    { unfold onOperation in E1 |- *. pose proof (Hsame h) as Hh.
      destruct (getOperation h item) as [op|] eqn:Eop;
        destruct (getOperation h item0) as [op0|] eqn:Eop0; try contradiction.
      - simpl in Hh. destruct (f h op) as [ra op'] eqn:Ef.
        injection E1 as <- <-.
        destruct (Hf _ _ _ _ _ Hh Ef) as [Hop' Hfol].
        pose proof (Hg h op0) as Hk. unfold keeps in Hk.
        destruct (g h op0) as [rb op0'] eqn:Eg. simpl in Hk, Hfol. subst op0'.
        split; [|split; [|split]].
        + intros h'. destruct (HttpMethod_eq_dec h h') as [<-|Hne].
          * now rewrite getOperation_setOperation_eq, Eop0.
          * rewrite getOperation_setOperation_ne by assumption. apply Hsame.
        + now destruct item, h.
        + now destruct item, h.
        + eexists. split; [now rewrite (setOperation_same _ _ _ Eop0) |].
          destruct ra as [a|e]; simpl in *; [now subst rb | ].
          destruct Hfol as [HQ | ->]; [now left | now right].
      - injection E1 as <- <-. repeat split; try assumption.
        eexists. split; reflexivity. }
    destruct Hstep as (Hs1 & Hsv & Hpm & r1' & Eg & Hfol). rewrite Eg.
    destruct r1 as [o|e]; simpl in Hfol.
    + subst r1'.
      destruct (forMethods f rest s1) as [r2 s2] eqn:E2.
      destruct (IH _ _ _ _ Hs1 E2) as (Hs2 & Hsv2 & Hpm2 & Hfol2).
      destruct (forMethods g rest item0) as [r2' s2'] eqn:Eg2. simpl in Hfol2.
      destruct r2 as [rs|e]; simpl in Hfol2.
      * subst r2'. injection H as <- <-.
        split; [assumption |]. split; [congruence |]. split; [congruence |].
        simpl. now destruct o.
      * injection H as <- <-.
        split; [assumption |]. split; [congruence |]. split; [congruence |].
        simpl. destruct Hfol2 as [HQ | ->]; [now left | now right].
    + injection H as <- <-.
      split; [assumption |]. split; [assumption |]. split; [assumption |].
      simpl. destruct Hfol as [HQ | ->]; [now left | now right].
Qed.

Lemma forPaths_follows {A B} (f : string -> Path -> Eff PathItemObject (list A))
  (g : string -> Path -> Eff PathItemObject (list B)) (pr : A -> B) (Q : exn -> Prop) :
  (forall k p item, keeps (g k p) item) ->
  (forall k p item0 item r item', samePathItem item0 item -> f k p item = (r, item') ->
     samePathItem item0 item' /\ follows (map pr) Q r (fst (g k p item0))) ->
  forall rawPaths paths0 paths r paths',
    samePaths paths0 paths ->
    forPaths f rawPaths paths = (r, paths') ->
    follows (map pr) Q r (fst (forPaths g rawPaths paths0)).
Proof.
  intros Hg Hf. induction rawPaths as [|k rest IH]; intros paths0 paths r paths' Hsame H.
  - simpl in H. injection H as <- <-. reflexivity.
  - cbn [forPaths] in *. unfold ebind, elift in H |- *.
    destruct (parsePath k) as [path|e].
    2: { injection H as <- <-. simpl. now right. }
    destruct (atKey k (f k path) paths) as [r1 s1] eqn:E1.
    assert (Hstep : samePaths paths0 s1
                    /\ exists r1', atKey k (g k path) paths0 = (r1', paths0)
                         /\ follows (map pr) Q r1 r1').
    { unfold atKey in E1 |- *. pose proof (Hsame k) as Hk.
      destruct (getProp k paths) as [item|] eqn:Eitem;
        destruct (getProp k paths0) as [item0|] eqn:Eitem0; try contradiction.
      - simpl in Hk. destruct (f k path item) as [ra item'] eqn:Ef.
        injection E1 as <- <-.
        destruct (Hf _ _ _ _ _ _ Hk Ef) as [Hitem' Hfol].
        pose proof (Hg k path item0) as Hkeep. unfold keeps in Hkeep.
        destruct (g k path item0) as [rb item0'] eqn:Eg. simpl in Hkeep, Hfol.
        subst item0'. split.
        + intros k'. destruct (String.eqb_spec k k') as [<-|Hne].
          * now rewrite getProp_setProp_eq, Eitem0.
          * rewrite getProp_setProp_ne by assumption. apply Hsame.
        + eexists. split; [now rewrite (setProp_same _ _ _ Eitem0) | assumption].
      - injection E1 as <- <-. split; [assumption |].
        eexists. split; [reflexivity |]. simpl. now right. }
    destruct Hstep as (Hs1 & r1' & Eg & Hfol). rewrite Eg.
    destruct r1 as [ms|e]; simpl in Hfol.
    + subst r1'.
      destruct (forPaths f rest s1) as [r2 s2] eqn:E2.
      pose proof (IH _ _ _ _ Hs1 E2) as Hfol2.
      destruct (forPaths g rest paths0) as [r2' s2'] eqn:Eg2. simpl in Hfol2.
      destruct r2 as [ms'|e]; simpl in Hfol2.
      * subst r2'. injection H as <- <-. simpl. now rewrite map_app.
      * injection H as <- <-. simpl.
        destruct Hfol2 as [HQ | ->]; [now left | now right].
    + injection H as <- <-. simpl.
      destruct Hfol as [HQ | ->]; [now left | now right].
Qed.

(** The exceptions of the headers of a response, whose location is
    [header]. *)
Lemma ModelerA_header_Throw (headers headers' : HeadersObject) (e : exn) :
  mapEff (fun name => atKey name (ModelerA.headerAsParam name))
    (Object_keys headers) headers = (Throw e, headers') ->
  e = Error "allowEmptyValue only allowed on query parameters".
Proof.
  intros H.
  apply (mapEff_Throw_states _ (fun a b : HeadersObject => map fst b = map fst a)) in H
    as (name & s1 & s2 & Hin & Hkeys & Hname).
  - unfold atKey in Hname.
    destruct (In_getProp name s1) as (ho & Hho).
    { rewrite Hkeys. now apply Object_keys_In. }
    rewrite Hho in Hname. unfold ModelerA.headerAsParam in Hname.
    destruct (ModelerA.parseParameter _) as [p|e0] eqn:Ep; simpl in Hname; [discriminate |].
    injection Hname as <- _.
    unfold ModelerA.parseParameter in Ep. simpl in Ep.
    destruct (match pf_allowEmptyValue (ho_fields ho) with Some _ => true | None => false end);
      simpl in Ep; [now injection Ep as <- | discriminate].
  - reflexivity.
  - intros a b c H1 H2. now rewrite H2.
  - intros x s r s' Hx. now apply atKey_keys in Hx.
Qed.

Lemma ModelerA_parseResponses_added (rs rs' : ResponsesObject) (e : exn) :
  ModelerA.parseResponses rs = (Throw e, rs') -> addedError e.
Proof.
  unfold ModelerA.parseResponses. intros H.
  apply ebind_Throw in H as [H|(l & s1 & _ & H)]; [|discriminate].
  apply (mapEff_Throw_states _ sameResponses sameResponses_refl sameResponses_trans
           (fun k s r s' => ModelerA_parseResponse_same k s s' r)) in H
    as (k & s1 & s2 & Hin & Hsame & Hk).
  unfold ModelerA.parseResponse in Hk.
  destruct (negb (matchesStatusPattern (normalizeResponseKey k))).
  - injection Hk as <- _. right. left. now eexists.
  - unfold atKey in Hk.
    destruct (In_Object_keys_getProp rs k Hin) as (ro0 & Hro0).
    specialize (Hsame k). rewrite Hro0 in Hsame.
    destruct (getProp k s1) as [ro|]; [|discriminate].
    match type of Hk with
    | (let '(_, _) := ?m ?x in _) = _ => destruct (m x) as [r v'] eqn:E
    end.
    injection Hk as -> _.
    apply ebind_Throw in E as [E|(hs & t1 & _ & E)].
    + unfold onHeaders in E. destruct (ro_headers ro) as [headers|].
      * match type of E with
        | (let '(_, _) := ?m ?x in _) = _ => destruct (m x) as [r h'] eqn:Eh
        end.
        injection E as -> _.
        apply ModelerA_header_Throw in Eh as ->. unfold addedError. tauto.
      * discriminate.
    + apply ebind_Throw in E as [E|(d & t2 & _ & E)]; discriminate.
Qed.

Lemma ModelerA_runOperation_follows (path : Path)
  (pathSummary pathDescription : option string)
  (pathServers : list Server) (pathParameters : list ModelerA.Param)
  (op0 op op' : OperationObject) (r : result ModelerA.Method) :
  sameOperation op0 op ->
  ModelerA.runOperation path pathSummary pathDescription pathServers pathParameters op
  = (r, op') ->
  sameOperation op0 op'
  /\ follows basicMethod addedError r
       (fst (ModelerBasic.runOperation path pathServers pathParameters op0)).
Proof.
  intros [Hs Hp] H.
  unfold ModelerA.runOperation, ModelerBasic.runOperation in *.
  unfold ebind, eread, elift in H |- *. rewrite Hs, Hp.
  destruct (parseServers (oo_servers op)) as [operationServers|e].
  2: { injection H as <- <-. split; [now split |]. simpl. now right. }
  destruct (ModelerA.parseParameters (oo_parameters op)) as [operationParameters|e].
  2: { injection H as <- <-. split; [now split |]. simpl. now right. }
  destruct (negb (checkParameters pathParameters)).
  { injection H as <- <-. split; [now split |]. simpl. now right. }
  destruct (validatePathParameters_cases
              (mergeParameters pathParameters (default [] operationParameters)) path)
    as [Hv|Hv]; rewrite Hv in H.
  2: { injection H as <- <-. split; [now split |]. simpl. left. now left. }
  unfold zoom in H.
  destruct (ModelerA.parseResponses (oo_responses op)) as [[responses|e] rs'] eqn:Er.
  - injection H as <- <-. split; [now split |]. reflexivity.
  - injection H as <- <-. split; [now split |]. simpl. left.
    eapply ModelerA_parseResponses_added; eassumption.
Qed.

Lemma ModelerA_runPath_follows (servers : list Server) (rawPath : string) (path : Path)
  (item0 item item' : PathItemObject) (r : result (list ModelerA.Method)) :
  samePathItem item0 item ->
  ModelerA.runPath servers rawPath path item = (r, item') ->
  samePathItem item0 item'
  /\ follows (map basicMethod) addedError r
       (fst (ModelerBasic.runPath servers rawPath path item0)).
Proof.
  intros (Hs & Hp & Hops) H.
  unfold ModelerA.runPath, ModelerBasic.runPath in *.
  unfold ebind at 1 2 3 4 5 6, eread, elift in H.
  unfold ebind at 1 2 3 4, eread, elift. rewrite Hs, Hp.
  destruct (parseServers (pi_servers item)) as [pathServers|e].
  2: { injection H as <- <-. split; [now repeat split |]. simpl. now right. }
  destruct (ModelerA.parseParameters (pi_parameters item)) as [pathParameters|e].
  2: { injection H as <- <-. split; [now repeat split |]. simpl. now right. }
  destruct (negb (checkParameters (default [] pathParameters))).
  { injection H as <- <-. split; [now repeat split |]. simpl. now right. }
  destruct (forMethods_follows _
              (fun _ => ModelerBasic.runOperation path (default servers pathServers)
                          (default [] pathParameters))
              basicMethod addedError
              (fun _ op => ModelerBasic_runOperation_keeps _ _ _ op)
              (fun _ op0 op r op' => ModelerA_runOperation_follows _ _ _ _ _ op0 op op' r)
              _ _ _ _ _ Hops H)
    as (Hops' & Hs' & Hp' & Hfol).
  split; [|exact Hfol]. repeat split; [congruence | congruence | assumption].
Qed.

Lemma samePaths_refl (paths : PathObject) : samePaths paths paths.
Proof.
  intros k. destruct (getProp k paths) as [item|]; simpl; [|exact I].
  repeat split. intros h. destruct (getOperation h item); simpl; [now split | exact I].
Qed.

Lemma ModelerA_run_follows (doc doc' : OpenAPIObject) (r : result ModelerA.Model) :
  ModelerA.run doc = (r, doc') ->
  follows (fun model =>
             {| ModelerBasic.operations := map basicMethod (ModelerA.operations model) |})
    addedError r (fst (ModelerBasic.run doc)).
Proof.
  unfold ModelerA.run, ModelerBasic.run.
  destruct (negb (oa_openapi doc =? "3.0.0")%string).
  { intros [= <- <-]. simpl. now right. }
  unfold ebind at 1 2, elift. unfold ebind at 1 2.
  destruct (documentServers (oa_servers doc)) as [servers|e].
  2: { intros [= <- <-]. simpl. now right. }
  unfold zoom.
  destruct (forPaths (ModelerA.runPath servers) (Object_keys (oa_paths doc)) (oa_paths doc))
    as [r1 paths'] eqn:E1.
  pose proof (forPaths_follows _ (ModelerBasic.runPath servers) basicMethod addedError
                (ModelerBasic_runPath_keeps servers)
                (fun k p item0 item r item' =>
                   ModelerA_runPath_follows servers k p item0 item item' r)
                _ _ _ _ _ (samePaths_refl (oa_paths doc)) E1) as Hfol.
  destruct (forPaths (ModelerBasic.runPath servers) _ (oa_paths doc)) as [r1' paths0'].
  simpl in Hfol.
  destruct r1 as [ms|e]; simpl in Hfol.
  - subst r1'. intros [= <- <-]. reflexivity.
  - intros [= <- <-]. simpl. destruct Hfol as [HQ | ->]; [now left | now right].
Qed.

Lemma ModelerBasic_runOperation_errors (path : Path)
  (pathServers : list Server) (pathParameters : list ModelerA.Param)
  (op op' : OperationObject) (e : exn) :
  checkParameters pathParameters = true ->
  ModelerBasic.runOperation path pathServers pathParameters op = (Throw e, op') ->
  ModelerBasic_error e.
Proof.
  intros Hcheck H. unfold ModelerBasic.runOperation in H.
  apply ebind_Throw in H as [H|(a1 & s1 & H1 & H)]; [discriminate |].
  apply eread_Ok in H1 as [-> ->].
  apply ebind_Throw in H as [H|(a2 & s2 & H2 & H)].
  { unfold elift in H. injection H as H _.
    apply parseServers_Throw in H as [-> | ->]; unfold ModelerBasic_error; tauto. }
  apply elift_Ok in H2 as [H2 ->].
  apply ebind_Throw in H as [H|(a3 & s3 & H3 & H)]; [discriminate |].
  apply eread_Ok in H3 as [-> ->].
  apply ebind_Throw in H as [H|(a4 & s4 & H4 & H)].
  { unfold elift in H. injection H as H _.
    apply ModelerA_parseParameters_Throw in H as [-> | ->];
      unfold ModelerBasic_error; tauto. }
  apply elift_Ok in H4 as [H4 ->].
  rewrite Hcheck in H. discriminate.
Qed.

Lemma ModelerBasic_run_errors (doc doc' : OpenAPIObject) (e : exn) :
  ModelerBasic.run doc = (Throw e, doc') -> ModelerBasic_error e.
Proof.
  unfold ModelerBasic.run.
  destruct (negb (oa_openapi doc =? "3.0.0")%string).
  { intros [= <- _]. left. now eexists. }
  intros H.
  apply ebind_Throw in H as [H|(servers & s1 & H1 & H)].
  { unfold elift in H. injection H as H _.
    apply documentServers_Throw in H as [-> | ->]; unfold ModelerBasic_error; tauto. }
  apply elift_Ok in H1 as [H1 ->].
  apply ebind_Throw in H as [H|(ops & s2 & H2 & H)]; [|discriminate].
  unfold zoom in H.
  destruct (forPaths _ _ (oa_paths doc)) as [r paths'] eqn:Ep.
  injection H as -> _.
  apply forPaths_Throw in Ep
    as [(rawPath & Hp)|(rawPath & path & item & item' & Hpath & Hbody)].
  - apply parsePath_Throw in Hp as [-> | ->]; unfold ModelerBasic_error; tauto.
  - unfold ModelerBasic.runPath in Hbody.
    apply ebind_Throw in Hbody as [H|(b3 & t3 & B3 & H)]; [discriminate |].
    apply eread_Ok in B3 as [-> ->].
    apply ebind_Throw in H as [H|(b4 & t4 & B4 & H)].
    { unfold elift in H. injection H as H _.
      apply parseServers_Throw in H as [-> | ->]; unfold ModelerBasic_error; tauto. }
    apply elift_Ok in B4 as [B4 ->].
    apply ebind_Throw in H as [H|(b5 & t5 & B5 & H)]; [discriminate |].
    apply eread_Ok in B5 as [-> ->].
    apply ebind_Throw in H as [H|(b6 & t6 & B6 & H)].
    { unfold elift in H. injection H as H _.
      apply ModelerA_parseParameters_Throw in H as [-> | ->];
        unfold ModelerBasic_error; tauto. }
    apply elift_Ok in B6 as [B6 ->].
    destruct (checkParameters (default [] b6)) eqn:Hcheck; cbn [negb] in H.
    + apply forMethods_Throw in H as (h & op & op' & Hop).
      eapply ModelerBasic_runOperation_errors; eassumption.
    + injection H as <- _. unfold ModelerBasic_error. tauto.
  - intros k. apply Object_keys_In.
Qed.

(** X26. [modeler.ts] extends its earlier draft: whenever [run] returns a
    model, [run] of the earlier draft returns, for the same document, the
    model with the same methods in the same order, each with the same
    [urlSuffix], servers and parameters; and an exception of [run] is the
    exception of the earlier draft too, unless it comes from what was added
    (the cross-check of the path parameters, the responses and their
    headers). *)
Theorem modeler_extends_earlier_draft (doc : OpenAPIObject) :
  (forall model doc', ModelerA.run doc = (Ok model, doc') ->
     ModelerBasic.run doc
     = (Ok {| ModelerBasic.operations := map basicMethod (ModelerA.operations model) |},
        doc))
  /\ (forall e doc', ModelerA.run doc = (Throw e, doc') ->
        addedError e \/ ModelerBasic.run doc = (Throw e, doc)).
Proof.
  pose proof (ModelerBasic_run_keeps doc) as Hkeep. unfold keeps in Hkeep.
  split.
  - intros model doc' Hrun. apply ModelerA_run_follows in Hrun. simpl in Hrun.
    destruct (ModelerBasic.run doc) as [r0 d0]. simpl in *. now subst.
  - intros e doc' Hrun. apply ModelerA_run_follows in Hrun. simpl in Hrun.
    destruct Hrun as [HQ|Hrun]; [now left | right].
    destruct (ModelerBasic.run doc) as [r0 d0]. simpl in *. now subst.
Qed.

Lemma modeler_extends_earlier_draft_witness :
  (exists model doc',
     ModelerA.run petDocument = (Ok model, doc')
     /\ ModelerBasic.run petDocument
        = (Ok {| ModelerBasic.operations :=
                   map basicMethod (ModelerA.operations model) |}, petDocument))
  /\ ModelerA.run undeclaredDocument = (Throw mismatch, undeclaredDocument)
  /\ (exists basic, ModelerBasic.run undeclaredDocument = (Ok basic, undeclaredDocument))
  /\ addedError mismatch.
Proof.
  split; [|split; [|split]].
  - destruct (ModelerA.run petDocument) as [[model|e] doc'] eqn:E;
      [|vm_compute in E; discriminate].
    exists model, doc'. split; [reflexivity |].
    exact (proj1 (modeler_extends_earlier_draft petDocument) model doc' E).
  - vm_compute. reflexivity.
  - eexists. vm_compute. reflexivity.
  - destruct (proj2 (modeler_extends_earlier_draft undeclaredDocument)
                mismatch undeclaredDocument eq_refl) as [H|H];
      [exact H | vm_compute in H; discriminate].
Defined.

(** X27. [run] of the earlier draft only reads: it leaves the document as it
    was, whatever the document (of the declared type) is, and every exception
    it ends with is one of the errors listed in [ModelerBasic_error] -- never
    a [TypeError], and never the error [invalid operation parameters]. *)
Theorem earlier_draft_only_reads (doc : OpenAPIObject) :
  snd (ModelerBasic.run doc) = doc
  /\ (forall e, fst (ModelerBasic.run doc) = Throw e ->
        ModelerBasic_error e
        /\ e <> TypeError /\ e <> Error "invalid operation parameters").
Proof.
  split; [apply ModelerBasic_run_keeps |].
  intros e He.
  destruct (ModelerBasic.run doc) as [r doc'] eqn:E. simpl in He. subst r.
  apply ModelerBasic_run_errors in E. split; [assumption |].
  unfold ModelerBasic_error in E.
  split; intros ->; decompose [or ex] E; discriminate.
Qed.

Lemma earlier_draft_only_reads_witness :
  snd (ModelerBasic.run headerDocument) = headerDocument
  /\ fst (ModelerBasic.run swaggerDocument)
     = Throw (Error "this modeler is for OpenAPI 3.0.0, found 2.0")
  /\ ModelerBasic_error (Error "this modeler is for OpenAPI 3.0.0, found 2.0").
Proof.
  split; [|split].
  - exact (proj1 (earlier_draft_only_reads headerDocument)).
  - reflexivity.
  - exact (proj1 (proj2 (earlier_draft_only_reads swaggerDocument) _ eq_refl)).
Defined.
